(** * PrivMail: the secure search circuit engine

    A shallow embedding of [Search-with-MOTION/common/privmail.cpp]
    ([PrivMailSearch] and its static helpers) and, of [privmail_main.cpp],
    of the loaders of the query file, of the mail directory and of the index
    file, of [GetSearchMode] and of the counters of the statistics with
    their helper [GetCharacterLengthFromBase64].

    Wires carry their plaintext value: a Boolean-GMW share is modelled by the
    value that the XOR of all parties' shares reconstructs, one value per
    SIMD lane. *)

From Stdlib Require Import ZArith Bool String Ascii List Lia Arith.
Import ListNotations.
Local Open Scope Z_scope.

(* ================================================================== *)
(** * Failure *)
(* ================================================================== *)

(** What stops circuit construction: a thrown [std::invalid_argument], an
    [assert] that does not hold, an access past the end of a vector, or a
    call of a MOTION primitive outside its contract. *)
Inductive exn : Type :=
| invalid_argument (what : string)
| assert_failed
| out_of_range
| bad_gate.

Inductive result (A : Type) : Type :=
| Ok (a : A)
| Err (e : exn).
Arguments Ok {A} a.
Arguments Err {A} e.

Definition bind {A B} (m : result A) (f : A -> result B) : result B :=
  match m with
  | Ok a => f a
  | Err e => Err e
  end.

Notation "x <- m ;; k" := (bind m (fun x => k))
  (at level 61, m at next level, right associativity).
Notation "' pat <- m ;; k" := (bind m (fun x => match x with pat => k end))
  (at level 61, pat pattern, m at next level, right associativity).

Definition assert (b : bool) : result unit :=
  if b then Ok tt else Err assert_failed.

(** [v[i]] on a [std::vector]. *)
Definition at_ {A} (v : list A) (i : nat) : result A :=
  match nth_error v i with
  | Some a => Ok a
  | None => Err out_of_range
  end.

Fixpoint mapM {A B} (f : A -> result B) (l : list A) : result (list B) :=
  match l with
  | [] => Ok []
  | a :: l' => b <- f a ;; bs <- mapM f l' ;; Ok (b :: bs)
  end.

Fixpoint foldM {A S} (f : S -> A -> result S) (l : list A) (s : S) : result S :=
  match l with
  | [] => Ok s
  | a :: l' => s' <- f s a ;; foldM f l' s'
  end.

(* ================================================================== *)
(** * Machine integers *)
(* ================================================================== *)

Definition u32 (z : Z) : Z := z mod 2 ^ 32.
Definition u64 (z : Z) : Z := z mod 2 ^ 64.

(** Conversion to [std::int32_t]: the low 32 bits, read in two's complement. *)
Definition i32 (z : Z) : Z := (z + 2 ^ 31) mod 2 ^ 32 - 2 ^ 31.

(** [v.size()], a [std::size_t]. *)
Definition size {A} (v : list A) : Z := Z.of_nat (length v).

(* ================================================================== *)
(** * The MOTION primitives used by the engine *)
(* ================================================================== *)

(** Modelled from the spec: the MOTION backend types and gates
    ([ShareWrapper], [Split], [Concatenate], [Simdify], [Unsimdify], the
    Boolean gates, [ToInput]), which the engine includes from
    [protocols/share_wrapper.h].  A wire is "a backend construct representing
    k parallel 1-bit wires evaluated by a single gate": it holds one bit per
    SIMD lane.  A share is the list of its wires, wire 0 first; its bit
    length is the number of wires. *)
Definition wire := list bool.
Definition ShareWrapper := list wire.

Definition GetBitLength (s : ShareWrapper) : Z := size s.

Fixpoint zip_with {A B C} (f : A -> B -> C) (l : list A) (l' : list B) : list C :=
  match l, l' with
  | a :: l, b :: l' => f a b :: zip_with f l l'
  | _, _ => []
  end.

Fixpoint same_lengths (l l' : list nat) : bool :=
  match l, l' with
  | [], [] => true
  | a :: l, b :: l' => Nat.eqb a b && same_lengths l l'
  | _, _ => false
  end.

(** Two shares have the same shape when they have as many wires and every
    wire has as many SIMD lanes. *)
Definition same_shape (a b : ShareWrapper) : bool :=
  same_lengths (map (@length bool) a) (map (@length bool) b).

(** Modelled from the spec: a two-input Boolean gate, evaluated wire by wire
    and lane by lane; the operands must agree in shape. *)
Definition gate2 (f : bool -> bool -> bool) (a b : ShareWrapper) : result ShareWrapper :=
  if same_shape a b then Ok (zip_with (zip_with f) a b) else Err bad_gate.

Definition sw_xor := gate2 xorb.
Definition sw_and := gate2 andb.
Definition sw_or := gate2 orb.
Definition sw_not (a : ShareWrapper) : ShareWrapper := map (map negb) a.

(** Modelled from the spec: [Split] cuts a share into single-wire shares
    (the engine takes the first [character_bitlen] of them for a
    character). *)
Definition Split (a : ShareWrapper) : list ShareWrapper := map (fun w => [w]) a.

(** Modelled from the spec: [Concatenate] joins the wires of the given
    shares into one share. *)
Definition Concatenate (l : list ShareWrapper) : result ShareWrapper :=
  match l with
  | [] => Err bad_gate
  | _ => Ok (concat l)
  end.

(** Modelled from the spec: [Simdify] packs shares of one bit length into a
    single share of that bit length whose wires hold the lanes of all the
    inputs, in order. *)
Definition Simdify (l : list ShareWrapper) : result ShareWrapper :=
  match l with
  | [] => Err bad_gate
  | s :: _ =>
      if forallb (fun s' => Nat.eqb (length s') (length s)) l
      then Ok (map (fun i => flat_map (fun s' => nth i s' []) l) (seq 0 (length s)))
      else Err bad_gate
  end.

(** Modelled from the spec: [Unsimdify], the inverse, yields one share per
    SIMD lane. *)
Definition Unsimdify (a : ShareWrapper) : list ShareWrapper :=
  match a with
  | [] => []
  | w :: _ => map (fun k => map (fun w' => [nth k w' false]) a) (seq 0 (length w))
  end.

(** Modelled from the spec: [ToInput] of a [std::uint8_t] fed into an input
    gate, an 8-bit share with the least significant bit on wire 0. *)
Definition ToInput (one_byte : Z) : ShareWrapper :=
  map (fun k => [Z.testbit one_byte (Z.of_nat k)]) (seq 0 8).

(** A share of bit length 1 with a single lane. *)
Definition bit (b : bool) : ShareWrapper := [[b]].

(** [party->In(BitVector<>(1, false), 0)]. *)
Definition full_zero : ShareWrapper := bit false.

(** Modelled from the spec: [LowDepthReduce] of
    [algorithm/low_depth_reduce.h], "a balanced binary fold over an
    associative operator"; an empty input has no reduction.  The recursion
    halves the input, so [length v] steps of fuel are never used up. *)
Fixpoint low_depth (fuel : nat) {A} (op : A -> A -> result A) (v : list A) : result A :=
  match v with
  | [] => Err bad_gate
  | [a] => Ok a
  | _ =>
      match fuel with
      | O => Err bad_gate
      | S fuel' =>
          let half := Nat.div2 (length v) in
          l <- low_depth fuel' op (firstn half v) ;;
          r <- low_depth fuel' op (skipn half v) ;;
          op l r
      end
  end.

Definition LowDepthReduce {A} (v : list A) (op : A -> A -> result A) : result A :=
  low_depth (length v) op v.

(** Modelled from the spec: [LowDepthReduceSIMD], the same balanced
    reduction (the backend evaluates each level of the tree in one SIMD
    gate). *)
Definition LowDepthReduceSIMD (v : list ShareWrapper)
    (op : ShareWrapper -> ShareWrapper -> result ShareWrapper) : result ShareWrapper :=
  LowDepthReduce v op.

(* ================================================================== *)
(** * [CreateChainingCircuit] *)
(* ================================================================== *)

Definition CreateChainingCircuit
    (previous_search_result new_search_result OR_BIT NOT_BIT : ShareWrapper)
    : result ShareWrapper :=
  _ <- assert (GetBitLength previous_search_result =? 1) ;;
  _ <- assert (GetBitLength new_search_result =? 1) ;;
  _ <- assert (GetBitLength OR_BIT =? 1) ;;
  _ <- assert (GetBitLength NOT_BIT =? 1) ;;
  a <- sw_xor previous_search_result OR_BIT ;;
  b <- sw_xor new_search_result NOT_BIT ;;
  c <- sw_xor b OR_BIT ;;
  d <- sw_and a c ;;
  sw_xor d OR_BIT.

(* ================================================================== *)
(** * [simple_base64_decoder] *)
(* ================================================================== *)

Definition base64_chars : string :=
  "ABCDEFGHIJKLMNOPQRSTUVWXYZabcdefghijklmnopqrstuvwxyz0123456789+/".

(** [std::string::find(c)]: the first index of [c], [None] for [npos]. *)
Fixpoint find_from (s : list ascii) (c : ascii) (i : Z) : option Z :=
  match s with
  | [] => None
  | x :: s' => if Ascii.eqb x c then Some i else find_from s' c (i + 1)
  end.

Definition find (s : string) (c : ascii) : option Z :=
  find_from (list_ascii_of_string s) c 0.

Definition pad_char : ascii := "="%char.

(** The loop body over [data]; the locals [decoded], [bit_stream] and
    [counter] are threaded through. *)
Fixpoint decoder_loop (data : list ascii) (decoded : list Z) (bit_stream counter : Z)
    : list Z :=
  match data with
  | [] => decoded
  | c :: data' =>
      match find base64_chars c with
      | Some num_val =>
          let offset := u32 (18 - counter mod 4 * 6) in
          let bit_stream := u32 (bit_stream + Z.shiftl num_val offset) in
          let decoded :=
            if offset =? 12
            then decoded ++ [Z.land (Z.shiftr bit_stream 16) 255] else decoded in
          let decoded :=
            if offset =? 6
            then decoded ++ [Z.land (Z.shiftr bit_stream 8) 255] else decoded in
          if offset =? 0
          then decoder_loop data' (decoded ++ [Z.land bit_stream 255]) 0 (u32 (counter + 1))
          else decoder_loop data' decoded bit_stream (u32 (counter + 1))
      | None =>
          if Ascii.eqb c pad_char
          then decoder_loop data' decoded bit_stream (u32 (counter + 1))
          else []
      end
  end.

Definition simple_base64_decoder (data : string) : list Z :=
  decoder_loop (list_ascii_of_string data) [] 0 0.

(* ================================================================== *)
(** * [GetCharacterLengthFromBase64] *)
(* ================================================================== *)

(** [std::count(begin, end, '=')]. *)
Definition count (s : list ascii) (c : ascii) : Z :=
  size (filter (Ascii.eqb c) s).

(** The expression is evaluated in [std::size_t] and returned as
    [std::uint32_t]. *)
Definition GetCharacterLengthFromBase64 (base64_string : string) : Z :=
  let num_of_padding_chars := count (list_ascii_of_string base64_string) pad_char in
  let length := Z.of_nat (String.length base64_string) in
  u32 (u64 (u64 (3 * (length / 4)) - num_of_padding_chars)).

(* ================================================================== *)
(** * The data model of [privmail.h] *)
(* ================================================================== *)

Inductive search_mode_enum : Type := eNormal | eHidden | eBucket | eIndex | eError.

(** A secret-shared Base64 field.  Every party's process holds its own
    string for the field; the model keeps them together, the string of party
    [i] at index [i], so that the input gates of all the parties can be
    evaluated.  The public fields (sizes, the bucket scheme) are the same at
    every party. *)
Definition share_string := list string.

Record search_query : Type := {
  keyword : string;
  sq_bucket_size : Z;
  keyword_bucketed : share_string;
  keyword_length_mask : share_string;
  keyword_truncated : share_string
}.

Record bucket_block : Type := {
  bb_bucket_size : Z;
  bb_words : list share_string
}.

Record mail_structure : Type := {
  subject : string;
  secret_share_block : share_string;
  secret_share_truncated_block : share_string;
  buckets : list bucket_block
}.

Record index_bucket : Type := {
  ib_bucket_size : Z;
  word_and_occurrence_strings : list (share_string * string)
}.

Record search_index : Type := {
  num_of_emails : Z;
  index_buckets : list index_bucket
}.

Record query_input : Type := {
  bucket_size : Z;
  search_keyword : list ShareWrapper;
  length_mask : list ShareWrapper
}.

Record bucket_input : Type := {
  bi_bucket_size : Z;
  words : list (list ShareWrapper)
}.

(* ================================================================== *)
(** * Input decoding *)
(* ================================================================== *)

(** The inner loop of [FromSharesToValue]: [value[j] ^= shares[i][j]] for
    every [j] below [shares[i].size()]. *)
Fixpoint xor_into (value share : list ShareWrapper) : result (list ShareWrapper) :=
  match share, value with
  | [], _ => Ok value
  | s :: share', v :: value' =>
      x <- sw_xor v s ;; rest <- xor_into value' share' ;; Ok (x :: rest)
  | _ :: _, [] => Err out_of_range
  end.

Definition FromSharesToValue (shares : list (list ShareWrapper))
    : result (list ShareWrapper) :=
  match shares with
  | [] => Ok []
  | share0 :: shares' => foldM xor_into shares' share0
  end.

(** Party [i]'s input gates carry the bytes decoded from party [i]'s
    string. *)
Definition base64StringToInput (input_string : share_string) : result (list ShareWrapper) :=
  FromSharesToValue
    (map (fun s => map ToInput (simple_base64_decoder s)) input_string).

Definition splitTo1bitShareWrappers (input : list ShareWrapper)
    : result (list ShareWrapper) :=
  pieces <- mapM (fun input_byte =>
                    _ <- assert (GetBitLength input_byte =? 8) ;;
                    Ok (rev (Split input_byte))) input ;;
  Ok (concat pieces).

Definition getBucketedKeywordInput (search_queries : list search_query)
    : result (list query_input) :=
  mapM (fun q =>
          kw <- base64StringToInput (keyword_bucketed q) ;;
          length_mask_input <- base64StringToInput (keyword_length_mask q) ;;
          mask <- splitTo1bitShareWrappers length_mask_input ;;
          _ <- assert (sq_bucket_size q =? size kw) ;;
          Ok {| bucket_size := sq_bucket_size q;
                search_keyword := kw;
                length_mask := mask |}) search_queries.

(** [std::find]: the index of the first element equal to [x]. *)
Fixpoint std_find (l : list Z) (x : Z) : option nat :=
  match l with
  | [] => None
  | y :: l' => if y =? x then Some O else option_map S (std_find l' x)
  end.

Definition getMinKeywordLength (bucket_size : Z) (bucket_scheme : list Z) : result Z :=
  match std_find bucket_scheme bucket_size with
  | Some (S i) => Ok (u32 (nth i bucket_scheme 0 + 1))
  | Some O => Ok 1
  | None => Err (invalid_argument "Search keyword has invalid bucket size!")
  end.

(* ================================================================== *)
(** * The blocks of [PrivMailSearch] *)
(* ================================================================== *)

Definition character_bitlen : nat := 6.

(** The range [v.begin(), v.begin() + n). *)
Definition first_n {A} (n : nat) (v : list A) : result (list A) :=
  if (n <=? length v)%nat then Ok (firstn n v) else Err out_of_range.

(** [std::int32_t num_of_positions = text.size() - keyword_length + 1]. *)
Definition positions_of (text_size keyword_length : Z) : Z :=
  i32 (u64 (text_size - keyword_length + 1)).

(** "Chain the results for each keyword and take NOT if needed": the
    statement that closes every branch of every mode. *)
Definition chain_result (j : nat) (modifier_chain_share_input : list ShareWrapper)
    (previous new_search_result : ShareWrapper) : result ShareWrapper :=
  match j with
  | O =>
      m0 <- at_ modifier_chain_share_input 0 ;;
      sw_xor new_search_result m0
  | _ =>
      or_bit <- at_ modifier_chain_share_input (2 * j - 1) ;;
      not_bit <- at_ modifier_chain_share_input (2 * j) ;;
      CreateChainingCircuit previous new_search_result or_bit not_bit
  end.

(** [cols[i].push_back(row[i])] for every [i] below [row.size()]: one step
    of the "zip" loops. *)
Fixpoint push_row {A} (cols : list (list A)) (row : list A) : result (list (list A)) :=
  match row, cols with
  | [], _ => Ok cols
  | x :: row', c :: cols' =>
      rest <- push_row cols' row' ;; Ok ((c ++ [x]) :: rest)
  | _ :: _, [] => Err out_of_range
  end.

(** "Combine the bits (basically a zip operation: [[a,b],[c,d]] to
    [[a,c],[b,d]])", with as many columns as the first row is long. *)
Definition zip_rows {A} (rows : list (list A)) : result (list (list A)) :=
  first <- at_ rows 0 ;;
  foldM push_row rows (repeat [] (length first)).

(** [cols[i].push_back(x)]. *)
Fixpoint push_at {A} (cols : list (list A)) (i : nat) (x : A) : result (list (list A)) :=
  match cols, i with
  | [], _ => Err out_of_range
  | c :: cols', O => Ok ((c ++ [x]) :: cols')
  | c :: cols', S i' => rest <- push_at cols' i' x ;; Ok (c :: rest)
  end.

(** "Combine the bits (basically a zip operation: [a,b,c,d] to
    [[a,c],[b,d]])": element [res_index] goes to column
    [res_index % keyword_size]. *)
Definition unzip_results {A} (keyword_size : nat) (v : list A) : result (list (list A)) :=
  foldM (fun cols '(res_index, x) =>
           match keyword_size with
           | O => Err bad_gate
           | _ => push_at cols (res_index mod keyword_size) x
           end)
        (combine (seq 0 (length v)) v) (repeat [] keyword_size).

(** The body of the loop over the positions of normal mode: the keyword
    against the text at offset [k]. *)
Definition normal_position (search_keyword target_text : list ShareWrapper) (k : nat)
    : result (list ShareWrapper) :=
  chars <- mapM (fun c =>
                   kc <- at_ search_keyword c ;;
                   ks <- first_n character_bitlen (Split kc) ;;
                   tc <- at_ target_text (c + k) ;;
                   ts <- first_n character_bitlen (Split tc) ;;
                   Ok (ks, ts)) (seq 0 (length search_keyword)) ;;
  let splitted_keyword := flat_map fst chars in
  let splitted_text := flat_map snd chars in
  a <- Concatenate splitted_keyword ;;
  b <- Concatenate splitted_text ;;
  ab <- sw_xor a b ;;
  Ok (Split (sw_not ab)).

(** Normal mode, one keyword over one text with at least one position: the
    share [search_result_per_email]. *)
Definition normal_compare (search_keyword target_text : list ShareWrapper)
    (num_of_positions : Z) : result ShareWrapper :=
  xnor_splitted_per_position <-
    mapM (normal_position search_keyword target_text)
         (seq 0 (Z.to_nat num_of_positions)) ;;
  xnor_combined <- zip_rows xnor_splitted_per_position ;;
  xnor_concatenated <- mapM Simdify xnor_combined ;;
  result_bits <- LowDepthReduce xnor_concatenated sw_and ;;
  search_result_per_email <- LowDepthReduce (Split result_bits) sw_or ;;
  _ <- assert (GetBitLength search_result_per_email =? 1) ;;
  Ok search_result_per_email.

(** The body of the loop over the characters [c] of a bucketed keyword at
    one [text_position] of a word: the six XNOR bits and the negated
    length-mask bit. *)
Definition compare_character (kw : query_input) (word : list ShareWrapper)
    (text_position c : nat) : result (list ShareWrapper * ShareWrapper) :=
  if (length word <=? c + text_position)%nat
  then
    let full_zero_split := repeat (sw_not full_zero) character_bitlen in
    m <- at_ (length_mask kw) c ;;
    Ok (full_zero_split, sw_not m)
  else
    kc <- at_ (search_keyword kw) c ;;
    ks <- first_n character_bitlen (Split kc) ;;
    truncated_keyword_character <- Concatenate ks ;;
    tc <- at_ word (c + text_position) ;;
    ts <- first_n character_bitlen (Split tc) ;;
    truncated_text_character <- Concatenate ts ;;
    x <- sw_xor truncated_keyword_character truncated_text_character ;;
    m <- at_ (length_mask kw) c ;;
    Ok (Split (sw_not x), sw_not m).

(** The first pass over one word (hidden, bucket and index mode): what the
    loop over [text_position] appends to [all_xnors] and to
    [all_length_mask_bits]. *)
Definition compare_word (kw : query_input) (word : list ShareWrapper)
    (num_of_positions : Z)
    : result (list (list ShareWrapper) * list ShareWrapper) :=
  per_position <-
    mapM (fun text_position =>
            mapM (compare_character kw word text_position)
                 (seq 0 (length (search_keyword kw))))
         (seq 0 (Z.to_nat num_of_positions)) ;;
  let comparison_results := concat per_position in
  Ok (map fst comparison_results, map snd comparison_results).

(** From [all_xnors] and [all_length_mask_bits] to
    [comparison_results_split] (hidden, bucket and index mode). *)
Definition batch_compare (kw : query_input) (all_xnors : list (list ShareWrapper))
    (all_length_mask_bits : list ShareWrapper) : result (list ShareWrapper) :=
  xor_combined <- zip_rows all_xnors ;;
  xor_simd <- mapM Simdify xor_combined ;;
  result_bits <- LowDepthReduce xor_simd sw_and ;;
  lhs <- Simdify (Split result_bits) ;;
  rhs <- Simdify all_length_mask_bits ;;
  masked <- sw_or lhs rhs ;;
  let result_after_length_mask := Unsimdify masked in
  results_combined <-
    unzip_results (length (search_keyword kw)) result_after_length_mask ;;
  res_concat <- mapM Simdify results_combined ;;
  comparison_res_bits <- LowDepthReduce res_concat sw_and ;;
  Ok (Unsimdify comparison_res_bits).

(* ================================================================== *)
(** * The four modes *)
(* ================================================================== *)

(** [for (i = 0; i < target_texts.size(); i++) search_results[i] = ...]. *)
Definition for_each_target {T} (step : T -> ShareWrapper -> result ShareWrapper)
    (target_texts : list T) (search_results : list ShareWrapper)
    : result (list ShareWrapper) :=
  mapM (fun '(target_text, previous) => step target_text previous)
       (combine target_texts search_results).

(** [for (j = 0; j < search_keywords.size(); j++) ...]. *)
Definition for_each_keyword {K} (round : nat -> K -> list ShareWrapper -> result (list ShareWrapper))
    (search_keywords : list K) (search_results : list ShareWrapper)
    : result (list ShareWrapper) :=
  foldM (fun results '(j, kw) => round j kw results)
        (combine (seq 0 (length search_keywords)) search_keywords) search_results.

(** [search_results.resize(n)]: [n] default-constructed shares. *)
Definition resize (n : nat) : list ShareWrapper := repeat [] n.

(** ** Normal mode *)

Definition normal_target (j : nat) (chain : list ShareWrapper)
    (search_keyword target_text : list ShareWrapper) (previous : ShareWrapper)
    : result ShareWrapper :=
  let num_of_positions := positions_of (size target_text) (size search_keyword) in
  if num_of_positions <? 1
  then chain_result j chain previous full_zero
  else
    search_result_per_email <- normal_compare search_keyword target_text num_of_positions ;;
    chain_result j chain previous search_result_per_email.

(** ** Hidden mode *)

Definition hidden_compare (kw : query_input) (target_text : list ShareWrapper)
    (num_of_positions : Z) : result ShareWrapper :=
  '(all_xnors, all_length_mask_bits) <- compare_word kw target_text num_of_positions ;;
  comparison_results_split <- batch_compare kw all_xnors all_length_mask_bits ;;
  LowDepthReduceSIMD comparison_results_split sw_or.

Definition hidden_target (j : nat) (chain : list ShareWrapper) (kw : query_input)
    (min_keyword_length : Z) (target_text : list ShareWrapper) (previous : ShareWrapper)
    : result ShareWrapper :=
  let num_of_positions := positions_of (size target_text) min_keyword_length in
  if num_of_positions <? 1
  then chain_result j chain previous full_zero
  else
    search_result_per_email <- hidden_compare kw target_text num_of_positions ;;
    chain_result j chain previous search_result_per_email.

(** ** Bucket mode *)

(** The words of one bucket in the first pass. *)
Definition first_pass_words (kw : query_input) (min_keyword_length : Z)
    (ws : list (list ShareWrapper))
    (acc : list (list ShareWrapper) * list ShareWrapper)
    : result (list (list ShareWrapper) * list ShareWrapper) :=
  foldM (fun '(all_xnors, all_length_mask_bits) word =>
           '(xs, ms) <- compare_word kw word
                          (positions_of (size word) min_keyword_length) ;;
           Ok (all_xnors ++ xs, all_length_mask_bits ++ ms)) ws acc.

Definition bucket_first_pass (kw : query_input) (min_keyword_length : Z)
    (target_text : list bucket_input)
    : result (list (list ShareWrapper) * list ShareWrapper) :=
  foldM (fun acc target_bucket =>
           if bi_bucket_size target_bucket <? bucket_size kw then Ok acc
           else first_pass_words kw min_keyword_length (words target_bucket) acc)
        target_text ([], []).

(** The body of the loop over the words of a bucket in the second pass:
    the word takes its positions from [comparison_results_split] at
    [counter]. *)
Definition second_pass_word (min_keyword_length : Z)
    (comparison_results_split : list ShareWrapper)
    (st : list ShareWrapper * nat) (word : list ShareWrapper)
    : result (list ShareWrapper * nat) :=
  let '(search_results_per_word, counter) := st in
  let num_of_positions := positions_of (size word) min_keyword_length in
  search_results_per_position <-
    mapM (at_ comparison_results_split) (seq counter (Z.to_nat num_of_positions)) ;;
  search_result_of_word <- LowDepthReduceSIMD search_results_per_position sw_or ;;
  _ <- assert (GetBitLength search_result_of_word =? 1) ;;
  Ok (search_results_per_word ++ [search_result_of_word],
      (counter + Z.to_nat num_of_positions)%nat).

Definition second_pass_words (min_keyword_length : Z)
    (comparison_results_split : list ShareWrapper)
    (ws : list (list ShareWrapper)) (counter : nat)
    : result (list ShareWrapper * nat) :=
  foldM (second_pass_word min_keyword_length comparison_results_split) ws ([], counter).

(** The body of the loop over the buckets in the second pass. *)
Definition second_pass_bucket (kw : query_input) (min_keyword_length : Z)
    (comparison_results_split : list ShareWrapper)
    (st : list ShareWrapper * nat) (target_bucket : bucket_input)
    : result (list ShareWrapper * nat) :=
  let '(search_results_per_bucket, counter) := st in
  if bi_bucket_size target_bucket <? bucket_size kw
  then Ok (search_results_per_bucket, counter)
  else
    '(search_results_per_word, counter') <-
      second_pass_words min_keyword_length comparison_results_split
                        (words target_bucket) counter ;;
    r <- LowDepthReduceSIMD search_results_per_word sw_or ;;
    Ok (search_results_per_bucket ++ [r], counter').

Definition bucket_second_pass (kw : query_input) (min_keyword_length : Z)
    (comparison_results_split : list ShareWrapper) (target_text : list bucket_input)
    : result (list ShareWrapper) :=
  '(search_results_per_bucket, _) <-
    foldM (second_pass_bucket kw min_keyword_length comparison_results_split)
          target_text ([], O) ;;
  Ok search_results_per_bucket.

(** Bucket mode, one keyword over one mail: [None] when [all_xnors] stays
    empty, else the share [search_result_per_email]. *)
Definition bucket_compare (kw : query_input) (min_keyword_length : Z)
    (target_text : list bucket_input) : result (option ShareWrapper) :=
  '(all_xnors, all_length_mask_bits) <- bucket_first_pass kw min_keyword_length target_text ;;
  if size all_xnors =? 0 then Ok None
  else
    comparison_results_split <- batch_compare kw all_xnors all_length_mask_bits ;;
    search_results_per_bucket <-
      bucket_second_pass kw min_keyword_length comparison_results_split target_text ;;
    r <- LowDepthReduceSIMD search_results_per_bucket sw_or ;;
    Ok (Some r).

Definition bucket_target (j : nat) (chain : list ShareWrapper) (kw : query_input)
    (min_keyword_length : Z) (target_text : list bucket_input) (previous : ShareWrapper)
    : result ShareWrapper :=
  found <- bucket_compare kw min_keyword_length target_text ;;
  match found with
  | None => chain_result j chain previous full_zero
  | Some search_result_per_email => chain_result j chain previous search_result_per_email
  end.

(** ** Index mode *)

(** The body of the loop over the words of a bucket in the first pass of
    index mode: a word of a bucket that is too small gets a zero wire at
    once. *)
Definition index_first_pass_word (kw : query_input) (min_keyword_length : Z)
    (target_bucket : bucket_input)
    (st : list ShareWrapper * (list (list ShareWrapper) * list ShareWrapper))
    (word : list ShareWrapper)
    : result (list ShareWrapper * (list (list ShareWrapper) * list ShareWrapper)) :=
  let '(search_results_per_keyword, (all_xnors, all_length_mask_bits)) := st in
  if bi_bucket_size target_bucket <? bucket_size kw
  then Ok (search_results_per_keyword ++ [full_zero], (all_xnors, all_length_mask_bits))
  else
    '(xs, ms) <- compare_word kw word (positions_of (size word) min_keyword_length) ;;
    Ok (search_results_per_keyword, (all_xnors ++ xs, all_length_mask_bits ++ ms)).

Definition index_first_pass (kw : query_input) (min_keyword_length : Z)
    (buckets : list bucket_input)
    : result (list ShareWrapper * (list (list ShareWrapper) * list ShareWrapper)) :=
  foldM (fun st target_bucket =>
           foldM (index_first_pass_word kw min_keyword_length target_bucket)
                 (words target_bucket) st)
        buckets ([], ([], [])).

(** The body of the loop over the buckets in the second pass of index
    mode. *)
Definition index_second_pass_bucket (kw : query_input) (min_keyword_length : Z)
    (comparison_results_split : list ShareWrapper)
    (st : list ShareWrapper * nat) (target_bucket : bucket_input)
    : result (list ShareWrapper * nat) :=
  let '(search_results_per_keyword, counter) := st in
  if bi_bucket_size target_bucket <? bucket_size kw
  then Ok (search_results_per_keyword, counter)
  else
    '(search_results_per_word, counter') <-
      second_pass_words min_keyword_length comparison_results_split
                        (words target_bucket) counter ;;
    Ok (search_results_per_keyword ++ search_results_per_word, counter').

Definition index_second_pass (kw : query_input) (min_keyword_length : Z)
    (comparison_results_split : list ShareWrapper) (buckets : list bucket_input)
    (search_results_per_keyword : list ShareWrapper)
    : result (list ShareWrapper) :=
  '(search_results_per_keyword, _) <-
    foldM (index_second_pass_bucket kw min_keyword_length comparison_results_split)
          buckets (search_results_per_keyword, O) ;;
  Ok search_results_per_keyword.

(** Index mode, one keyword over the whole index: the vector
    [search_results_per_keyword]. *)
Definition index_compare (kw : query_input) (min_keyword_length : Z)
    (buckets : list bucket_input) : result (list ShareWrapper) :=
  '(zeros, (all_xnors, all_length_mask_bits)) <-
    index_first_pass kw min_keyword_length buckets ;;
  comparison_results_split <- batch_compare kw all_xnors all_length_mask_bits ;;
  index_second_pass kw min_keyword_length comparison_results_split buckets zeros.

Definition index_keyword (chain : list ShareWrapper) (bucket_scheme : list Z)
    (buckets : list bucket_input) (j : nat) (kw : query_input)
    (search_results : list ShareWrapper) : result (list ShareWrapper) :=
  min_keyword_length <- getMinKeywordLength (bucket_size kw) bucket_scheme ;;
  search_results_per_keyword <- index_compare kw min_keyword_length buckets ;;
  _ <- assert (size search_results_per_keyword =? size search_results) ;;
  mapM (fun i =>
          previous <- at_ search_results i ;;
          m <- at_ search_results_per_keyword i ;;
          chain_result j chain previous m)
       (seq 0 (length search_results)).

(* ================================================================== *)
(** * [PrivMailSearch] *)
(* ================================================================== *)

Definition decode_buckets (bs : list bucket_block) : result (list bucket_input) :=
  mapM (fun bucket =>
          ws <- mapM base64StringToInput (bb_words bucket) ;;
          Ok {| bi_bucket_size := bb_bucket_size bucket; words := ws |}) bs.

Definition decode_index (idx : search_index) : result (list bucket_input) :=
  mapM (fun bucket =>
          ws <- mapM (fun word_and_occurrence_string =>
                        base64StringToInput (fst word_and_occurrence_string))
                     (word_and_occurrence_strings bucket) ;;
          Ok {| bi_bucket_size := ib_bucket_size bucket; words := ws |})
       (index_buckets idx).

(** [total_number_words += bucket.word_and_occurrence_strings.size()], a
    [std::uint32_t]. *)
Definition total_number_words (idx : search_index) : Z :=
  fold_left (fun total bucket => u32 (total + size (word_and_occurrence_strings bucket)))
            (index_buckets idx) 0.

(** [assert(modifier_chain_share_input.size() >= 2 * search_keywords.size() - 1)],
    in [std::size_t]. *)
Definition chain_long_enough {K} (chain : list ShareWrapper) (search_keywords : list K) : bool :=
  u64 (2 * size search_keywords - 1) <=? size chain.

Definition PrivMailSearch (search_queries : list search_query)
    (modifier_chain_share : share_string) (mails : list mail_structure)
    (idx : search_index) (bucket_scheme : list Z) (search_mode : search_mode_enum)
    : result (list ShareWrapper) :=
  modifier_chain_input <- base64StringToInput modifier_chain_share ;;
  modifier_chain_share_input <- splitTo1bitShareWrappers modifier_chain_input ;;
  match search_mode with
  | eNormal =>
      search_keywords <-
        mapM (fun q => base64StringToInput (keyword_truncated q)) search_queries ;;
      _ <- assert (chain_long_enough modifier_chain_share_input search_keywords) ;;
      target_texts <-
        mapM (fun mail => base64StringToInput (secret_share_truncated_block mail)) mails ;;
      for_each_keyword
        (fun j search_keyword =>
           for_each_target (normal_target j modifier_chain_share_input search_keyword)
                           target_texts)
        search_keywords (resize (length target_texts))
  | eHidden =>
      search_keywords <- getBucketedKeywordInput search_queries ;;
      _ <- assert (chain_long_enough modifier_chain_share_input search_keywords) ;;
      target_texts <-
        mapM (fun mail => base64StringToInput (secret_share_truncated_block mail)) mails ;;
      for_each_keyword
        (fun j kw search_results =>
           min_keyword_length <- getMinKeywordLength (bucket_size kw) bucket_scheme ;;
           for_each_target (hidden_target j modifier_chain_share_input kw min_keyword_length)
                           target_texts search_results)
        search_keywords (resize (length target_texts))
  | eBucket =>
      search_keywords <- getBucketedKeywordInput search_queries ;;
      _ <- assert (chain_long_enough modifier_chain_share_input search_keywords) ;;
      target_texts <- mapM (fun mail => decode_buckets (buckets mail)) mails ;;
      for_each_keyword
        (fun j kw search_results =>
           min_keyword_length <- getMinKeywordLength (bucket_size kw) bucket_scheme ;;
           for_each_target (bucket_target j modifier_chain_share_input kw min_keyword_length)
                           target_texts search_results)
        search_keywords (resize (length target_texts))
  | eIndex =>
      search_keywords <- getBucketedKeywordInput search_queries ;;
      _ <- assert (chain_long_enough modifier_chain_share_input search_keywords) ;;
      target_buckets <- decode_index idx ;;
      for_each_keyword
        (index_keyword modifier_chain_share_input bucket_scheme target_buckets)
        search_keywords (resize (Z.to_nat (total_number_words idx)))
  | eError => Err (invalid_argument "Invalid Search Mode")
  end.

(* ================================================================== *)
(** * Reference definitions the properties are stated against *)
(* ================================================================== *)

(** The chaining function of the modifier chain on plain bits. *)
Definition CHAIN (r m o n : bool) : bool :=
  xorb (andb (xorb r o) (xorb (xorb m n) o)) o.

(** A character of the Base64 alphabet. *)
Definition is_base64_char (c : ascii) : bool :=
  match find base64_chars c with
  | Some _ => true
  | None => false
  end.

(** The character of a six-bit value. *)
Definition sextet_char (v : Z) : ascii :=
  nth (Z.to_nat v) (list_ascii_of_string base64_chars) pad_char.

(** Base64 encoding (RFC 4648): three bytes give four characters, a last
    group of one or two bytes is padded with '='. *)
Fixpoint base64_encode (bytes : list Z) : list ascii :=
  match bytes with
  | [] => []
  | [a] => [sextet_char (a / 4); sextet_char (a mod 4 * 16); pad_char; pad_char]
  | [a; b] =>
      [sextet_char (a / 4); sextet_char (a mod 4 * 16 + b / 16);
       sextet_char (b mod 16 * 4); pad_char]
  | a :: b :: c :: rest =>
      sextet_char (a / 4) :: sextet_char (a mod 4 * 16 + b / 16)
        :: sextet_char (b mod 16 * 4 + c / 64) :: sextet_char (c mod 64)
        :: base64_encode rest
  end.

(** A canonical Base64 string: groups of four alphabet characters, the last
    group possibly ending in one or two '='. *)
Fixpoint canonical (s : list ascii) : bool :=
  match s with
  | [] => true
  | [c0; c1; c2; c3] =>
      is_base64_char c0 && is_base64_char c1 &&
      ((is_base64_char c2 && (is_base64_char c3 || Ascii.eqb c3 pad_char))
       || (Ascii.eqb c2 pad_char && Ascii.eqb c3 pad_char))
  | c0 :: c1 :: c2 :: c3 :: rest =>
      is_base64_char c0 && is_base64_char c1 && is_base64_char c2 &&
      is_base64_char c3 && canonical rest
  | _ => false
  end.

Definition is_byte (b : Z) : Prop := 0 <= b < 256.

Definition snoc_row {A} (cols : list (list A)) (row : list A) : list (list A) :=
  zip_with (fun c x => c ++ [x]) cols row.

(** The columns of a list of rows of length [n]. *)
Definition columns {A} (d : A) (n : nat) (rows : list (list A)) : list (list A) :=
  map (fun i => map (fun r => nth i r d) rows) (seq 0 n).

Definition unzip_step {A} (keyword_size : nat) (cols : list (list A)) (ix : nat * A)
    : result (list (list A)) :=
  let '(res_index, x) := ix in
  match keyword_size with
  | O => Err bad_gate
  | _ => push_at cols (res_index mod keyword_size) x
  end.

(** A cell of the comparison grid: the XNOR bits of one character at one
    position and its negated length-mask bit. *)
Definition cell := (list bool * bool)%type.

(** "Character matches OR we don't care". *)
Definition cell_ok (c : cell) : bool := forallb id (fst c) || snd c.


(** The bytewise XOR of the parties' byte sequences, defined when they all
    have the length of the first. *)
Definition xor_bytes (shares : list (list Z)) : option (list Z) :=
  match shares with
  | [] => Some []
  | share0 :: shares' =>
      if forallb (fun s => Nat.eqb (length s) (length share0)) shares'
      then Some (fold_left (zip_with Z.lxor) shares' share0)
      else None
  end.

(** The plaintext of a secret-shared field. *)
Definition plaintext (input_string : share_string) : option (list Z) :=
  xor_bytes (map simple_base64_decoder input_string).

Definition same_secret (a b : share_string) : Prop :=
  exists v, plaintext a = Some v /\ plaintext b = Some v.

Definition same_query (q q' : search_query) : Prop :=
  sq_bucket_size q = sq_bucket_size q'
  /\ same_secret (keyword_bucketed q) (keyword_bucketed q')
  /\ same_secret (keyword_length_mask q) (keyword_length_mask q')
  /\ same_secret (keyword_truncated q) (keyword_truncated q').

Definition same_bucket (b b' : bucket_block) : Prop :=
  bb_bucket_size b = bb_bucket_size b' /\ Forall2 same_secret (bb_words b) (bb_words b').

Definition same_mail (m m' : mail_structure) : Prop :=
  same_secret (secret_share_truncated_block m) (secret_share_truncated_block m')
  /\ Forall2 same_bucket (buckets m) (buckets m').

Definition same_index_bucket (b b' : index_bucket) : Prop :=
  ib_bucket_size b = ib_bucket_size b'
  /\ Forall2 (fun w w' => same_secret (fst w) (fst w'))
             (word_and_occurrence_strings b) (word_and_occurrence_strings b').

Definition same_index (i i' : search_index) : Prop :=
  Forall2 same_index_bucket (index_buckets i) (index_buckets i').


(** Two characters agree on the low six bits. *)
Definition char_eq (a b : Z) : bool := Z.land a 63 =? Z.land b 63.

(** The six XNOR bits of two characters. *)
Definition xnor6 (a b : Z) : list bool :=
  map (fun k => negb (xorb (Z.testbit a (Z.of_nat k)) (Z.testbit b (Z.of_nat k))))
      (seq 0 character_bitlen).

(** The cell of keyword character [c] at [text_position] of a word. *)
Definition word_cell (K : list Z) (mask : list bool) (W : list Z)
    (text_position c : nat) : cell :=
  (if (length W <=? c + text_position)%nat
   then repeat true character_bitlen
   else xnor6 (nth c K 0) (nth (c + text_position) W 0),
   negb (nth c mask false)).

(** The grid of a word: a row of cells per position. *)
Definition word_grid (K : list Z) (mask : list bool) (W : list Z)
    (num_of_positions : Z) : list (list cell) :=
  map (fun text_position => map (word_cell K mask W text_position) (seq 0 (length K)))
      (seq 0 (Z.to_nat num_of_positions)).

(** A bucketed keyword given by its characters and its length-mask bits. *)
Definition bucketed (K : list Z) (mask : list bool) : query_input :=
  {| bucket_size := size K;
     search_keyword := map ToInput K;
     length_mask := map bit mask |}.

(** The match of a bucketed keyword on a word (hidden, bucket and index
    mode): some position where every cell is fine. *)
Definition word_match (K : list Z) (mask : list bool) (W : list Z)
    (num_of_positions : Z) : bool :=
  existsb (forallb cell_ok) (word_grid K mask W num_of_positions).

(** The match of hidden mode in plain terms: a keyword of true length [L]
    matches at a position when all its characters that fall inside the text
    agree with the text. *)
Definition hidden_match (K : list Z) (L : nat) (min_keyword_length : Z) (T : list Z) : bool :=
  existsb (fun t =>
             forallb (fun c => (length T <=? c + t)%nat
                               || char_eq (nth c K 0) (nth (c + t) T 0))
                     (seq 0 L))
          (seq 0 (Z.to_nat (size T - min_keyword_length + 1))).

(** The match of normal mode as the specification words it: some offset
    where every character of the keyword agrees with the text. *)
Definition normal_match (K T : list Z) : bool :=
  existsb (fun k =>
             forallb (fun c => char_eq (nth c K 0) (nth (c + k) T 0))
                     (seq 0 (length K)))
          (seq 0 (Z.to_nat (size T - size K + 1))).

(** The first [p] characters of the keyword are the last [p] characters of
    the text. *)
Definition ends_with_prefix (K T : list Z) (p : nat) : bool :=
  (p <=? length T)%nat
  && forallb (fun c => char_eq (nth c K 0) (nth (length T - p + c) T 0)) (seq 0 p).

(** The text ends with a proper prefix of the keyword of true length [L]
    that is at least [min_keyword_length] long. *)
Definition prefix_at_end (K : list Z) (L : nat) (min_keyword_length : Z) (T : list Z) : bool :=
  existsb (ends_with_prefix K T)
          (seq (Z.to_nat min_keyword_length) (L - Z.to_nat min_keyword_length)).

(** A bucket of a mail in plain terms: its size and its words. *)
Definition plain_bucket := (Z * list (list Z))%type.

Definition bucket_of (b : plain_bucket) : bucket_input :=
  {| bi_bucket_size := fst b; words := map (map ToInput) (snd b) |}.

(** The buckets that are searched for a keyword of bucket size [B]. *)
Definition retained (B : Z) (mail : list plain_bucket) : list plain_bucket :=
  filter (fun b => negb (fst b <? B)) mail.

(** The match of bucket mode in plain terms: the OR over the retained
    buckets, over their words, over the positions of each word. *)
Definition bucket_match (K : list Z) (mask : list bool) (min_keyword_length : Z)
    (mail : list plain_bucket) : bool :=
  existsb (fun b =>
             existsb (fun W => word_match K mask W (size W - min_keyword_length + 1))
                     (snd b))
          (retained (size K) mail).

(** What the code requires of the retained buckets: none is empty and every
    word has a position. *)
Definition searchable (K : list Z) (min_keyword_length : Z) (mail : list plain_bucket) : Prop :=
  forall b, In b (retained (size K) mail) ->
    snd b <> [] /\
    forall W, In W (snd b) -> min_keyword_length <= size W < 2 ^ 31.

(** The shares of a grid: [all_xnors] and [all_length_mask_bits]. *)
Definition grid_xnors (G : list (list cell)) : list (list ShareWrapper) :=
  map (fun c : cell => map bit (fst c)) (concat G).
Definition grid_masks (G : list (list cell)) : list ShareWrapper :=
  map (fun c : cell => bit (snd c)) (concat G).

(** The grid of all the words that are searched in a mail. *)
Definition mail_grid (K : list Z) (mask : list bool) (min : Z) (mail : list plain_bucket)
    : list (list cell) :=
  flat_map (fun b => flat_map (fun W => word_grid K mask W (positions_of (size W) min)) (snd b))
           (retained (size K) mail).

(** The per-position results of a word, in the order of
    [comparison_results_split]. *)
Definition word_results (K : list Z) (mask : list bool) (min : Z) (W : list Z) : list bool :=
  map (forallb cell_ok) (word_grid K mask W (positions_of (size W) min)).

(** The result share of a word in the second pass. *)
Definition word_bit (K : list Z) (mask : list bool) (min : Z) (W : list Z) : ShareWrapper :=
  bit (word_match K mask W (positions_of (size W) min)).

(** The result share of a bucket in the second pass. *)
Definition bucket_bit (K : list Z) (mask : list bool) (min : Z) (b : plain_bucket)
    : ShareWrapper :=
  bit (existsb (fun W => word_match K mask W (positions_of (size W) min)) (snd b)).

(** The per-position results of the words of a bucket. *)
Definition bucket_results (K : list Z) (mask : list bool) (min : Z) (b : plain_bucket)
    : list bool :=
  flat_map (word_results K mask min) (snd b).

(** Every retained bucket has a word and every such word a position. *)
Definition has_positions (K : list Z) (min : Z) (mail : list plain_bucket) : Prop :=
  forall b, In b (retained (size K) mail) ->
    snd b <> [] /\ forall W, In W (snd b) -> 1 <= positions_of (size W) min.

(** The buckets of a decoded mail that are searched for a keyword. *)
Definition retained_buckets (kw : query_input) (target_text : list bucket_input)
    : list bucket_input :=
  filter (fun b => negb (bi_bucket_size b <? bucket_size kw)) target_text.

Definition clear (s : string) : share_string := [s].

Definition example_mail (truncated_block : string) (bs : list bucket_block) : mail_structure :=
  {| subject := EmptyString;
     secret_share_block := [];
     secret_share_truncated_block := clear truncated_block;
     buckets := bs |}.

Definition example_query (b : Z) (bucketed_keyword mask truncated : string) : search_query :=
  {| keyword := EmptyString;
     sq_bucket_size := b;
     keyword_bucketed := clear bucketed_keyword;
     keyword_length_mask := clear mask;
     keyword_truncated := clear truncated |}.

Definition example_index (bs : list (Z * list string)) : search_index :=
  {| num_of_emails := 3;
     index_buckets :=
       map (fun b => {| ib_bucket_size := fst b;
                        word_and_occurrence_strings :=
                          map (fun w => (clear w, EmptyString)) (snd b) |}) bs |}.

(** "systems" in bucket 8 with its mask 11111110, "java" in bucket 4 with
    mask 11110000, "world" outside any bucket. *)
Definition query_systems : search_query :=
  example_query 8 "c3lzdGVtcwA=" "/g==" "c3lzdGVtcw==".
Definition query_java : search_query :=
  example_query 4 "amF2YQ==" "8A==" "amF2YQ==".
Definition query_world : search_query :=
  example_query 5 "d29ybGQ=" "+A==" "d29ybGQ=".

(** Base64 of "java", "perl" and of "systems" padded to its bucket. *)
Definition word_java : string := "amF2YQ==".
Definition word_perl : string := "cGVybA==".
Definition word_systems : string := "c3lzdGVtcwA=".

(** The modifier chain 00000000. *)
Definition chain_zero : share_string := clear "AA==".

Definition no_index : search_index := example_index [].

(** Two parties hold the keyword "a" as "b" XOR 0x03 or as "a" XOR 0x00, the
    text "ab" as "ba" XOR 0x0303 or in the clear, the modifier chain 0 as
    0x80 XOR 0x80 or as 0 XOR 0. *)
Definition shared_query (first second : string) : search_query :=
  {| keyword := EmptyString;
     sq_bucket_size := 4;
     keyword_bucketed := [];
     keyword_length_mask := [];
     keyword_truncated := [first; second] |}.

Definition shared_mail (first second : string) : mail_structure :=
  {| subject := EmptyString;
     secret_share_block := [];
     secret_share_truncated_block := [first; second];
     buckets := [] |}.


(** The six low bits of a character, wire 0 first. *)
Definition bits6 (a : Z) : list bool :=
  map (fun k => Z.testbit a (Z.of_nat k)) (seq 0 character_bitlen).

(** The eight bits of a byte, most significant first. *)
Definition msb_first (b : Z) : list bool :=
  map (fun k => Z.testbit b (Z.of_nat k)) (rev (seq 0 8)).

(** The per-position comparison of normal mode in plain terms. *)
Definition normal_lanes (K T : list Z) : list bool :=
  map (fun k => forallb (fun c => char_eq (nth c K 0) (nth (c + k) T 0)) (seq 0 (length K)))
      (seq 0 (Z.to_nat (size T - size K + 1))).

Definition lanes1 (l : list bool) : ShareWrapper := map (fun b => [b]) l.


(** The buckets of an index that are skipped for a keyword of bucket size
    [B]. *)
Definition skipped (B : Z) (idx : list plain_bucket) : list plain_bucket :=
  filter (fun b => fst b <? B) idx.

(** What index mode returns for a keyword: the zero wires of the words of
    the skipped buckets, then the results of the words of the searched
    buckets. *)
Definition index_results_built (K : list Z) (mask : list bool) (min : Z)
    (idx : list plain_bucket) : list ShareWrapper :=
  repeat full_zero (length (flat_map snd (skipped (size K) idx)))
  ++ map (word_bit K mask min) (flat_map snd (retained (size K) idx)).

(** The results in the order of the index: word by word, zero for a word of
    a bucket that is too small. *)
Definition index_results_in_order (K : list Z) (mask : list bool) (min : Z)
    (idx : list plain_bucket) : list ShareWrapper :=
  flat_map (fun b => map (fun W => if fst b <? size K then full_zero
                                   else word_bit K mask min W) (snd b)) idx.

(** Every searched word has a position, and there is a searched word. *)
Definition index_searchable (K : list Z) (min : Z) (idx : list plain_bucket) : Prop :=
  (forall b, In b (retained (size K) idx) ->
             forall W, In W (snd b) -> 1 <= positions_of (size W) min)
  /\ flat_map snd (retained (size K) idx) <> [].

(* ================================================================== *)
(** * [concatenateTo8bitSecureUnsignedIntegers] *)
(* ================================================================== *)

(** The body of the loop over [input]: the state is [output] and [tmp].  A
    [SecureUnsignedInteger] is built from the concatenated share and is
    modelled by that share. *)
Definition concatenate_bit (st : list ShareWrapper * list ShareWrapper)
    (input_bit : ShareWrapper) : result (list ShareWrapper * list ShareWrapper) :=
  let '(output, tmp) := st in
  _ <- assert (GetBitLength input_bit =? 1) ;;
  let tmp := tmp ++ [input_bit] in
  if size tmp =? 8
  then byte <- Concatenate (rev tmp) ;; Ok (output ++ [byte], [])
  else Ok (output, tmp).

(** "At the end, append the last item with zeros and add to the output". *)
Definition concatenateTo8bitSecureUnsignedIntegers (input : list ShareWrapper)
    (full_zero : ShareWrapper) : result (list ShareWrapper) :=
  '(output, tmp) <- foldM concatenate_bit input ([], []) ;;
  match tmp with
  | [] => Ok output
  | _ =>
      let tmp := tmp ++ repeat full_zero (8 - length tmp) in
      byte <- Concatenate (rev tmp) ;; Ok (output ++ [byte])
  end.

(* ================================================================== *)
(** * The search as a whole, on plain values *)
(* ================================================================== *)

(** A bucket scheme as the query files carry it: ascending sizes that fit
    [std::uint32_t], none of them 0. *)
Fixpoint ascending_scheme (bucket_scheme : list Z) : Prop :=
  match bucket_scheme with
  | [] => True
  | b :: larger =>
      1 <= b < 2 ^ 32 /\ Forall (fun b' => b < b') larger /\ ascending_scheme larger
  end.

(** The plaintext of a bucketed query: the bytes of the keyword and the bytes
    of the length mask. *)
Definition query_plain (q : search_query) (K mask_bytes : list Z) : Prop :=
  plaintext (keyword_bucketed q) = Some K
  /\ plaintext (keyword_length_mask q) = Some mask_bytes.

(** The modifier chain [M] applied to the match bits of keyword [j] and of
    the keywords after it, with [r] the result of the keywords before. *)
Fixpoint chain_onto (M : list bool) (j : nat) (r : bool) (matches : list bool) : bool :=
  match matches with
  | [] => r
  | m :: matches' =>
      chain_onto M (S j)
                 (CHAIN r m (nth (2 * j - 1) M false) (nth (2 * j) M false)) matches'
  end.

(** The modifier chain applied to the match bits of all the keywords of a
    query. *)
Definition chained (M : list bool) (matches : list bool) : bool :=
  match matches with
  | [] => false
  | m0 :: matches' => chain_onto M 1 (xorb m0 (nth 0 M false)) matches'
  end.

(** The match of a bucketed keyword [K] with length mask [mask] on a text
    [T]: at some position below [|T| - min_keyword_length + 1], every
    character of the keyword is masked out, lies beyond the end of the text
    or agrees with the text. *)
Definition masked_match (K : list Z) (mask : list bool) (min_keyword_length : Z)
    (T : list Z) : bool :=
  existsb (fun t =>
             forallb (fun c => negb (nth c mask false)
                               || (length T <=? c + t)%nat
                               || char_eq (nth c K 0) (nth (c + t) T 0))
                     (seq 0 (length K)))
          (seq 0 (Z.to_nat (size T - min_keyword_length + 1))).

(** The minimum keyword length of a bucket size of the scheme. *)
Definition min_length (bucket_scheme : list Z) (bucket_size : Z) : Z :=
  match getMinKeywordLength bucket_size bucket_scheme with
  | Ok min_keyword_length => min_keyword_length
  | Err _ => 0
  end.

(** The bits of the length mask of a plain query. *)
Definition mask_bits (p : list Z * list Z) : list bool := flat_map msb_first (snd p).

(** A well-formed bucketed query with keyword and mask bytes [p]: the fields
    hold shares of [p], the bucket size is the number of keyword bytes and
    belongs to the scheme, the keyword is not empty and the mask has a bit
    for each of its characters. *)
Definition bucketed_query (bucket_scheme : list Z) (q : search_query)
    (p : list Z * list Z) : Prop :=
  query_plain q (fst p) (snd p)
  /\ sq_bucket_size q = size (fst p)
  /\ In (size (fst p)) bucket_scheme
  /\ (1 <= length (fst p) <= 8 * length (snd p))%nat.

(** A mail whose truncated block holds shares of the text [T]. *)
Definition mail_text (mail : mail_structure) (T : list Z) : Prop :=
  plaintext (secret_share_truncated_block mail) = Some T /\ size T < 2 ^ 31.

(** A round of [for_each_keyword] that chains, for every target, the match
    bit [m p t] of the keyword of [p] onto the previous result. *)
Definition chained_round {K P T} (enc : P -> K) (m : P -> T -> bool)
    (targets : list T) (bits : list bool)
    (round : nat -> K -> list ShareWrapper -> result (list ShareWrapper))
    (plain : list P) : Prop :=
  forall j p results,
    In p plain -> length results = length targets ->
    round j (enc p) results
    = mapM (fun tp => chain_result j (map bit bits) (snd tp) (bit (m p (fst tp))))
           (combine targets results).

(** A mail whose buckets hold shares of the words of [pm]. *)
Definition mail_buckets (mail : mail_structure) (pm : list plain_bucket) : Prop :=
  Forall2 (fun b pb =>
             bb_bucket_size b = fst pb
             /\ Forall2 (fun w W => plaintext w = Some W) (bb_words b) (snd pb))
          (buckets mail) pm.

(** An index whose buckets hold shares of the words of [pidx]. *)
Definition index_words (idx : search_index) (pidx : list plain_bucket) : Prop :=
  Forall2 (fun b pb =>
             ib_bucket_size b = fst pb
             /\ Forall2 (fun w W => plaintext (fst w) = Some W)
                        (word_and_occurrence_strings b) (snd pb))
          (index_buckets idx) pidx.

(** The indexed words in the order of the index file, each with the size of
    its bucket. *)
Definition indexed_words (pidx : list plain_bucket) : list (Z * list Z) :=
  flat_map (fun b => map (pair (fst b)) (snd b)) pidx.

(** The match of a bucketed keyword on an indexed word: none in a bucket
    smaller than the keyword's. *)
Definition index_match (K : list Z) (mask : list bool) (min_keyword_length : Z)
    (w : Z * list Z) : bool :=
  negb (fst w <? size K) && masked_match K mask min_keyword_length (snd w).

(** The buckets of an index come in ascending order of size. *)
Fixpoint ascending_index (pidx : list plain_bucket) : Prop :=
  match pidx with
  | [] => True
  | b :: later => Forall (fun b' => fst b <= fst b') later /\ ascending_index later
  end.

(** What index mode requires of the index for a keyword: some word lies in
    a bucket at least as large as the keyword's, and every such word is at
    least [min_keyword_length] long. *)
Definition index_words_searchable (K : list Z) (min_keyword_length : Z)
    (pidx : list plain_bucket) : Prop :=
  (forall b, In b (retained (size K) pidx) ->
             forall W, In W (snd b) -> min_keyword_length <= size W < 2 ^ 31)
  /\ flat_map snd (retained (size K) pidx) <> [].

(** A computation that raises [std::invalid_argument] only with a message
    for which [P] holds. *)
Definition raises_only {A} (P : string -> Prop) (r : result A) : Prop :=
  forall what, r = Err (invalid_argument what) -> P what.

(* ================================================================== *)
(** * The driver: [privmail_main.cpp] *)
(* ================================================================== *)

Definition GetSearchMode (in_string : string) : search_mode_enum :=
  if String.eqb in_string "normal" then eNormal
  else if String.eqb in_string "hidden" then eHidden
  else if String.eqb in_string "bucket" then eBucket
  else if String.eqb in_string "index" then eIndex
  else eError.

(** The structures of [privmail.h] in the process of one party, as the
    loaders fill them: a secret-shared field holds the Base64 string of the
    share of that party.  (The model of the engine above keeps the strings
    of all the parties of such a field together.) *)
Module party.

Record search_query : Type := {
  keyword : string;
  bucket_size : Z;
  keyword_bucketed : string;
  keyword_length_mask : string;
  keyword_truncated : string
}.

Record bucket_block : Type := {
  bb_bucket_size : Z;
  words : list string
}.

Record mail_structure : Type := {
  subject : string;
  secret_share_block : string;
  secret_share_truncated_block : string;
  buckets : list bucket_block
}.

Record index_bucket : Type := {
  ib_bucket_size : Z;
  word_and_occurrence_strings : list (string * string)
}.

Record search_index : Type := {
  num_of_emails : Z;
  index_buckets : list index_bucket
}.

End party.

(** What stops a loader: an exception of yaml-cpp (a key that is missing, a
    value that does not convert), or a write past the end of a vector. *)
Inductive loader_exn : Type :=
| yaml_exception
| past_the_end.

Inductive outcome (A : Type) : Type :=
| Done (a : A)
| Thrown (e : loader_exn).
Arguments Done {A} a.
Arguments Thrown {A} e.

Definition and_then {A B} (m : outcome A) (f : A -> outcome B) : outcome B :=
  match m with
  | Done a => f a
  | Thrown e => Thrown e
  end.

Notation "x <~ m ;; k" := (and_then m (fun x => k))
  (at level 61, m at next level, right associativity).

(** A loop over a container with the loop state [s]. *)
Fixpoint for_each {A S} (f : S -> A -> outcome S) (l : list A) (s : S) : outcome S :=
  match l with
  | [] => Done s
  | a :: l' => s' <~ f s a ;; for_each f l' s'
  end.

(** ** [SearchQueriesFromFile] *)

(** An entry of the list [keywords] of a query file as yaml-cpp presents it
    to the loader: its [size()] and, for each key that the loader reads,
    what the conversion [as<...>()] of its value gives. *)
Record query_from_file : Type := {
  qf_size : Z;
  qf_keyword : outcome string;
  qf_keyword_bucket_size : outcome Z;
  qf_keyword_bucketed : outcome string;
  qf_keyword_length_mask : outcome string;
  qf_keyword_truncated : outcome string
}.

Definition SearchQueriesFromFile (keywords : list query_from_file)
    : outcome (list party.search_query) :=
  for_each (fun search_queries query_from_file =>
              if qf_size query_from_file =? 1
              then Done search_queries
              else
                keyword <~ qf_keyword query_from_file ;;
                bucket_size <~ qf_keyword_bucket_size query_from_file ;;
                keyword_bucketed <~ qf_keyword_bucketed query_from_file ;;
                keyword_length_mask <~ qf_keyword_length_mask query_from_file ;;
                keyword_truncated <~ qf_keyword_truncated query_from_file ;;
                Done (search_queries
                        ++ [{| party.keyword := keyword;
                               party.bucket_size := bucket_size;
                               party.keyword_bucketed := keyword_bucketed;
                               party.keyword_length_mask := keyword_length_mask;
                               party.keyword_truncated := keyword_truncated |}]))
           keywords [].

(** ** [MailsFromDirectory] *)

(** A file of the mail directory as yaml-cpp presents it to the loader: what
    the conversion of the value of each key gives, and for a bucket size
    whether the node [secret_share_bucket_blocks][bucket_size] is defined
    and what its conversion to a vector of strings gives. *)
Record mail_yaml_file : Type := {
  yaml_sequence_number : outcome Z;
  yaml_subject : outcome string;
  yaml_secret_share_block : outcome string;
  yaml_secret_share_truncated_block : outcome string;
  yaml_secret_share_bucket_blocks : Z -> option (outcome (list string))
}.

(** The first loop over the directory: "Update the maximum sequence
    number". *)
Definition max_sequence_number (directory : list mail_yaml_file) : outcome Z :=
  for_each (fun max_seq_number mail_yaml_file =>
              sequence_number <~ yaml_sequence_number mail_yaml_file ;;
              if sequence_number >? max_seq_number
              then yaml_sequence_number mail_yaml_file
              else Done max_seq_number)
           directory 0.

(** The loop over the bucket scheme for one file. *)
Definition read_buckets (bucket_scheme : list Z) (mail_yaml_file : mail_yaml_file)
    : outcome (list party.bucket_block) :=
  for_each (fun buckets bucket_size =>
              match yaml_secret_share_bucket_blocks mail_yaml_file bucket_size with
              | Some block =>
                  words <~ block ;;
                  Done (buckets ++ [{| party.bb_bucket_size := bucket_size;
                                       party.words := words |}])
              | None => Done buckets
              end)
           bucket_scheme [].

(** A default-constructed [mail_structure]. *)
Definition empty_mail : party.mail_structure :=
  {| party.subject := EmptyString;
     party.secret_share_block := EmptyString;
     party.secret_share_truncated_block := EmptyString;
     party.buckets := [] |}.

(** [v[i] = a] on a [std::vector]. *)
Definition store {A} (v : list A) (i : Z) (a : A) : outcome (list A) :=
  if (0 <=? i) && (i <? size v)
  then Done (firstn (Z.to_nat i) v ++ a :: skipn (S (Z.to_nat i)) v)
  else Thrown past_the_end.

Definition MailsFromDirectory (directory : list mail_yaml_file) (bucket_scheme : list Z)
    : outcome (list party.mail_structure) :=
  max_seq_number <~ max_sequence_number directory ;;
  for_each (fun mails mail_yaml_file =>
              sequence_number <~ yaml_sequence_number mail_yaml_file ;;
              subject <~ yaml_subject mail_yaml_file ;;
              secret_share_block <~ yaml_secret_share_block mail_yaml_file ;;
              secret_share_truncated_block <~
                yaml_secret_share_truncated_block mail_yaml_file ;;
              buckets <~ read_buckets bucket_scheme mail_yaml_file ;;
              store mails sequence_number
                    {| party.subject := subject;
                       party.secret_share_block := secret_share_block;
                       party.secret_share_truncated_block := secret_share_truncated_block;
                       party.buckets := buckets |})
           directory (repeat empty_mail (Z.to_nat (u32 (max_seq_number + 1)))).

(** ** [IndexFromFile] *)

(** An index file as yaml-cpp presents it to the loader: the conversion of
    [num_of_emails], and the entries of [INDEX_BUCKETS] in the order of the
    file, each with the conversion of its key and the dictionaries of its
    list, a dictionary being the conversions of its keys and values. *)
Record index_yaml_file : Type := {
  yaml_num_of_emails : outcome Z;
  yaml_INDEX_BUCKETS : list (outcome Z * list (list (outcome string * outcome string)))
}.

(** The loop over the items of one dictionary of a bucket. *)
Definition read_items (bucket_item_dict : list (outcome string * outcome string))
    (word_and_occurrence_strings : list (string * string))
    : outcome (list (string * string)) :=
  for_each (fun words bucket_item =>
              word <~ fst bucket_item ;;
              occurrence_string <~ snd bucket_item ;;
              Done (words ++ [(word, occurrence_string)]))
           bucket_item_dict word_and_occurrence_strings.

Definition IndexFromFile (index_yaml_file : index_yaml_file)
    : outcome party.search_index :=
  num_of_emails <~ yaml_num_of_emails index_yaml_file ;;
  index_buckets <~
    for_each (fun index_buckets bucket =>
                bucket_size <~ fst bucket ;;
                words <~ for_each (fun words bucket_item_dict =>
                                     read_items bucket_item_dict words)
                                  (snd bucket) [] ;;
                Done (index_buckets
                        ++ [{| party.ib_bucket_size := bucket_size;
                               party.word_and_occurrence_strings := words |}]))
             (yaml_INDEX_BUCKETS index_yaml_file) [] ;;
  Done {| party.num_of_emails := num_of_emails;
          party.index_buckets := index_buckets |}.

(** ** The counters of the statistics in [main] *)

(** [keyword_characters += GetCharacterLengthFromBase64(query.keyword_truncated)]
    for every query, in [std::uint32_t]. *)
Definition keyword_characters (search_queries : list party.search_query) : Z :=
  fold_left (fun total query =>
               u32 (total + GetCharacterLengthFromBase64 (party.keyword_truncated query)))
            search_queries 0.

(** [keyword_buckets += query.bucket_size]. *)
Definition keyword_buckets (search_queries : list party.search_query) : Z :=
  fold_left (fun total query => u32 (total + party.bucket_size query)) search_queries 0.

(** [email_characters +=
    GetCharacterLengthFromBase64(mail.secret_share_truncated_block)]. *)
Definition email_characters (mails : list party.mail_structure) : Z :=
  fold_left (fun total mail =>
               u32 (total + GetCharacterLengthFromBase64
                              (party.secret_share_truncated_block mail)))
            mails 0.

(** ** Reference definitions for the loaders *)

(** An entry of [keywords] all of whose keys convert, giving the fields of
    [q]. *)
Definition complete_entry (e : query_from_file) (q : party.search_query) : Prop :=
  qf_keyword e = Done (party.keyword q)
  /\ qf_keyword_bucket_size e = Done (party.bucket_size q)
  /\ qf_keyword_bucketed e = Done (party.keyword_bucketed q)
  /\ qf_keyword_length_mask e = Done (party.keyword_length_mask q)
  /\ qf_keyword_truncated e = Done (party.keyword_truncated q).

(** The content of a mail file all of whose keys convert. *)
Record mail_file : Type := {
  sequence_number : Z;
  mf_subject : string;
  mf_secret_share_block : string;
  mf_secret_share_truncated_block : string;
  mf_secret_share_bucket_blocks : Z -> option (list string)
}.

Definition yaml_of (f : mail_file) : mail_yaml_file :=
  {| yaml_sequence_number := Done (sequence_number f);
     yaml_subject := Done (mf_subject f);
     yaml_secret_share_block := Done (mf_secret_share_block f);
     yaml_secret_share_truncated_block := Done (mf_secret_share_truncated_block f);
     yaml_secret_share_bucket_blocks :=
       fun bucket_size => option_map Done (mf_secret_share_bucket_blocks f bucket_size) |}.

(** The mail of a file: its buckets are the bucket sizes of the scheme that
    the file has, in the order of the scheme. *)
Definition mail_of (bucket_scheme : list Z) (f : mail_file) : party.mail_structure :=
  {| party.subject := mf_subject f;
     party.secret_share_block := mf_secret_share_block f;
     party.secret_share_truncated_block := mf_secret_share_truncated_block f;
     party.buckets :=
       flat_map (fun bucket_size =>
                   match mf_secret_share_bucket_blocks f bucket_size with
                   | Some words => [{| party.bb_bucket_size := bucket_size;
                                       party.words := words |}]
                   | None => []
                   end) bucket_scheme |}.

Definition greatest_sequence_number (files : list mail_file) : Z :=
  fold_right Z.max 0 (map sequence_number files).

(** The mail at index [i]: that of the last file of the directory with this
    sequence number, an empty mail when there is none. *)
Definition mail_at (bucket_scheme : list Z) (files : list mail_file) (i : nat)
    : party.mail_structure :=
  match List.find (fun f => sequence_number f =? Z.of_nat i) (rev files) with
  | Some f => mail_of bucket_scheme f
  | None => empty_mail
  end.

(** A Base64 field in canonical form whose length fits the count. *)
Definition well_encoded (s : string) : Prop :=
  canonical (list_ascii_of_string s) = true
  /\ 3 * (Z.of_nat (String.length s) / 4) < 2 ^ 32.

Definition total (l : list Z) : Z := fold_right Z.add 0 l.

(** The content of an index file all of whose keys and values convert: the
    number of mails and the buckets, each a size and a list of dictionaries
    from words to occurrence strings. *)
Definition index_file : Type := (Z * list (Z * list (list (string * string))))%type.

Definition yaml_of_index (f : index_file) : index_yaml_file :=
  {| yaml_num_of_emails := Done (fst f);
     yaml_INDEX_BUCKETS :=
       map (fun bucket =>
              (Done (fst bucket),
               map (map (fun item => (Done (fst item), Done (snd item)))) (snd bucket)))
           (snd f) |}.

(* ================================================================== *)
(** * The modifier chain *)
(* ================================================================== *)

(** C3.  On single-bit values [r] (previous result), [m] (new match), [o]
    (OR bit) and [n] (NOT bit) the chaining circuit computes
    [((r XOR o) AND ((m XOR n) XOR o)) XOR o]; this function is [r AND m]
    for [o = 0, n = 0], [r AND NOT m] for [o = 0, n = 1], [r OR m] for
    [o = 1, n = 0] and [r OR NOT m] for [o = 1, n = 1]. *)
Theorem CreateChainingCircuit_spec :
  forall r m o n : bool,
    CreateChainingCircuit (bit r) (bit m) (bit o) (bit n) = Ok (bit (CHAIN r m o n))
    /\ CHAIN r m o n = xorb (andb (xorb r o) (xorb (xorb m n) o)) o
    /\ CHAIN r m false false = andb r m
    /\ CHAIN r m false true = andb r (negb m)
    /\ CHAIN r m true false = orb r m
    /\ CHAIN r m true true = orb r (negb m).
Proof.
  intros r m o n.
  split; [reflexivity|].
  split; [reflexivity|].
  repeat split; destruct r, m; reflexivity.
Qed.

(* ================================================================== *)
(** * The Base64 decoder *)
(* ================================================================== *)

Lemma u32_step_mod4 cnt k :
  cnt mod 4 = k -> u32 (cnt + 1) mod 4 = (k + 1) mod 4.
Proof.
  intros <-. unfold u32.
  change (2 ^ 32) with 4294967296.
  Z.div_mod_to_equations. lia.
Qed.

Lemma decoder_loop_valid c v data dec bs cnt :
  find base64_chars c = Some v ->
  decoder_loop (c :: data) dec bs cnt =
    match cnt mod 4 with
    | 0 => decoder_loop data dec (u32 (bs + Z.shiftl v 18)) (u32 (cnt + 1))
    | 1 => let bs' := u32 (bs + Z.shiftl v 12) in
           decoder_loop data (dec ++ [Z.land (Z.shiftr bs' 16) 255]) bs' (u32 (cnt + 1))
    | 2 => let bs' := u32 (bs + Z.shiftl v 6) in
           decoder_loop data (dec ++ [Z.land (Z.shiftr bs' 8) 255]) bs' (u32 (cnt + 1))
    | _ => let bs' := u32 (bs + Z.shiftl v 0) in
           decoder_loop data (dec ++ [Z.land bs' 255]) 0 (u32 (cnt + 1))
    end.
Proof.
  intros Hv. cbn [decoder_loop]. rewrite Hv.
  assert (Hk : 0 <= cnt mod 4 < 4) by (apply Z.mod_pos_bound; lia).
  assert (Hc : cnt mod 4 = 0 \/ cnt mod 4 = 1 \/ cnt mod 4 = 2 \/ cnt mod 4 = 3) by lia.
  destruct Hc as [-> | [-> | [-> | ->]]]; reflexivity.
Qed.

Lemma decoder_loop_pad data dec bs cnt :
  decoder_loop (pad_char :: data) dec bs cnt = decoder_loop data dec bs (u32 (cnt + 1)).
Proof. reflexivity. Qed.

Lemma decoder_loop_invalid c data dec bs cnt :
  find base64_chars c = None -> Ascii.eqb c pad_char = false ->
  decoder_loop (c :: data) dec bs cnt = [].
Proof. intros H1 H2. cbn [decoder_loop]. rewrite H1, H2. reflexivity. Qed.

Lemma decoder_loop_rejects data :
  forall dec bs cnt,
    (exists c, In c data /\ is_base64_char c = false /\ Ascii.eqb c pad_char = false) ->
    decoder_loop data dec bs cnt = [].
Proof.
  induction data as [|x data IH]; intros dec bs cnt [c [Hin [Hc Hp]]].
  - destruct Hin.
  - destruct Hin as [-> | Hin].
    + apply decoder_loop_invalid; [|exact Hp].
      unfold is_base64_char in Hc. destruct (find base64_chars c); [discriminate|reflexivity].
    + assert (Hex : exists c, In c data /\ is_base64_char c = false /\ Ascii.eqb c pad_char = false)
        by (exists c; auto).
      destruct (find base64_chars x) as [v|] eqn:Hx.
      * rewrite (decoder_loop_valid _ _ _ _ _ _ Hx).
        destruct (cnt mod 4) as [|[p|p|]|]; cbv zeta; try apply IH; try exact Hex.
        all: destruct p; apply IH; exact Hex.
      * destruct (Ascii.eqb x pad_char) eqn:Hxp.
        -- apply Ascii.eqb_eq in Hxp. subst x. rewrite decoder_loop_pad. apply IH, Hex.
        -- apply decoder_loop_invalid; assumption.
Qed.

Lemma find_sextet_char v :
  0 <= v < 64 -> find base64_chars (sextet_char v) = Some v.
Proof.
  intros Hv.
  assert (H : forallb (fun n => match find base64_chars (sextet_char (Z.of_nat n)) with
                                | Some w => w =? Z.of_nat n
                                | None => false
                                end) (seq 0 64) = true) by (vm_compute; reflexivity).
  rewrite forallb_forall in H.
  specialize (H (Z.to_nat v)).
  rewrite Z2Nat.id in H by lia.
  assert (Hin : In (Z.to_nat v) (seq 0 64)) by (apply in_seq; lia).
  specialize (H Hin).
  destruct (find base64_chars (sextet_char v)) as [w|]; [|discriminate].
  apply Z.eqb_eq in H. congruence.
Qed.

Lemma find_range c v : find base64_chars c = Some v -> 0 <= v < 64.
Proof.
  unfold find.
  assert (G : forall s i, find_from s c i = Some v -> i <= v < i + Z.of_nat (length s)).
  { induction s as [|x s IH]; intros i H; cbn in H; [discriminate|].
    destruct (Ascii.eqb x c).
    - inversion H; subst. cbn [length]. lia.
    - apply IH in H. cbn [length]. lia. }
  intros H. apply G in H. cbn in H. lia.
Qed.

Lemma first_byte a b :
  is_byte a -> is_byte b ->
  let bs := u32 (u32 (0 + Z.shiftl (a / 4) 18) + Z.shiftl (a mod 4 * 16 + b / 16) 12) in
  bs = a * 65536 + (b / 16) * 4096 /\ Z.land (Z.shiftr bs 16) 255 = a.
Proof.
  unfold is_byte, u32. intros Ha Hb.
  rewrite !Z.shiftl_mul_pow2 by lia.
  change 255 with (Z.ones 8).
  cbv zeta. rewrite Z.land_ones, Z.shiftr_div_pow2 by lia.
  change (2 ^ 32) with 4294967296. change (2 ^ 18) with 262144.
  change (2 ^ 12) with 4096. change (2 ^ 16) with 65536. change (2 ^ 8) with 256.
  Z.div_mod_to_equations. lia.
Qed.

Lemma second_byte a b c :
  is_byte a -> is_byte b -> is_byte c ->
  let bs := u32 (a * 65536 + (b / 16) * 4096 + Z.shiftl (b mod 16 * 4 + c / 64) 6) in
  bs = a * 65536 + b * 256 + (c / 64) * 64 /\ Z.land (Z.shiftr bs 8) 255 = b.
Proof.
  unfold is_byte, u32. intros Ha Hb Hc.
  rewrite !Z.shiftl_mul_pow2 by lia.
  change 255 with (Z.ones 8).
  cbv zeta. rewrite Z.land_ones, Z.shiftr_div_pow2 by lia.
  change (2 ^ 32) with 4294967296. change (2 ^ 6) with 64. change (2 ^ 8) with 256.
  Z.div_mod_to_equations. lia.
Qed.

Lemma third_byte a b c :
  is_byte a -> is_byte b -> is_byte c ->
  Z.land (u32 (a * 65536 + b * 256 + (c / 64) * 64 + Z.shiftl (c mod 64) 0)) 255 = c.
Proof.
  unfold is_byte, u32. intros Ha Hb Hc.
  rewrite Z.shiftl_0_r.
  change 255 with (Z.ones 8). rewrite Z.land_ones by lia.
  change (2 ^ 32) with 4294967296. change (2 ^ 8) with 256.
  Z.div_mod_to_equations. lia.
Qed.



Lemma sextets_of_bytes a b c :
  is_byte a -> is_byte b -> is_byte c ->
  0 <= a / 4 < 64 /\ 0 <= a mod 4 * 16 + b / 16 < 64 /\
  0 <= b mod 16 * 4 + c / 64 < 64 /\ 0 <= c mod 64 < 64.
Proof. unfold is_byte. intros. Z.div_mod_to_equations. lia. Qed.

Lemma decoder_loop_encode n :
  forall bytes dec cnt,
    (length bytes <= n)%nat -> Forall is_byte bytes -> cnt mod 4 = 0 ->
    decoder_loop (base64_encode bytes) dec 0 cnt = dec ++ bytes.
Proof.
  induction n as [n IH] using lt_wf_ind.
  intros bytes dec cnt Hlen Hb H0.
  pose proof (u32_step_mod4 _ _ H0) as H1. change ((0 + 1) mod 4) with 1 in H1.
  pose proof (u32_step_mod4 _ _ H1) as H2. change ((1 + 1) mod 4) with 2 in H2.
  pose proof (u32_step_mod4 _ _ H2) as H3. change ((2 + 1) mod 4) with 3 in H3.
  pose proof (u32_step_mod4 _ _ H3) as H4. change ((3 + 1) mod 4) with 0 in H4.
  assert (Hz : is_byte 0) by (unfold is_byte; lia).
  destruct bytes as [|a [|b [|c rest]]].
  - cbn. now rewrite app_nil_r.
  - inversion Hb as [|? ? Ha _]; subst.
    destruct (sextets_of_bytes a 0 0 Ha Hz Hz) as [R0 [R1 _]].
    cbn [base64_encode].
    rewrite (decoder_loop_valid _ _ _ _ _ _ (find_sextet_char _ R0)), H0.
    replace (a mod 4 * 16) with (a mod 4 * 16 + 0 / 16) by (cbn; lia).
    rewrite (decoder_loop_valid _ _ _ _ _ _ (find_sextet_char _ R1)), H1.
    cbv zeta.
    destruct (first_byte a 0 Ha Hz) as [_ E]. cbv zeta in E. rewrite E.
    rewrite !decoder_loop_pad. reflexivity.
  - inversion Hb as [|? ? Ha Hb']; subst. inversion Hb' as [|? ? Hbb _]; subst.
    destruct (sextets_of_bytes a b 0 Ha Hbb Hz) as [R0 [R1 [R2 _]]].
    cbn [base64_encode].
    rewrite (decoder_loop_valid _ _ _ _ _ _ (find_sextet_char _ R0)), H0.
    rewrite (decoder_loop_valid _ _ _ _ _ _ (find_sextet_char _ R1)), H1.
    cbv zeta.
    destruct (first_byte a b Ha Hbb) as [E0 E]. cbv zeta in E0, E. rewrite E, E0.
    replace (b mod 16 * 4) with (b mod 16 * 4 + 0 / 64) by (cbn; lia).
    rewrite (decoder_loop_valid _ _ _ _ _ _ (find_sextet_char _ R2)), H2.
    cbv zeta.
    destruct (second_byte a b 0 Ha Hbb Hz) as [_ E1]. cbv zeta in E1. rewrite E1.
    rewrite decoder_loop_pad. cbn [decoder_loop]. rewrite <- !app_assoc. reflexivity.
  - inversion Hb as [|? ? Ha Hb']; subst. inversion Hb' as [|? ? Hbb Hb'']; subst.
    inversion Hb'' as [|? ? Hc Hrest]; subst.
    destruct (sextets_of_bytes a b c Ha Hbb Hc) as [R0 [R1 [R2 R3]]].
    cbn [base64_encode].
    rewrite (decoder_loop_valid _ _ _ _ _ _ (find_sextet_char _ R0)), H0.
    rewrite (decoder_loop_valid _ _ _ _ _ _ (find_sextet_char _ R1)), H1.
    cbv zeta.
    destruct (first_byte a b Ha Hbb) as [E0 E]. cbv zeta in E0, E. rewrite E, E0.
    rewrite (decoder_loop_valid _ _ _ _ _ _ (find_sextet_char _ R2)), H2.
    cbv zeta.
    destruct (second_byte a b c Ha Hbb Hc) as [E1 E2]. cbv zeta in E1, E2. rewrite E2, E1.
    rewrite (decoder_loop_valid _ _ _ _ _ _ (find_sextet_char _ R3)), H3.
    cbv zeta. rewrite (third_byte a b c Ha Hbb Hc).
    cbn [length] in Hlen.
    rewrite (IH (length rest)) by (auto; lia).
    rewrite <- !app_assoc. reflexivity.
Qed.

Lemma is_base64_char_find c :
  is_base64_char c = true -> exists v, find base64_chars c = Some v.
Proof.
  unfold is_base64_char. destruct (find base64_chars c) as [v|]; [eauto|discriminate].
Qed.

Lemma is_base64_char_not_pad c :
  is_base64_char c = true -> Ascii.eqb pad_char c = false.
Proof.
  intros H. destruct (Ascii.eqb pad_char c) eqn:E; [|reflexivity].
  apply Ascii.eqb_eq in E. subst c. discriminate H.
Qed.

Lemma count_cons c s :
  count (c :: s) pad_char = (if Ascii.eqb pad_char c then 1 else 0) + count s pad_char.
Proof.
  unfold count, size. cbn [filter]. destruct (Ascii.eqb pad_char c); cbn [length]; lia.
Qed.

Lemma size_cons {A} (a : A) l : size (a :: l) = 1 + size l.
Proof. unfold size. cbn [length]. lia. Qed.

Lemma size_app {A} (l l' : list A) : size (l ++ l') = size l + size l'.
Proof. unfold size. rewrite length_app. lia. Qed.

Lemma decoder_loop_length n :
  forall s dec bs cnt,
    (length s <= n)%nat -> canonical s = true -> cnt mod 4 = 0 ->
    size (decoder_loop s dec bs cnt) = size dec + 3 * (size s / 4) - count s pad_char.
Proof.
  induction n as [n IH] using lt_wf_ind.
  intros s dec bs cnt Hlen Hcan H0.
  pose proof (u32_step_mod4 _ _ H0) as H1. change ((0 + 1) mod 4) with 1 in H1.
  pose proof (u32_step_mod4 _ _ H1) as H2. change ((1 + 1) mod 4) with 2 in H2.
  pose proof (u32_step_mod4 _ _ H2) as H3. change ((2 + 1) mod 4) with 3 in H3.
  pose proof (u32_step_mod4 _ _ H3) as H4. change ((3 + 1) mod 4) with 0 in H4.
  destruct s as [|c0 [|c1 [|c2 [|c3 rest]]]]; try discriminate Hcan.
  - cbn. unfold count, size. cbn. lia.
  - assert (Hq : size (c0 :: c1 :: c2 :: c3 :: rest) / 4 = 1 + size rest / 4).
    { rewrite !size_cons. replace (1 + (1 + (1 + (1 + size rest)))) with (size rest + 1 * 4) by lia.
      rewrite Z.div_add by lia. lia. }
    rewrite Hq, !count_cons.
    assert (Hhead : is_base64_char c0 = true /\ is_base64_char c1 = true).
    { destruct rest; cbn [canonical] in Hcan;
        repeat (apply andb_true_iff in Hcan; destruct Hcan as [Hcan ?]); auto. }
    destruct Hhead as [B0 B1].
    destruct (is_base64_char_find _ B0) as [v0 F0].
    destruct (is_base64_char_find _ B1) as [v1 F1].
    rewrite (is_base64_char_not_pad _ B0), (is_base64_char_not_pad _ B1).
    rewrite (decoder_loop_valid _ _ _ _ _ _ F0), H0.
    rewrite (decoder_loop_valid _ _ _ _ _ _ F1), H1. cbv zeta.
    destruct (is_base64_char c2) eqn:B2.
    + destruct (is_base64_char_find _ B2) as [v2 F2].
      rewrite (is_base64_char_not_pad _ B2).
      rewrite (decoder_loop_valid _ _ _ _ _ _ F2), H2. cbv zeta.
      destruct (is_base64_char c3) eqn:B3.
      * destruct (is_base64_char_find _ B3) as [v3 F3].
        rewrite (is_base64_char_not_pad _ B3).
        rewrite (decoder_loop_valid _ _ _ _ _ _ F3), H3. cbv zeta.
        cbn [length] in Hlen.
        rewrite (IH (length rest)); auto; try lia.
        -- rewrite !size_app. unfold size. cbn [length]. lia.
        -- destruct rest; [reflexivity|]. cbn [canonical] in Hcan.
           rewrite B0, B1, B2, B3 in Hcan. exact Hcan.
      * destruct rest.
        2:{ cbn [canonical] in Hcan. rewrite B0, B1, B2, B3 in Hcan. discriminate. }
        cbn [canonical] in Hcan. rewrite B0, B1, B2, B3 in Hcan. cbn in Hcan.
        assert (E3 : Ascii.eqb c3 pad_char = true).
        { apply orb_true_iff in Hcan. destruct Hcan as [E|E]; [exact E|].
          apply andb_true_iff in E. apply E. }
        apply Ascii.eqb_eq in E3. subst c3.
        rewrite decoder_loop_pad. cbn [decoder_loop].
        rewrite !size_app. unfold size, count. cbn. lia.
    + destruct rest.
      2:{ cbn [canonical] in Hcan. rewrite B0, B1, B2 in Hcan. discriminate. }
      cbn [canonical] in Hcan. rewrite B0, B1, B2 in Hcan. cbn in Hcan.
      apply andb_true_iff in Hcan. destruct Hcan as [E2 E3].
      apply Ascii.eqb_eq in E2, E3. subst c2 c3.
      rewrite !decoder_loop_pad. cbn [decoder_loop].
      rewrite !size_app. unfold size, count. cbn. lia.
Qed.

(** C9.  The share decoder decodes Base64 byte for byte, '=' padding at the
    end included: the encoding of any byte sequence decodes to that
    sequence.  A string that holds a byte that is neither a character of the
    Base64 alphabet nor '=' decodes to the empty sequence. *)
Theorem simple_base64_decoder_spec :
  (forall bytes : list Z,
      Forall is_byte bytes ->
      simple_base64_decoder (string_of_list_ascii (base64_encode bytes)) = bytes)
  /\ (forall (data : string) (c : ascii),
         In c (list_ascii_of_string data) ->
         is_base64_char c = false -> c <> pad_char ->
         simple_base64_decoder data = []).
Proof.
  split.
  - intros bytes Hb. unfold simple_base64_decoder.
    rewrite list_ascii_of_string_of_list_ascii.
    apply (decoder_loop_encode (length bytes)); auto.
  - intros data c Hin Hc Hp. unfold simple_base64_decoder.
    apply decoder_loop_rejects. exists c. repeat split; auto.
    destruct (Ascii.eqb c pad_char) eqn:E; [|reflexivity].
    apply Ascii.eqb_eq in E. contradiction.
Qed.

Lemma simple_base64_decoder_spec_witness :
  simple_base64_decoder "aGVsbG8="%string = [104; 101; 108; 108; 111]
  /\ simple_base64_decoder "aGV-bG8="%string = [].
Proof.
  split.
  - apply (proj1 simple_base64_decoder_spec [104; 101; 108; 108; 111]).
    repeat constructor; unfold is_byte; lia.
  - apply (proj2 simple_base64_decoder_spec "aGV-bG8="%string "-"%char).
    + cbn. tauto.
    + reflexivity.
    + discriminate.
Defined.

(* ================================================================== *)
(** * The character count of the statistics *)
(* ================================================================== *)

Lemma GetCharacterLengthFromBase64_formula base64_string :
  GetCharacterLengthFromBase64 base64_string =
    (3 * (Z.of_nat (String.length base64_string) / 4)
     - count (list_ascii_of_string base64_string) pad_char) mod 2 ^ 32.
Proof.
  unfold GetCharacterLengthFromBase64, u32, u64.
  change (2 ^ 64) with (4294967296 * 4294967296). change (2 ^ 32) with 4294967296.
  Z.div_mod_to_equations. lia.
Qed.

Lemma length_list_ascii_of_string s :
  length (list_ascii_of_string s) = String.length s.
Proof. induction s; cbn; congruence. Qed.

(** C10.  [GetCharacterLengthFromBase64] is [3 * (len / 4)] minus the number
    of '=' characters, modulo 2^32.  On a canonical Base64 string (short
    enough for the count to fit 32 bits) it is the number of decoded bytes:
    3 for "AAAA", 2 for "AAA=", 1 for "AA==", 0 for the empty string.  On the
    one-character string "=" the subtraction wraps and the function returns
    2^32 - 1. *)
Theorem GetCharacterLengthFromBase64_spec :
  (forall s : string,
      GetCharacterLengthFromBase64 s =
        (3 * (Z.of_nat (String.length s) / 4)
         - count (list_ascii_of_string s) pad_char) mod 2 ^ 32)
  /\ (forall s : string,
         canonical (list_ascii_of_string s) = true ->
         3 * (Z.of_nat (String.length s) / 4) < 2 ^ 32 ->
         GetCharacterLengthFromBase64 s = size (simple_base64_decoder s))
  /\ GetCharacterLengthFromBase64 "AAAA"%string = 3
  /\ GetCharacterLengthFromBase64 "AAA="%string = 2
  /\ GetCharacterLengthFromBase64 "AA=="%string = 1
  /\ GetCharacterLengthFromBase64 EmptyString = 0
  /\ GetCharacterLengthFromBase64 "="%string = 2 ^ 32 - 1.
Proof.
  split; [exact GetCharacterLengthFromBase64_formula|].
  split; [|repeat split; reflexivity].
  intros s Hcan Hfit.
  rewrite GetCharacterLengthFromBase64_formula.
  unfold simple_base64_decoder.
  pose proof (decoder_loop_length (length (list_ascii_of_string s))
                (list_ascii_of_string s) [] 0 0 (le_n _) Hcan eq_refl) as H.
  unfold size at 3 in H. rewrite length_list_ascii_of_string in H.
  change (size (@nil Z)) with 0 in H.
  rewrite H. apply Z.mod_small.
  assert (0 <= size (decoder_loop (list_ascii_of_string s) [] 0 0))
    by (unfold size; lia).
  assert (0 <= count (list_ascii_of_string s) pad_char) by (unfold count, size; lia).
  lia.
Qed.

Lemma GetCharacterLengthFromBase64_spec_witness :
  GetCharacterLengthFromBase64 "aGVsbG8gd29ybGQ="%string
  = size (simple_base64_decoder "aGVsbG8gd29ybGQ="%string).
Proof.
  apply (proj1 (proj2 GetCharacterLengthFromBase64_spec)).
  - reflexivity.
  - cbn. lia.
Defined.

(* ================================================================== *)
(** * Loops, columns and reductions *)
(* ================================================================== *)


(** ** Monadic loops that do not fail *)

Lemma mapM_ok {A B} (f : A -> result B) (g : A -> B) l :
  (forall a, In a l -> f a = Ok (g a)) -> mapM f l = Ok (map g l).
Proof.
  induction l as [|a l IH]; intros H; [reflexivity|].
  cbn [mapM map]. rewrite (H a (or_introl eq_refl)). cbn [bind].
  rewrite IH by (intros; apply H; right; assumption). reflexivity.
Qed.

Lemma foldM_app {A S} (f : S -> A -> result S) l l' s :
  foldM f (l ++ l') s = (s' <- foldM f l s ;; foldM f l' s').
Proof.
  revert s. induction l as [|a l IH]; intros s; [reflexivity|].
  cbn [app foldM]. destruct (f s a); cbn [bind]; auto.
Qed.

Lemma foldM_ok {A S} (f : S -> A -> result S) (g : S -> A -> S) (Inv : S -> Prop) l :
  (forall s a, Inv s -> In a l -> f s a = Ok (g s a) /\ Inv (g s a)) ->
  forall s, Inv s -> foldM f l s = Ok (fold_left g l s) /\ Inv (fold_left g l s).
Proof.
  induction l as [|a l IH]; intros H s Hs; [split; [reflexivity|assumption]|].
  cbn [foldM fold_left].
  destruct (H s a Hs (or_introl eq_refl)) as [E Hs'].
  rewrite E. cbn [bind]. apply IH; [|assumption].
  intros s0 a0 H0 Hin. apply H; [assumption|right; assumption].
Qed.

(** ** Lists as functions of the index *)

Lemma map_nth_seq {A} (d : A) l :
  map (fun i => nth i l d) (seq 0 (length l)) = l.
Proof.
  induction l as [|a l IH]; [reflexivity|].
  cbn [length seq map nth]. rewrite <- seq_shift, map_map. cbn [nth]. now rewrite IH.
Qed.

Lemma zip_with_seq {A B C} (f : A -> B -> C) (da : A) (db : B) l l' :
  length l' = length l ->
  zip_with f l l' = map (fun i => f (nth i l da) (nth i l' db)) (seq 0 (length l)).
Proof.
  revert l'. induction l as [|a l IH]; intros [|b l'] H; try discriminate H; [reflexivity|].
  cbn [zip_with length seq map nth]. rewrite <- seq_shift, map_map. cbn [nth].
  rewrite IH by (cbn in H; lia). reflexivity.
Qed.

Lemma zip_with_length {A B C} (f : A -> B -> C) : forall l l',
  length l' = length l -> length (zip_with f l l') = length l.
Proof.
  induction l as [|a l IH]; intros [|b l'] H; try discriminate H; [reflexivity|].
  cbn. rewrite IH; auto.
Qed.

(** ** The zip of rows into columns *)

Lemma push_row_ok {A} : forall (cols : list (list A)) row,
  length row = length cols -> push_row cols row = Ok (snoc_row cols row).
Proof.
  induction cols as [|c cols IH]; intros [|x row] H; try discriminate H; [reflexivity|].
  cbn [push_row snoc_row zip_with]. rewrite IH by (cbn in H; lia). reflexivity.
Qed.

Lemma fold_snoc_row {A} (d : A) n : forall rows cols,
  length cols = n -> Forall (fun r => length r = n) rows ->
  fold_left snoc_row rows cols
  = map (fun i => nth i cols [] ++ map (fun r => nth i r d) rows) (seq 0 n).
Proof.
  induction rows as [|r rows IH]; intros cols Hc Hr.
  - cbn [fold_left map]. rewrite <- (map_nth_seq [] cols) at 1. rewrite Hc.
    apply map_ext. intros. now rewrite app_nil_r.
  - apply Forall_cons_iff in Hr. destruct Hr as [Hlen Hrest].
    cbn [fold_left].
    rewrite IH; [|unfold snoc_row; rewrite zip_with_length; congruence|assumption].
    apply map_ext_in. intros i Hi. apply in_seq in Hi.
    unfold snoc_row. rewrite (zip_with_seq _ [] d) by congruence.
    rewrite Hc.
    rewrite (nth_indep _ [] (nth 0 cols [] ++ [nth 0 r d])).
    2:{ rewrite length_map, length_seq. lia. }
    rewrite (map_nth (fun i => nth i cols [] ++ [nth i r d])).
    rewrite seq_nth by lia. cbn [plus map]. rewrite <- app_assoc. reflexivity.
Qed.

Lemma foldM_push_row {A} (d : A) n rows :
  Forall (fun r => length r = n) rows ->
  foldM push_row rows (repeat [] n) = Ok (columns d n rows).
Proof.
  intros Hr.
  destruct (foldM_ok push_row snoc_row (fun cols => length cols = n) rows) with (s := repeat (@nil A) n)
    as [E _].
  - intros s a Hs Hin. rewrite Forall_forall in Hr. specialize (Hr a Hin).
    split; [apply push_row_ok; congruence|].
    unfold snoc_row. rewrite zip_with_length; congruence.
  - apply repeat_length.
  - rewrite E. f_equal. rewrite (fold_snoc_row d n); auto using repeat_length.
    unfold columns. apply map_ext_in. intros i Hi.
    rewrite nth_repeat. reflexivity.
Qed.

Lemma zip_rows_columns {A} (d : A) n r rows :
  Forall (fun r => length r = n) (r :: rows) ->
  zip_rows (r :: rows) = Ok (columns d n (r :: rows)).
Proof.
  intros H. unfold zip_rows. cbn [at_ nth_error bind].
  apply Forall_cons_iff in H as H'. destruct H' as [-> _].
  apply foldM_push_row. assumption.
Qed.

(** ** SIMD packing of one-bit shares *)

Lemma Simdify_bits b bs : Simdify (map bit (b :: bs)) = Ok [b :: bs].
Proof.
  unfold Simdify. cbn [map].
  assert (E : forallb (fun s' => Nat.eqb (length s') (length (bit b))) (bit b :: map bit bs) = true).
  { apply forallb_forall. intros s Hs. destruct Hs as [<- | Hs]; [reflexivity|].
    apply in_map_iff in Hs. destruct Hs as [x [<- _]]. reflexivity. }
  rewrite E. cbn [bit length seq map]. do 2 f_equal.
  change (bit b :: map bit bs) with (map bit (b :: bs)).
  induction (b :: bs) as [|x l IH]; [reflexivity|].
  cbn [map flat_map nth bit app]. now rewrite IH.
Qed.

Lemma Simdify_one (w : wire) : Simdify [[w]] = Ok [w].
Proof. unfold Simdify. cbn. now rewrite app_nil_r. Qed.

Lemma Unsimdify_wire (w : wire) : Unsimdify [w] = map bit w.
Proof.
  unfold Unsimdify.
  transitivity (map bit (map (fun i => nth i w false) (seq 0 (length w)))).
  - rewrite map_map. reflexivity.
  - now rewrite map_nth_seq.
Qed.

Lemma same_shape_wires (x y : wire) :
  length y = length x -> same_shape [x] [y] = true.
Proof. intros H. unfold same_shape. cbn. rewrite H, Nat.eqb_refl. reflexivity. Qed.

Lemma gate2_wires f (x y : wire) :
  length y = length x -> gate2 f [x] [y] = Ok [zip_with f x y].
Proof. intros H. unfold gate2. rewrite same_shape_wires by exact H. reflexivity. Qed.

Lemma gate2_bits f a b : gate2 f (bit a) (bit b) = Ok (bit (f a b)).
Proof. reflexivity. Qed.

(** ** The balanced reduction is a fold *)

Section LowDepth.
Context {A V : Type} (op : A -> A -> result A) (emb : V -> A) (g : V -> V -> V)
        (Inv : V -> Prop).
Hypothesis op_emb : forall x y, Inv x -> Inv y -> op (emb x) (emb y) = Ok (emb (g x y)).
Hypothesis g_closed : forall x y, Inv x -> Inv y -> Inv (g x y).
Hypothesis g_assoc : forall x y z, g (g x y) z = g x (g y z).

Lemma fold_left_closed l : forall x, Inv x -> Forall Inv l -> Inv (fold_left g l x).
Proof.
  induction l as [|a l IH]; intros x Hx Hl; [assumption|].
  apply Forall_cons_iff in Hl. destruct Hl as [Ha Hl].
  cbn [fold_left]. apply IH; auto.
Qed.

Lemma fold_left_assoc l : forall x y, g x (fold_left g l y) = fold_left g l (g x y).
Proof.
  induction l as [|a l IH]; intros x y; [reflexivity|].
  cbn [fold_left]. rewrite IH, g_assoc. reflexivity.
Qed.

Lemma fold_left_split x l a l' :
  fold_left g (l ++ a :: l') x = g (fold_left g l x) (fold_left g l' a).
Proof. rewrite fold_left_app. cbn [fold_left]. now rewrite fold_left_assoc. Qed.

Lemma low_depth_fold fuel : forall x l,
  (length l <= fuel)%nat -> Inv x -> Forall Inv l ->
  low_depth fuel op (map emb (x :: l)) = Ok (emb (fold_left g l x)).
Proof.
  induction fuel as [|fuel IH]; intros x l Hlen Hx Hl.
  - destruct l; [reflexivity|cbn in Hlen; lia].
  - destruct l as [|y l]; [reflexivity|].
    cbn [map low_depth].
    change (emb x :: emb y :: map emb l) with (map emb (x :: y :: l)).
    rewrite length_map.
    set (half := Nat.div2 (length (x :: y :: l))).
    assert (Hh : (1 <= half <= length (y :: l))%nat).
    { subst half. cbn [length].
      cbn [Nat.div2].
      pose proof (Nat.le_div2_diag_l (length l)) as Hd.
      revert Hd. generalize (Nat.div2 (length l)). intros d Hd. lia. }
    destruct half as [|h]; [lia|].
    rewrite <- (firstn_skipn h (y :: l)).
    assert (Hf : length (firstn h (y :: l)) = h) by (rewrite length_firstn; lia).
    assert (Hs : (1 <= length (skipn h (y :: l)))%nat) by (rewrite length_skipn; lia).
    pose proof (Forall_app Inv (firstn h (y :: l)) (skipn h (y :: l))) as FA.
    rewrite firstn_skipn in FA. apply FA in Hl. destruct Hl as [Hl1 Hl2].
    assert (Hlen2 : (length (firstn h (y :: l)) + length (skipn h (y :: l))
                     = length (y :: l))%nat).
    { rewrite <- length_app, firstn_skipn. reflexivity. }
    destruct (skipn h (y :: l)) as [|a l2] eqn:E2; [cbn in Hs; lia|].
    apply Forall_cons_iff in Hl2. destruct Hl2 as [Ha Hl2].
    set (l1 := firstn h (y :: l)) in *.
    cbn [map]. rewrite map_app. cbn [map].
    replace (firstn (S h) (emb x :: map emb l1 ++ emb a :: map emb l2))
      with (map emb (x :: l1)).
    2:{ cbn [firstn map]. f_equal. rewrite firstn_app.
        rewrite length_map, Hf, Nat.sub_diag. cbn [firstn].
        rewrite app_nil_r. rewrite firstn_all2; [reflexivity|].
        rewrite length_map. lia. }
    replace (skipn (S h) (emb x :: map emb l1 ++ emb a :: map emb l2))
      with (map emb (a :: l2)).
    2:{ cbn [skipn map]. rewrite skipn_app.
        rewrite length_map, Hf, Nat.sub_diag. cbn [skipn].
        rewrite skipn_all2; [reflexivity|]. rewrite length_map. lia. }
    cbn [length] in Hlen, Hlen2.
    rewrite IH; auto; try lia. cbn [bind].
    rewrite IH; auto; try lia. cbn [bind].
    rewrite op_emb; auto using fold_left_closed.
    rewrite fold_left_split. reflexivity.
Qed.

Lemma LowDepthReduce_fold x l :
  Inv x -> Forall Inv l ->
  LowDepthReduce (map emb (x :: l)) op = Ok (emb (fold_left g l x)).
Proof.
  intros Hx Hl. unfold LowDepthReduce. apply low_depth_fold; auto.
  rewrite length_map. cbn [length]. lia.
Qed.
End LowDepth.

(** ** AND over the columns, OR over the bits *)

Lemma fold_left_andb l : forall b, fold_left andb l b = b && forallb id l.
Proof.
  induction l as [|a l IH]; intros b; cbn [fold_left forallb].
  - now rewrite andb_true_r.
  - rewrite IH. unfold id at 2. now rewrite andb_assoc.
Qed.

Lemma fold_left_orb l : forall b, fold_left orb l b = b || existsb id l.
Proof.
  induction l as [|a l IH]; intros b; cbn [fold_left existsb].
  - now rewrite orb_false_r.
  - rewrite IH. unfold id at 2. now rewrite orb_assoc.
Qed.

Lemma zip_with_andb_assoc (x y z : list bool) :
  zip_with andb (zip_with andb x y) z = zip_with andb x (zip_with andb y z).
Proof.
  revert y z. induction x as [|a x IH]; intros [|b y] [|c z]; cbn; try reflexivity.
  now rewrite IH, andb_assoc.
Qed.

Lemma fold_zip_cons {X} (h : X -> bool) (t : X -> list bool) l :
  forall h0 t0,
    fold_left (zip_with andb) (map (fun i => h i :: t i) l) (h0 :: t0)
    = fold_left andb (map h l) h0 :: fold_left (zip_with andb) (map t l) t0.
Proof.
  induction l as [|i l IH]; intros h0 t0; [reflexivity|].
  cbn [map fold_left zip_with]. apply IH.
Qed.

Lemma fold_zip_nil {X} (l : list X) :
  fold_left (zip_with andb) (map (fun _ => []) l) [] = [].
Proof. induction l; cbn; auto. Qed.

Lemma and_of_columns n : forall R,
  Forall (fun r => length r = S n) R ->
  fold_left (zip_with andb)
            (map (fun i => map (fun r => nth i r false) R) (seq 1 n))
            (map (fun r => nth 0 r false) R)
  = map (forallb id) R.
Proof.
  induction R as [|r R IH]; intros H.
  - cbn [map]. apply fold_zip_nil.
  - apply Forall_cons_iff in H. destruct H as [Hr HR].
    cbn [map].
    rewrite (fold_zip_cons (fun i => nth i r false) (fun i => map (fun r => nth i r false) R)).
    rewrite IH by assumption. f_equal.
    rewrite fold_left_andb.
    transitivity (forallb id (map (fun i => nth i r false) (seq 0 (S n)))); [reflexivity|].
    rewrite <- Hr, map_nth_seq. reflexivity.
Qed.

Lemma columns_bits n R :
  columns (bit false) n (map (map bit) R) = map (map bit) (columns false n R).
Proof.
  unfold columns. rewrite map_map. apply map_ext. intros i.
  rewrite !map_map. apply map_ext. intros r.
  apply (map_nth bit).
Qed.

Lemma mapM_Simdify_bits (C : list (list bool)) :
  Forall (fun c => c <> []) C ->
  mapM Simdify (map (map bit) C) = Ok (map (fun c => [c]) C).
Proof.
  intros H.
  transitivity (mapM (fun c => Simdify (map bit c)) C).
  { clear H. induction C as [|c C IH]; [reflexivity|]. cbn [map mapM]. now rewrite IH. }
  apply mapM_ok. intros c Hc.
  rewrite Forall_forall in H. specialize (H c Hc).
  destruct c as [|b c]; [contradiction|]. apply Simdify_bits.
Qed.

Lemma simdify_columns n r R :
  mapM Simdify (columns (bit false) n (map (map bit) (r :: R)))
  = Ok (map (fun c : wire => [c]) (columns false n (r :: R))).
Proof.
  rewrite columns_bits. apply mapM_Simdify_bits.
  unfold columns. apply Forall_forall. intros c Hc.
  apply in_map_iff in Hc. destruct Hc as [i [<- _]]. discriminate.
Qed.

Lemma and_reduce_columns n r R :
  Forall (fun r => length r = S n) (r :: R) ->
  LowDepthReduce (map (fun c : wire => [c]) (columns false (S n) (r :: R))) sw_and
  = Ok [map (forallb id) (r :: R)].
Proof.
  intros H. unfold columns. cbn [seq]. rewrite <- seq_shift.
  cbn [map].
  set (c0 := nth 0 r false :: map (fun r0 => nth 0 r0 false) R).
  set (C := map (fun i => _) (map S (seq 0 n))).
  change ([c0] :: map (fun c : wire => [c]) C) with (map (fun c : wire => [c]) (c0 :: C)).
  rewrite (LowDepthReduce_fold sw_and (fun c : wire => [c]) (zip_with andb)
             (fun c => length c = length (r :: R))).
  - f_equal. f_equal. subst c0 C. rewrite seq_shift.
    apply (and_of_columns n (r :: R)). assumption.
  - intros x y Hx Hy. apply gate2_wires. congruence.
  - intros x y Hx Hy. rewrite zip_with_length; congruence.
  - apply zip_with_andb_assoc.
  - subst c0. cbn [length]. now rewrite length_map.
  - subst C. apply Forall_forall. intros c Hc.
    apply in_map_iff in Hc. destruct Hc as [i [<- _]].
    cbn [length]. now rewrite length_map.
Qed.

Lemma or_reduce_bits b bs :
  LowDepthReduceSIMD (map bit (b :: bs)) sw_or = Ok (bit (existsb id (b :: bs))).
Proof.
  unfold LowDepthReduceSIMD.
  rewrite (LowDepthReduce_fold sw_or bit orb (fun _ => True)); auto.
  - rewrite fold_left_orb. reflexivity.
  - intros x y z. symmetry. apply orb_assoc.
  - apply Forall_forall. auto.
Qed.

(** ** The regrouping by [res_index % keyword_size] *)

Lemma push_at_middle {A} (x : A) c post : forall pre,
  push_at (pre ++ c :: post) (length pre) x = Ok (pre ++ (c ++ [x]) :: post).
Proof.
  induction pre as [|p pre IH]; [reflexivity|].
  cbn [app length push_at]. rewrite IH. reflexivity.
Qed.

Lemma unzip_row {A} B s : forall (row : list A) pre post,
  (s mod B = 0)%nat -> length row = length post -> (length pre + length post = B)%nat ->
  foldM (unzip_step B) (combine (seq (s + length pre) (length row)) row) (pre ++ post)
  = Ok (pre ++ snoc_row post row).
Proof.
  induction row as [|x row IH]; intros pre post Hs Hlen HB.
  - destruct post; [|discriminate Hlen]. reflexivity.
  - destruct post as [|c post]; [discriminate Hlen|].
    cbn [length seq combine foldM unzip_step].
    cbn [length] in HB.
    destruct B as [|B']; [lia|].
    assert (E : ((s + length pre) mod S B' = length pre)%nat).
    { rewrite Nat.Div0.add_mod, Hs, Nat.add_0_l, Nat.Div0.mod_mod.
      apply Nat.mod_small. lia. }
    rewrite E, push_at_middle. cbn [bind].
    replace (pre ++ (c ++ [x]) :: post) with ((pre ++ [c ++ [x]]) ++ post)
      by (rewrite <- app_assoc; reflexivity).
    replace (S (s + length pre)) with (s + length (pre ++ [c ++ [x]]))%nat
      by (rewrite length_app; cbn [length]; lia).
    rewrite IH; auto.
    + rewrite <- app_assoc. reflexivity.
    + rewrite length_app. cbn [length]. lia.
Qed.

Lemma combine_app {A B} (l1 l2 : list A) (m1 m2 : list B) :
  length l1 = length m1 ->
  combine (l1 ++ l2) (m1 ++ m2) = combine l1 m1 ++ combine l2 m2.
Proof.
  revert m1. induction l1 as [|a l1 IH]; intros [|b m1] H; try discriminate H; [reflexivity|].
  cbn [app combine]. rewrite IH by (cbn in H; lia). reflexivity.
Qed.

Lemma unzip_rows {A} B : forall (zrows : list (list A)) cols k,
  Forall (fun r => length r = B) zrows -> length cols = B ->
  foldM (unzip_step B)
        (combine (seq (k * B) (length (concat zrows))) (concat zrows)) cols
  = Ok (fold_left snoc_row zrows cols).
Proof.
  induction zrows as [|r zrows IH]; intros cols k H Hc; [reflexivity|].
  apply Forall_cons_iff in H. destruct H as [Hr H].
  cbn [concat fold_left]. rewrite length_app, seq_app, combine_app by (now rewrite length_seq).
  rewrite foldM_app.
  pose proof (unzip_row B (k * B) r [] cols) as R.
  cbn [length app] in R. rewrite Nat.add_0_r in R.
  rewrite R; [|apply Nat.Div0.mod_mul|lia|lia].
  cbn [bind].
  replace (k * B + length r)%nat with (S k * B)%nat by (rewrite Hr; cbn; lia).
  apply IH; [assumption|].
  unfold snoc_row. rewrite zip_with_length; congruence.
Qed.

Lemma unzip_results_columns {A} (d : A) B (zrows : list (list A)) :
  Forall (fun r => length r = B) zrows ->
  unzip_results B (concat zrows) = Ok (columns d B zrows).
Proof.
  intros H. unfold unzip_results.
  pose proof (unzip_rows B zrows (repeat [] B) 0 H (repeat_length _ _)) as E.
  cbn [Nat.mul] in E. unfold unzip_step in E. rewrite E.
  f_equal. rewrite (fold_snoc_row d B); auto using repeat_length.
  unfold columns. apply map_ext_in. intros i Hi. now rewrite nth_repeat.
Qed.

(** ** The batched comparison *)

Lemma zip_with_map {X A B C} (f : A -> B -> C) (g : X -> A) (h : X -> B) l :
  zip_with f (map g l) (map h l) = map (fun x => f (g x) (h x)) l.
Proof. induction l as [|x l IH]; cbn; [reflexivity|now rewrite IH]. Qed.

Lemma forallb_map {A B} (f : A -> B) (p : B -> bool) l :
  forallb p (map f l) = forallb (fun x => p (f x)) l.
Proof. induction l as [|x l IH]; cbn; [reflexivity|now rewrite IH]. Qed.

Lemma batch_compare_grid kw n b (row : list cell) (grid : list (list cell)) :
  length (search_keyword kw) = S b ->
  Forall (fun r => length r = S b) (row :: grid) ->
  Forall (Forall (fun c : cell => length (fst c) = S n)) (row :: grid) ->
  batch_compare kw
    (map (fun c : cell => map bit (fst c)) (concat (row :: grid)))
    (map (fun c : cell => bit (snd c)) (concat (row :: grid)))
  = Ok (map (fun r => bit (forallb cell_ok r)) (row :: grid)).
Proof.
  intros HB Hrows Hcells.
  set (G := row :: grid) in *.
  assert (Hne : exists c cs, concat G = c :: cs).
  { subst G. apply Forall_cons_iff in Hrows. destruct Hrows as [Hr _].
    destruct row as [|c row]; [discriminate Hr|]. cbn [concat app]. eauto. }
  destruct Hne as [c [cs Ecs]].
  assert (Hbits : Forall (fun r => length r = S n) (map fst (concat G))).
  { apply Forall_forall. intros r Hr. apply in_map_iff in Hr.
    destruct Hr as [c' [<- Hc']].
    apply in_concat in Hc'. destruct Hc' as [r [Hr Hc']].
    rewrite Forall_forall in Hcells. specialize (Hcells r Hr).
    rewrite Forall_forall in Hcells. apply Hcells, Hc'. }
  unfold batch_compare.
  assert (EX : map (fun c : cell => map bit (fst c)) (concat G)
               = map (map bit) (map fst (concat G))) by (now rewrite map_map).
  assert (EM : map (fun c : cell => bit (snd c)) (concat G)
               = map bit (map snd (concat G))) by (now rewrite map_map).
  rewrite EX, EM. clear EX EM.
  rewrite Ecs in *. cbn [map] in *.
  rewrite (zip_rows_columns (bit false) (S n)).
  2:{ change (map bit (fst c) :: map (map bit) (map fst cs))
        with (map (map bit) (fst c :: map fst cs)).
      apply Forall_forall. intros r Hr.
      apply in_map_iff in Hr. destruct Hr as [r' [<- Hr]].
      rewrite length_map. rewrite Forall_forall in Hbits. apply Hbits, Hr. }
  change (map bit (fst c) :: map (map bit) (map fst cs))
    with (map (map bit) (fst c :: map fst cs)).
  cbn [bind]. rewrite simdify_columns. cbn [bind].
  rewrite and_reduce_columns by exact Hbits. cbn [bind].
  cbn [Split map]. rewrite Simdify_one. cbn [bind].
  change (bit (snd c) :: map bit (map snd cs)) with (map bit (snd c :: map snd cs)).
  rewrite Simdify_bits. cbn [bind].
  unfold sw_or. rewrite gate2_wires.
  2:{ cbn [length]. now rewrite !length_map. }
  cbn [bind]. rewrite Unsimdify_wire.
  change (forallb id (fst c) :: map (forallb id) (map fst cs))
    with (map (forallb id) (map fst (c :: cs))).
  change (snd c :: map snd cs) with (map snd (c :: cs)).
  rewrite map_map, zip_with_map.
  set (ok := fun x : list bool * bool => _).
  rewrite <- Ecs. rewrite !concat_map, HB.
  rewrite (unzip_results_columns (bit false) (S b)).
  2:{ apply Forall_forall. intros r Hr.
      apply in_map_iff in Hr. destruct Hr as [r' [<- Hr]].
      apply in_map_iff in Hr. destruct Hr as [r'' [<- Hr]].
      rewrite !length_map. rewrite Forall_forall in Hrows. apply Hrows, Hr. }
  cbn [bind]. subst G.
  change (map (map ok) (row :: grid)) with (map ok row :: map (map ok) grid).
  rewrite simdify_columns. cbn [bind].
  rewrite and_reduce_columns.
  2:{ change (map ok row :: map (map ok) grid) with (map (map ok) (row :: grid)).
      apply Forall_forall. intros r Hr. apply in_map_iff in Hr.
      destruct Hr as [r' [<- Hr]]. rewrite length_map.
      rewrite Forall_forall in Hrows. apply Hrows, Hr. }
  cbn [bind]. rewrite Unsimdify_wire. f_equal.
  cbn [map]. rewrite forallb_map. f_equal.
  rewrite !map_map. apply map_ext. intros r. now rewrite forallb_map.
Qed.

Lemma or_reduce_nonempty (l : list bool) :
  l <> [] -> LowDepthReduceSIMD (map bit l) sw_or = Ok (bit (existsb id l)).
Proof. destruct l as [|b bs]; [contradiction|]. intros _. apply or_reduce_bits. Qed.


(* ================================================================== *)
(** * Share invariance *)
(* ================================================================== *)

Lemma sw_xor_ToInput a b : sw_xor (ToInput a) (ToInput b) = Ok (ToInput (Z.lxor a b)).
Proof.
  unfold sw_xor, gate2, ToInput.
  cbn [map seq same_shape same_lengths length Nat.eqb andb zip_with].
  rewrite !Z.lxor_spec. reflexivity.
Qed.

Lemma xor_into_ToInput : forall v s,
  length s = length v ->
  xor_into (map ToInput v) (map ToInput s) = Ok (map ToInput (zip_with Z.lxor v s)).
Proof.
  induction v as [|a v IH]; intros [|b s] H; try discriminate H; [reflexivity|].
  cbn [map xor_into zip_with]. rewrite sw_xor_ToInput. cbn [bind].
  rewrite IH by (cbn in H; lia). reflexivity.
Qed.

Lemma foldM_xor_into : forall shares v,
  forallb (fun s => Nat.eqb (length s) (length v)) shares = true ->
  foldM xor_into (map (map ToInput) shares) (map ToInput v)
  = Ok (map ToInput (fold_left (zip_with Z.lxor) shares v)).
Proof.
  induction shares as [|s shares IH]; intros v H; [reflexivity|].
  cbn [forallb] in H. apply andb_true_iff in H. destruct H as [Hs H].
  apply Nat.eqb_eq in Hs.
  cbn [map foldM fold_left]. rewrite xor_into_ToInput by exact Hs. cbn [bind].
  apply IH. rewrite zip_with_length by exact Hs. exact H.
Qed.

Lemma base64StringToInput_plaintext input_string v :
  plaintext input_string = Some v ->
  base64StringToInput input_string = Ok (map ToInput v).
Proof.
  unfold plaintext, base64StringToInput, xor_bytes, FromSharesToValue.
  destruct input_string as [|s0 rest]; cbn [map].
  - intros H. inversion H. reflexivity.
  - destruct (forallb _ _) eqn:E; [|discriminate].
    intros H. inversion H; subst. clear H.
    rewrite <- (map_map simple_base64_decoder (map ToInput)).
    apply foldM_xor_into. exact E.
Qed.

Lemma same_secret_input a b :
  same_secret a b -> base64StringToInput a = base64StringToInput b.
Proof.
  intros [v [Ha Hb]].
  rewrite (base64StringToInput_plaintext _ _ Ha), (base64StringToInput_plaintext _ _ Hb).
  reflexivity.
Qed.

Lemma mapM_Forall2 {A B} (R : A -> A -> Prop) (f : A -> result B) :
  (forall a a', R a a' -> f a = f a') ->
  forall l l', Forall2 R l l' -> mapM f l = mapM f l'.
Proof.
  intros Hf l l' H. induction H as [|a a' l l' Ha _ IH]; [reflexivity|].
  cbn [mapM]. rewrite (Hf _ _ Ha), IH. reflexivity.
Qed.

Lemma getBucketedKeywordInput_same qs qs' :
  Forall2 same_query qs qs' -> getBucketedKeywordInput qs = getBucketedKeywordInput qs'.
Proof.
  apply mapM_Forall2. intros q q' [Hs [Hb [Hm _]]].
  rewrite (same_secret_input _ _ Hb), (same_secret_input _ _ Hm), Hs. reflexivity.
Qed.

Lemma decode_buckets_same bs bs' :
  Forall2 same_bucket bs bs' -> decode_buckets bs = decode_buckets bs'.
Proof.
  apply mapM_Forall2. intros b b' [Hs Hw].
  rewrite (mapM_Forall2 same_secret base64StringToInput same_secret_input _ _ Hw), Hs.
  reflexivity.
Qed.

Lemma decode_index_same i i' : same_index i i' -> decode_index i = decode_index i'.
Proof.
  unfold decode_index, same_index. apply mapM_Forall2. intros b b' [Hs Hw].
  rewrite (mapM_Forall2 (fun w w' => same_secret (fst w) (fst w'))
             (fun w => base64StringToInput (fst w))
             (fun w w' H => same_secret_input _ _ H) _ _ Hw), Hs.
  reflexivity.
Qed.

Lemma total_number_words_same i i' :
  same_index i i' -> total_number_words i = total_number_words i'.
Proof.
  unfold total_number_words, same_index. generalize 0.
  intros z H. revert z. induction H as [|b b' l l' [_ Hw] _ IH]; intros z; [reflexivity|].
  cbn [fold_left]. unfold size. rewrite (Forall2_length Hw). apply IH.
Qed.

(** C7.  The search depends on the parties' share strings only through
    their bytewise XOR: every secret-shared field enters the circuit as the
    input wires of its plaintext, and two assignments of share strings that
    reconstruct the same plaintext in every field (with the same public
    sizes) give the same result of [PrivMailSearch] in every mode. *)
Theorem PrivMailSearch_share_invariance :
  (forall input_string v,
      plaintext input_string = Some v ->
      base64StringToInput input_string = Ok (map ToInput v))
  /\ (forall search_queries search_queries' modifier_chain_share modifier_chain_share'
             mails mails' idx idx' bucket_scheme search_mode,
         Forall2 same_query search_queries search_queries' ->
         same_secret modifier_chain_share modifier_chain_share' ->
         Forall2 same_mail mails mails' ->
         same_index idx idx' ->
         PrivMailSearch search_queries modifier_chain_share mails idx bucket_scheme search_mode
         = PrivMailSearch search_queries' modifier_chain_share' mails' idx' bucket_scheme
                          search_mode).
Proof.
  split; [exact base64StringToInput_plaintext|].
  intros qs qs' ch ch' ms ms' idx idx' scheme mode Hq Hc Hm Hi.
  unfold PrivMailSearch.
  rewrite (same_secret_input _ _ Hc).
  rewrite (getBucketedKeywordInput_same _ _ Hq).
  rewrite (decode_index_same _ _ Hi), (total_number_words_same _ _ Hi).
  rewrite (mapM_Forall2 same_query (fun q => base64StringToInput (keyword_truncated q))
             (fun q q' H => same_secret_input _ _ (proj2 (proj2 (proj2 H)))) _ _ Hq).
  rewrite (mapM_Forall2 same_mail
             (fun mail => base64StringToInput (secret_share_truncated_block mail))
             (fun m m' H => same_secret_input _ _ (proj1 H)) _ _ Hm).
  rewrite (mapM_Forall2 same_mail (fun mail => decode_buckets (buckets mail))
             (fun m m' H => decode_buckets_same _ _ (proj2 H)) _ _ Hm).
  reflexivity.
Qed.

Lemma PrivMailSearch_share_invariance_witness :
  PrivMailSearch [shared_query "Yg==" "Aw=="] ["gA=="; "gA=="]%string
                 [shared_mail "YmE=" "AwM="] no_index [] eNormal
  = PrivMailSearch [shared_query "YQ==" "AA=="] ["AA=="; "AA=="]%string
                   [shared_mail "YWI=" "AAA="] no_index [] eNormal.
Proof.
  apply (proj2 PrivMailSearch_share_invariance).
  - constructor; [|constructor].
    repeat split; try (exists []; split; reflexivity).
    exists [97]. split; reflexivity.
  - exists [0]. split; reflexivity.
  - constructor; [|constructor].
    split; [|constructor]. exists [97; 98]. split; reflexivity.
  - constructor.
Defined.


(* ================================================================== *)
(** * The comparison of a bucketed keyword with a word *)
(* ================================================================== *)

Lemma at_map {A B} (f : A -> B) (d : A) l i :
  (i < length l)%nat -> at_ (map f l) i = Ok (f (nth i l d)).
Proof.
  intros H. unfold at_. rewrite nth_error_map.
  rewrite (nth_error_nth' l d H). reflexivity.
Qed.

Lemma xnor6_eq a b : forallb id (xnor6 a b) = char_eq a b.
Proof.
  unfold char_eq.
  apply eq_true_iff_eq. rewrite forallb_forall, Z.eqb_eq. split.
  - intros H. apply Z.bits_inj'. intros n Hn.
    rewrite !Z.land_spec.
    destruct (Z.ltb_spec n 6) as [Hlt|Hge].
    + specialize (H (negb (xorb (Z.testbit a n) (Z.testbit b n)))).
      assert (Hin : In (negb (xorb (Z.testbit a n) (Z.testbit b n))) (xnor6 a b)).
      { unfold xnor6. apply in_map_iff. exists (Z.to_nat n).
        rewrite Z2Nat.id by lia. split; [reflexivity|].
        apply in_seq. unfold character_bitlen. lia. }
      specialize (H Hin). unfold id in H.
      destruct (Z.testbit a n), (Z.testbit b n); try reflexivity; discriminate H.
    + change 63 with (Z.ones 6). rewrite Z.ones_spec_high by lia.
      now rewrite !andb_false_r.
  - intros H x Hx. unfold xnor6 in Hx. apply in_map_iff in Hx.
    destruct Hx as [k [<- Hk]]. apply in_seq in Hk. unfold character_bitlen in Hk.
    unfold id.
    assert (E : Z.testbit (Z.land a 63) (Z.of_nat k) = Z.testbit (Z.land b 63) (Z.of_nat k))
      by (now rewrite H).
    rewrite !Z.land_spec in E. change 63 with (Z.ones 6) in E.
    rewrite Z.ones_spec_low in E by lia. rewrite !andb_true_r in E.
    rewrite E. destruct (Z.testbit b (Z.of_nat k)); reflexivity.
Qed.

Lemma compare_character_cell K mask W t c :
  (c < length K)%nat -> (c < length mask)%nat ->
  compare_character (bucketed K mask) (map ToInput W) t c
  = Ok (map bit (fst (word_cell K mask W t c)), bit (snd (word_cell K mask W t c))).
Proof.
  intros HK Hm. unfold compare_character, word_cell, bucketed.
  cbn [search_keyword length_mask fst snd]. rewrite length_map.
  destruct (length W <=? c + t)%nat eqn:E.
  - rewrite (at_map bit false mask c Hm). reflexivity.
  - apply Nat.leb_gt in E.
    rewrite (at_map ToInput 0 K c HK), (at_map ToInput 0 W (c + t) E).
    rewrite (at_map bit false mask c Hm). reflexivity.
Qed.

Lemma compare_word_grid K mask W P :
  (length K <= length mask)%nat ->
  compare_word (bucketed K mask) (map ToInput W) P
  = Ok (map (fun c : cell => map bit (fst c)) (concat (word_grid K mask W P)),
        map (fun c : cell => bit (snd c)) (concat (word_grid K mask W P))).
Proof.
  intros Hm. unfold compare_word, word_grid.
  cbn [search_keyword bucketed]. rewrite length_map.
  rewrite (mapM_ok _ (fun t => map (fun c => (map bit (fst (word_cell K mask W t c)),
                                              bit (snd (word_cell K mask W t c))))
                                   (seq 0 (length K)))).
  2:{ intros t _. apply mapM_ok. intros c Hc. apply in_seq in Hc.
      apply compare_character_cell; lia. }
  cbn [bind]. f_equal.
  rewrite !concat_map, !map_map. f_equal; f_equal.
  - apply map_ext. intros t. rewrite !map_map. reflexivity.
  - apply map_ext. intros t. rewrite !map_map. reflexivity.
Qed.

(** ** Hidden mode *)

Lemma word_grid_rows K mask W P :
  Forall (fun r => length r = length K) (word_grid K mask W P).
Proof.
  apply Forall_forall. intros r Hr. unfold word_grid in Hr.
  apply in_map_iff in Hr. destruct Hr as [t [<- _]].
  now rewrite length_map, length_seq.
Qed.

Lemma word_grid_cells K mask W P :
  Forall (Forall (fun c : cell => length (fst c) = character_bitlen)) (word_grid K mask W P).
Proof.
  apply Forall_forall. intros r Hr. unfold word_grid in Hr.
  apply in_map_iff in Hr. destruct Hr as [t [<- _]].
  apply Forall_forall. intros c Hc. apply in_map_iff in Hc.
  destruct Hc as [i [<- _]]. unfold word_cell. cbn [fst].
  destruct (length W <=? i + t)%nat; [apply repeat_length|].
  unfold xnor6. now rewrite length_map, length_seq.
Qed.

Lemma existsb_id_map {A} (p : A -> bool) l : existsb id (map p l) = existsb p l.
Proof. induction l as [|a l IH]; cbn; [reflexivity|now rewrite IH]. Qed.

Lemma hidden_compare_match K mask W P :
  (1 <= length K)%nat -> (length K <= length mask)%nat -> 1 <= P ->
  hidden_compare (bucketed K mask) (map ToInput W) P
  = Ok (bit (word_match K mask W P)).
Proof.
  intros HK Hm HP. unfold hidden_compare.
  rewrite compare_word_grid by exact Hm. cbn [bind].
  pose proof (word_grid_rows K mask W P) as Hrows.
  pose proof (word_grid_cells K mask W P) as Hcells.
  unfold word_match.
  destruct (word_grid K mask W P) as [|row grid] eqn:EG.
  { exfalso. unfold word_grid in EG. apply map_eq_nil in EG.
    assert (L : length (seq 0 (Z.to_nat P)) = O) by (now rewrite EG).
    rewrite length_seq in L. lia. }
  destruct (length K) as [|b] eqn:EK; [lia|].
  rewrite (batch_compare_grid _ 5 b); auto.
  2:{ cbn [search_keyword bucketed]. now rewrite length_map. }
  cbn [bind].
  assert (E : map (fun r => bit (forallb cell_ok r)) (row :: grid)
              = map bit (forallb cell_ok row :: map (forallb cell_ok) grid))
    by (cbn [map]; now rewrite map_map).
  rewrite E, or_reduce_bits.
  change (forallb cell_ok row :: map (forallb cell_ok) grid)
    with (map (forallb cell_ok) (row :: grid)).
  now rewrite existsb_id_map.
Qed.

Lemma positions_of_exact t k :
  - 2 ^ 31 <= t - k + 1 < 2 ^ 31 -> positions_of t k = t - k + 1.
Proof.
  intros H. unfold positions_of, i32, u64.
  change (2 ^ 64) with (4294967296 * 4294967296).
  change (2 ^ 32) with 4294967296. change (2 ^ 31) with 2147483648 in *.
  Z.div_mod_to_equations. lia.
Qed.

Lemma forallb_ext_in {A} (f g : A -> bool) l :
  (forall a, In a l -> f a = g a) -> forallb f l = forallb g l.
Proof.
  induction l as [|a l IH]; intros H; [reflexivity|].
  cbn [forallb]. rewrite (H a (or_introl eq_refl)), IH; auto.
  intros; apply H; now right.
Qed.

Lemma existsb_ext_in {A} (f g : A -> bool) l :
  (forall a, In a l -> f a = g a) -> existsb f l = existsb g l.
Proof.
  induction l as [|a l IH]; intros H; [reflexivity|].
  cbn [existsb]. rewrite (H a (or_introl eq_refl)), IH; auto.
  intros; apply H; now right.
Qed.

Lemma cell_ok_word_cell K mask W t c :
  cell_ok (word_cell K mask W t c)
  = ((length W <=? c + t)%nat || char_eq (nth c K 0) (nth (c + t) W 0))
    || negb (nth c mask false).
Proof.
  unfold cell_ok, word_cell. cbn [fst snd].
  destruct (length W <=? c + t)%nat.
  - reflexivity.
  - now rewrite xnor6_eq.
Qed.

Lemma masked_row (X : nat -> bool) mask L B :
  (L <= B)%nat -> (forall c, (c < B)%nat -> nth c mask false = (c <? L)%nat) ->
  forallb (fun c => X c || negb (nth c mask false)) (seq 0 B) = forallb X (seq 0 L).
Proof.
  intros HL Hmask.
  replace B with (L + (B - L))%nat by lia.
  rewrite seq_app, forallb_app. cbn [plus].
  rewrite (forallb_ext_in _ X (seq 0 L)).
  2:{ intros c Hc. apply in_seq in Hc. rewrite Hmask by lia.
      destruct (Nat.ltb_spec c L); [|lia]. now rewrite orb_false_r. }
  rewrite (forallb_ext_in _ (fun _ => true) (seq L (B - L))).
  2:{ intros c Hc. apply in_seq in Hc. rewrite Hmask by lia.
      destruct (Nat.ltb_spec c L); [lia|]. now rewrite orb_true_r. }
  assert (E : forall l : list nat, forallb (fun _ => true) l = true)
    by (induction l; auto).
  rewrite E. now rewrite andb_true_r.
Qed.

Lemma word_match_hidden K mask L W P :
  (L <= length K)%nat ->
  (forall c, (c < length K)%nat -> nth c mask false = (c <? L)%nat) ->
  word_match K mask W P
  = existsb (fun t =>
               forallb (fun c => (length W <=? c + t)%nat
                                 || char_eq (nth c K 0) (nth (c + t) W 0))
                       (seq 0 L))
            (seq 0 (Z.to_nat P)).
Proof.
  intros HL Hmask. unfold word_match, word_grid.
  rewrite <- existsb_id_map, map_map, existsb_id_map.
  apply existsb_ext_in. intros t _.
  rewrite forallb_map.
  rewrite (forallb_ext_in _ (fun c => ((length W <=? c + t)%nat
                                       || char_eq (nth c K 0) (nth (c + t) W 0))
                                      || negb (nth c mask false))).
  2:{ intros c _. apply cell_ok_word_cell. }
  apply (masked_row (fun c => (length W <=? c + t)%nat || char_eq (nth c K 0) (nth (c + t) W 0)));
    assumption.
Qed.

Lemma hidden_match_normal K L T :
  (L <= length K)%nat ->
  hidden_match K L (Z.of_nat L) T = normal_match (firstn L K) T.
Proof.
  intros HL. unfold hidden_match, normal_match, size.
  rewrite length_firstn, Nat.min_l by exact HL.
  apply existsb_ext_in. intros t Ht. apply in_seq in Ht.
  apply forallb_ext_in. intros c Hc. apply in_seq in Hc.
  destruct (Nat.leb_spec (length T) (c + t)) as [Hbad|_]; [lia|].
  cbn [orb]. rewrite nth_firstn.
  destruct (Nat.ltb_spec c L); [reflexivity|lia].
Qed.

Lemma hidden_target_match K mask W min j chain previous :
  (1 <= length K)%nat -> (length K <= length mask)%nat ->
  hidden_target j chain (bucketed K mask) min (map ToInput W) previous
  = chain_result j chain previous
      (bit (word_match K mask W (positions_of (size W) min))).
Proof.
  intros HK Hm. unfold hidden_target.
  replace (size (map ToInput W)) with (size W) by (unfold size; now rewrite length_map).
  destruct (Z.ltb_spec (positions_of (size W) min) 1) as [Hlt|Hge].
  - unfold word_match, word_grid.
    replace (Z.to_nat (positions_of (size W) min)) with O by lia. reflexivity.
  - rewrite hidden_compare_match by (auto; lia). reflexivity.
Qed.


(* ================================================================== *)
(** * The two passes of bucket mode *)
(* ================================================================== *)


Lemma grid_xnors_app G G' : grid_xnors G ++ grid_xnors G' = grid_xnors (G ++ G').
Proof. unfold grid_xnors. now rewrite concat_app, map_app. Qed.

Lemma grid_masks_app G G' : grid_masks G ++ grid_masks G' = grid_masks (G ++ G').
Proof. unfold grid_masks. now rewrite concat_app, map_app. Qed.

Lemma size_ToInput (W : list Z) : size (map ToInput W) = size W.
Proof. unfold size. now rewrite length_map. Qed.

Section Bucket.
Variables (K : list Z) (mask : list bool) (min : Z).
Hypothesis K_nonempty : (1 <= length K)%nat.
Hypothesis mask_long : (length K <= length mask)%nat.

Lemma first_pass_words_grid : forall Ws G0,
  first_pass_words (bucketed K mask) min (map (map ToInput) Ws)
                   (grid_xnors G0, grid_masks G0)
  = Ok (grid_xnors (G0 ++ flat_map (fun W => word_grid K mask W (positions_of (size W) min)) Ws),
        grid_masks (G0 ++ flat_map (fun W => word_grid K mask W (positions_of (size W) min)) Ws)).
Proof.
  unfold first_pass_words.
  induction Ws as [|W Ws IH]; intros G0.
  - cbn [map foldM flat_map]. now rewrite app_nil_r.
  - cbn [map foldM flat_map].
    rewrite size_ToInput, compare_word_grid by exact mask_long.
    cbn [bind]. fold (grid_xnors (word_grid K mask W (positions_of (size W) min))).
    fold (grid_masks (word_grid K mask W (positions_of (size W) min))).
    rewrite grid_xnors_app, grid_masks_app, IH. now rewrite <- app_assoc.
Qed.

Lemma bucket_first_pass_grid_from : forall mail G0,
  foldM (fun acc target_bucket =>
           if bi_bucket_size target_bucket <? bucket_size (bucketed K mask) then Ok acc
           else first_pass_words (bucketed K mask) min (words target_bucket) acc)
        (map bucket_of mail) (grid_xnors G0, grid_masks G0)
  = Ok (grid_xnors (G0 ++ mail_grid K mask min mail),
        grid_masks (G0 ++ mail_grid K mask min mail)).
Proof.
  induction mail as [|b mail IH]; intros G0.
  - cbn. now rewrite app_nil_r.
  - cbn [map foldM]. unfold mail_grid, retained.
    cbn [filter bucket_of bi_bucket_size words bucketed bucket_size].
    destruct (fst b <? size K) eqn:E; cbn [negb bind].
    + apply IH.
    + rewrite first_pass_words_grid. cbn [bind flat_map].
      rewrite IH. unfold mail_grid, retained. now rewrite <- app_assoc.
Qed.

Lemma bucket_first_pass_grid mail :
  bucket_first_pass (bucketed K mask) min (map bucket_of mail)
  = Ok (grid_xnors (mail_grid K mask min mail), grid_masks (mail_grid K mask min mail)).
Proof. apply (bucket_first_pass_grid_from mail []). Qed.
End Bucket.

Lemma word_results_length K mask min W :
  length (word_results K mask min W) = Z.to_nat (positions_of (size W) min).
Proof. unfold word_results, word_grid. now rewrite !length_map, length_seq. Qed.

Lemma word_results_match K mask min W :
  existsb id (word_results K mask min W)
  = word_match K mask W (positions_of (size W) min).
Proof. unfold word_results, word_match. apply existsb_id_map. Qed.

Lemma mapM_at_slice {A} (mid : list A) : forall pre post,
  mapM (at_ (pre ++ mid ++ post)) (seq (length pre) (length mid)) = Ok mid.
Proof.
  induction mid as [|x mid IH]; intros pre post; [reflexivity|].
  cbn [length seq mapM app].
  unfold at_ at 1. rewrite nth_error_app2, Nat.sub_diag by lia. cbn [nth_error bind].
  replace (pre ++ x :: mid ++ post) with ((pre ++ [x]) ++ mid ++ post)
    by (now rewrite <- app_assoc).
  replace (S (length pre)) with (length (pre ++ [x])) by (rewrite length_app; cbn; lia).
  now rewrite IH.
Qed.

Lemma mapM_at_slice_map {A B} (f : A -> B) (mid pre post : list A) :
  mapM (at_ (map f (pre ++ mid ++ post))) (seq (length pre) (length mid)) = Ok (map f mid).
Proof.
  rewrite !map_app.
  rewrite <- (length_map f pre), <- (length_map f mid).
  apply mapM_at_slice.
Qed.

Section BucketSecondPass.
Variables (K : list Z) (mask : list bool) (min : Z).

Lemma second_pass_words_from L : forall Ws pre post acc,
  L = map bit (pre ++ flat_map (word_results K mask min) Ws ++ post) ->
  (forall W, In W Ws -> 1 <= positions_of (size W) min) ->
  foldM (second_pass_word min L) (map (map ToInput) Ws) (acc, length pre)
  = Ok (acc ++ map (word_bit K mask min) Ws,
        (length pre + length (flat_map (word_results K mask min) Ws))%nat).
Proof.
  induction Ws as [|W Ws IH]; intros pre post acc HL HP.
  - cbn [map foldM flat_map length]. now rewrite app_nil_r, Nat.add_0_r.
  - cbn [map foldM flat_map]. unfold second_pass_word at 1. cbv zeta.
    rewrite size_ToInput, <- (word_results_length K mask min W).
    assert (Es : mapM (at_ L) (seq (length pre) (length (word_results K mask min W)))
                 = Ok (map bit (word_results K mask min W))).
    { rewrite HL. cbn [flat_map]. rewrite <- !app_assoc. apply mapM_at_slice_map. }
    rewrite Es. cbn [bind].
    pose proof (HP W (or_introl eq_refl)) as HW.
    pose proof (word_results_length K mask min W) as HLen.
    pose proof (word_results_match K mask min W) as HM.
    destruct (word_results K mask min W) as [|r rs] eqn:ER; [cbn in HLen; lia|].
    rewrite or_reduce_bits. cbn [bind].
    change (assert (GetBitLength (bit (existsb id (r :: rs))) =? 1)) with (Ok tt).
    cbn [bind]. rewrite HM. fold (word_bit K mask min W).
    specialize (IH (pre ++ r :: rs) post (acc ++ [word_bit K mask min W])).
    rewrite length_app in IH.
    rewrite IH.
    + rewrite <- app_assoc. cbn [app length]. rewrite ?length_app. cbn [length].
      f_equal. f_equal. lia.
    + rewrite HL. cbn [flat_map]. rewrite ER. now rewrite <- !app_assoc.
    + intros; apply HP; now right.
Qed.
End BucketSecondPass.

Section BucketMode.
Variables (K : list Z) (mask : list bool) (min : Z).

Lemma second_pass_buckets_from L : forall mail pre post acc,
  L = map bit (pre ++ flat_map (bucket_results K mask min) (retained (size K) mail) ++ post) ->
  has_positions K min mail ->
  foldM (second_pass_bucket (bucketed K mask) min L) (map bucket_of mail) (acc, length pre)
  = Ok (acc ++ map (bucket_bit K mask min) (retained (size K) mail),
        (length pre
         + length (flat_map (bucket_results K mask min) (retained (size K) mail)))%nat).
Proof.
  induction mail as [|b mail IH]; intros pre post acc HL HP.
  - cbn. now rewrite app_nil_r, Nat.add_0_r.
  - cbn [map foldM]. unfold second_pass_bucket at 1.
    cbn [bucket_of bi_bucket_size words bucketed bucket_size].
    unfold has_positions, retained in *. cbn [filter] in *.
    destruct (fst b <? size K) eqn:E; cbn [negb] in *.
    + cbn [bind]. apply (IH pre post acc HL HP).
    + destruct (HP b (or_introl eq_refl)) as [Hne HW].
      cbn [flat_map] in HL.
      unfold second_pass_words.
      rewrite (second_pass_words_from K mask min L (snd b) pre
                 (flat_map (bucket_results K mask min)
                           (filter (fun b => negb (fst b <? size K)) mail) ++ post)
                 []).
      2:{ rewrite HL. unfold bucket_results at 1. now rewrite <- !app_assoc. }
      2:{ exact HW. }
      cbn [bind app].
      assert (EB : map (word_bit K mask min) (snd b)
                   = map bit (map (fun W => word_match K mask W (positions_of (size W) min))
                                  (snd b))) by (now rewrite map_map).
      rewrite EB, or_reduce_nonempty.
      2:{ intros C. apply map_eq_nil in C. contradiction. }
      cbn [bind]. rewrite existsb_id_map. fold (bucket_bit K mask min b).
      fold (bucket_results K mask min b) in *.
      specialize (IH (pre ++ bucket_results K mask min b) post
                     (acc ++ [bucket_bit K mask min b])).
      rewrite length_app in IH. rewrite IH.
      * cbn [map flat_map]. rewrite <- app_assoc. cbn [app]. rewrite length_app.
        f_equal. f_equal. lia.
      * rewrite HL. now rewrite <- !app_assoc.
      * intros b' Hb'. apply HP. now right.
Qed.

Lemma bucket_second_pass_bits mail :
  has_positions K min mail ->
  bucket_second_pass (bucketed K mask) min
    (map bit (flat_map (bucket_results K mask min) (retained (size K) mail)))
    (map bucket_of mail)
  = Ok (map (bucket_bit K mask min) (retained (size K) mail)).
Proof.
  intros HP. unfold bucket_second_pass.
  rewrite (second_pass_buckets_from _ mail [] [] [] ); auto.
  cbn [app]. now rewrite app_nil_r.
Qed.
End BucketMode.

Lemma map_flat_map {A B C} (f : B -> C) (g : A -> list B) l :
  map f (flat_map g l) = flat_map (fun x => map f (g x)) l.
Proof. induction l as [|a l IH]; cbn; [reflexivity|]. now rewrite map_app, IH. Qed.

Lemma Forall_flat_map {A B} (P : B -> Prop) (g : A -> list B) l :
  (forall a, In a l -> Forall P (g a)) -> Forall P (flat_map g l).
Proof.
  intros H. apply Forall_forall. intros b Hb. apply in_flat_map in Hb.
  destruct Hb as [a [Ha Hb]]. specialize (H a Ha). rewrite Forall_forall in H. auto.
Qed.

Section BucketCompare.
Variables (K : list Z) (mask : list bool) (min : Z).
Hypothesis K_nonempty : (1 <= length K)%nat.
Hypothesis mask_long : (length K <= length mask)%nat.

Lemma mail_grid_results mail :
  map (forallb cell_ok) (mail_grid K mask min mail)
  = flat_map (bucket_results K mask min) (retained (size K) mail).
Proof.
  unfold mail_grid. rewrite map_flat_map. apply flat_map_ext. intros b.
  unfold bucket_results. rewrite map_flat_map. reflexivity.
Qed.

Lemma bucket_compare_match mail :
  has_positions K min mail ->
  bucket_compare (bucketed K mask) min (map bucket_of mail)
  = Ok (match retained (size K) mail with
        | [] => None
        | _ => Some (bit (existsb (fun b =>
                                     existsb (fun W => word_match K mask W
                                                         (positions_of (size W) min))
                                             (snd b))
                                  (retained (size K) mail)))
        end).
Proof.
  intros HP. unfold bucket_compare.
  rewrite bucket_first_pass_grid by assumption. cbn [bind].
  pose proof (mail_grid_results mail) as ER.
  pose proof (bucket_second_pass_bits K mask min mail HP) as E2.
  assert (Hrows : Forall (fun r => length r = length K) (mail_grid K mask min mail)).
  { unfold mail_grid. apply Forall_flat_map. intros b _.
    apply Forall_flat_map. intros W _. apply word_grid_rows. }
  assert (Hcells : Forall (Forall (fun c : cell => length (fst c) = character_bitlen))
                          (mail_grid K mask min mail)).
  { unfold mail_grid. apply Forall_flat_map. intros b _.
    apply Forall_flat_map. intros W _. apply word_grid_cells. }
  unfold has_positions in HP.
  destruct (retained (size K) mail) as [|b rest] eqn:ERet.
  - unfold mail_grid. rewrite ERet. reflexivity.
  - destruct (HP b (or_introl eq_refl)) as [Hne HW].
    destruct (snd b) as [|W Ws] eqn:EW; [contradiction|].
    specialize (HW W (or_introl eq_refl)).
    destruct (mail_grid K mask min mail) as [|row grid] eqn:EG.
    { exfalso. unfold mail_grid in EG. rewrite ERet in EG. cbn [flat_map] in EG.
      rewrite EW in EG. cbn [flat_map] in EG.
      apply app_eq_nil in EG. destruct EG as [EG _].
      apply app_eq_nil in EG. destruct EG as [EG _].
      unfold word_grid in EG. apply map_eq_nil in EG.
      assert (L : length (seq 0 (Z.to_nat (positions_of (size W) min))) = O)
        by (now rewrite EG).
      rewrite length_seq in L. lia. }
    assert (Hc : exists c cs, concat (row :: grid) = c :: cs).
    { apply Forall_cons_iff in Hrows. destruct Hrows as [Hr _].
      destruct row as [|c row]; [cbn in Hr; lia|]. cbn [concat app]. eauto. }
    destruct Hc as [c [cs Ec]].
    unfold grid_xnors at 1. rewrite Ec. cbn [map size length].
    replace (Z.of_nat (S (length (map (fun c0 : cell => map bit (fst c0)) cs))) =? 0)
      with false by (symmetry; apply Z.eqb_neq; lia).
    unfold grid_xnors, grid_masks.
    destruct (length K) as [|k] eqn:EK; [lia|].
    rewrite (batch_compare_grid _ 5 k); auto.
    2:{ cbn [search_keyword bucketed]. now rewrite length_map. }
    cbn [bind].
    rewrite <- (map_map (forallb cell_ok) bit), ER, E2. cbn [bind].
    assert (EB : map (bucket_bit K mask min) (b :: rest)
                 = map bit (map (fun b => existsb (fun W => word_match K mask W
                                                            (positions_of (size W) min))
                                                  (snd b)) (b :: rest)))
      by (now rewrite map_map).
    rewrite EB, or_reduce_nonempty by discriminate.
    cbn [bind]. now rewrite existsb_id_map.
Qed.
End BucketCompare.



Lemma foldM_filter {A S} (skip : A -> bool) (f : S -> A -> result S) :
  (forall s a, skip a = true -> f s a = Ok s) ->
  forall l s, foldM f l s = foldM f (filter (fun a => negb (skip a)) l) s.
Proof.
  intros Hskip. induction l as [|a l IH]; intros s; [reflexivity|].
  cbn [filter foldM]. destruct (skip a) eqn:E; cbn [negb].
  - rewrite (Hskip s a E). cbn [bind]. apply IH.
  - cbn [foldM]. destruct (f s a); cbn [bind]; auto.
Qed.

Lemma bucket_compare_retained kw min target_text :
  bucket_compare kw min target_text
  = bucket_compare kw min (retained_buckets kw target_text).
Proof.
  unfold bucket_compare, bucket_first_pass, bucket_second_pass, retained_buckets.
  rewrite (foldM_filter (fun b => bi_bucket_size b <? bucket_size kw)
             (fun acc target_bucket =>
                if bi_bucket_size target_bucket <? bucket_size kw then Ok acc
                else first_pass_words kw min (words target_bucket) acc)).
  2:{ intros s a E. now rewrite E. }
  destruct (foldM _ (filter _ target_text) ([], [])) as [[xs ms]|e]; [|reflexivity].
  cbn [bind]. destruct (size xs =? 0); [reflexivity|].
  destruct (batch_compare kw xs ms) as [split|e]; [|reflexivity].
  cbn [bind].
  rewrite (foldM_filter (fun b => bi_bucket_size b <? bucket_size kw)
             (second_pass_bucket kw min split)).
  2:{ intros [rs c] a E. unfold second_pass_bucket. now rewrite E. }
  reflexivity.
Qed.

Lemma bucket_target_retained j chain kw min target_text previous :
  bucket_target j chain kw min target_text previous
  = bucket_target j chain kw min (retained_buckets kw target_text) previous.
Proof. unfold bucket_target. now rewrite bucket_compare_retained. Qed.

Lemma retained_buckets_of K mask mail :
  retained_buckets (bucketed K mask) (map bucket_of mail)
  = map bucket_of (retained (size K) mail).
Proof.
  unfold retained_buckets, retained. cbn [bucketed bucket_size].
  induction mail as [|b mail IH]; [reflexivity|].
  cbn [map filter]. rewrite IH. cbn [bucket_of bi_bucket_size].
  destruct (fst b <? size K); reflexivity.
Qed.

Lemma retained_idem B mail : retained B (retained B mail) = retained B mail.
Proof.
  unfold retained. induction mail as [|b mail IH]; [reflexivity|].
  cbn [filter]. destruct (negb (fst b <? B)) eqn:E; [|exact IH].
  cbn [filter]. rewrite E. now rewrite IH.
Qed.

Lemma searchable_positions K min mail :
  1 <= min -> searchable K min mail -> has_positions K min mail.
Proof.
  intros Hmin H b Hb. destruct (H b Hb) as [Hne HW]. split; [exact Hne|].
  intros W HWin. specialize (HW W HWin).
  rewrite positions_of_exact; lia.
Qed.

Lemma bucket_match_positions K mask min mail :
  1 <= min -> searchable K min mail ->
  existsb (fun b => existsb (fun W => word_match K mask W (positions_of (size W) min)) (snd b))
          (retained (size K) mail)
  = bucket_match K mask min mail.
Proof.
  intros Hmin H. unfold bucket_match.
  apply existsb_ext_in. intros b Hb. destruct (H b Hb) as [_ HW].
  apply existsb_ext_in. intros W HWin. specialize (HW W HWin).
  rewrite positions_of_exact; [reflexivity|lia].
Qed.

(** C8.  In bucket mode the match bit of a keyword of bucket size [B] on a
    mail is the OR over the buckets of the mail whose size is at least [B],
    over the words of each such bucket, over the positions of each word; it
    is what is chained.  Buckets of a size below [B] never contribute: two
    mails with the same buckets of size at least [B] give the same result.
    (The retained buckets are non-empty and their words at least
    [min_keyword_length] long, as bucketed words are.) *)
Theorem bucket_mode_searches_retained_buckets :
  forall (K : list Z) (mask : list bool) (min_keyword_length : Z)
         (mail : list plain_bucket) (j : nat) (chain : list ShareWrapper)
         (previous : ShareWrapper),
    (1 <= length K)%nat -> (length K <= length mask)%nat ->
    1 <= min_keyword_length ->
    searchable K min_keyword_length mail ->
    bucket_target j chain (bucketed K mask) min_keyword_length (map bucket_of mail) previous
    = chain_result j chain previous (bit (bucket_match K mask min_keyword_length mail))
    /\ (forall mail' : list plain_bucket,
           retained (size K) mail' = retained (size K) mail ->
           bucket_target j chain (bucketed K mask) min_keyword_length
                         (map bucket_of mail') previous
           = bucket_target j chain (bucketed K mask) min_keyword_length
                           (map bucket_of mail) previous).
Proof.
  intros K mask min mail j chain previous HK Hm Hmin Hs. split.
  - unfold bucket_target.
    rewrite bucket_compare_match by (auto using searchable_positions).
    cbn [bind]. rewrite bucket_match_positions by assumption.
    unfold bucket_match.
    destruct (retained (size K) mail); reflexivity.
  - intros mail' E.
    rewrite (bucket_target_retained _ _ _ _ (map bucket_of mail')).
    rewrite (bucket_target_retained _ _ _ _ (map bucket_of mail)).
    now rewrite !retained_buckets_of, E.
Qed.

Lemma bucket_mode_searches_retained_buckets_witness :
  bucket_target 0 [bit false]
    (bucketed [106; 97; 118; 97] [true; true; true; true; false; false; false; false]) 1
    (map bucket_of [(4, [[106; 97; 118; 97]]);
                    (8, [[115; 121; 115; 116; 101; 109; 115; 0]])]) []
  = chain_result 0 [bit false] []
      (bit (bucket_match [106; 97; 118; 97]
                         [true; true; true; true; false; false; false; false] 1
                         [(4, [[106; 97; 118; 97]]);
                          (8, [[115; 121; 115; 116; 101; 109; 115; 0]])])).
Proof.
  apply (proj1 (bucket_mode_searches_retained_buckets
                  [106; 97; 118; 97] [true; true; true; true; false; false; false; false] 1
                  [(4, [[106; 97; 118; 97]]); (8, [[115; 121; 115; 116; 101; 109; 115; 0]])]
                  0 [bit false] [] ltac:(cbn; lia) ltac:(cbn; lia) ltac:(lia)
                  ltac:(intros b [<- | [<- | []]]; (split; [discriminate|]);
                        intros W [<- | []]; cbn; lia))).
Defined.



(** ** No comparable position *)

Lemma positions_of_none t k :
  0 <= t -> t < k -> k <= 2 ^ 31 -> positions_of t k < 1.
Proof. intros H0 H1 H2. rewrite positions_of_exact; lia. Qed.

Lemma size_nonneg {A} (l : list A) : 0 <= size l.
Proof. unfold size. lia. Qed.

Lemma compare_word_none kw word P :
  P < 1 -> compare_word kw word P = Ok ([], []).
Proof.
  intros H. unfold compare_word.
  replace (Z.to_nat P) with O by lia. reflexivity.
Qed.

Lemma first_pass_words_none kw min ws :
  (forall w, In w ws -> size w < min) -> min <= 2 ^ 31 ->
  first_pass_words kw min ws ([], []) = Ok ([], []).
Proof.
  intros H Hmin. unfold first_pass_words.
  induction ws as [|w ws IH]; [reflexivity|].
  cbn [foldM].
  rewrite compare_word_none.
  2:{ apply positions_of_none; auto using size_nonneg. apply H. now left. }
  cbn [bind app]. apply IH. intros; apply H; now right.
Qed.

Lemma bucket_first_pass_none kw min target_text :
  (forall b, In b target_text -> bucket_size kw <= bi_bucket_size b ->
             forall w, In w (words b) -> size w < min) ->
  min <= 2 ^ 31 ->
  bucket_first_pass kw min target_text = Ok ([], []).
Proof.
  intros H Hmin. unfold bucket_first_pass.
  induction target_text as [|b bs IH]; [reflexivity|].
  cbn [foldM].
  destruct (Z.ltb_spec (bi_bucket_size b) (bucket_size kw)) as [Hlt|Hge].
  - cbn [bind]. apply IH. intros; eapply H; eauto. now right.
  - rewrite first_pass_words_none; auto.
    + cbn [bind]. apply IH. intros; eapply H; eauto. now right.
    + apply H; [now left|assumption].
Qed.

Lemma chain_result_zero j (bits : list bool) (r : bool) :
  (2 * j < length bits)%nat ->
  chain_result j (map bit bits) (bit r) full_zero
  = Ok (bit (match j with
             | O => xorb false (nth 0 bits false)
             | _ => CHAIN r false (nth (2 * j - 1) bits false) (nth (2 * j) bits false)
             end)).
Proof.
  intros H. unfold chain_result. destruct j as [|j'].
  - rewrite (at_map bit false bits 0) by lia. reflexivity.
  - rewrite (at_map bit false bits (2 * S j' - 1)) by lia.
    rewrite (at_map bit false bits (2 * S j')) by lia. reflexivity.
Qed.

(** C4.  When no position is comparable (normal mode: the text is shorter
    than the keyword; hidden mode: the text is shorter than the minimum
    keyword length; bucket mode: every word of every retained bucket is
    shorter than the minimum keyword length), the contribution of the
    keyword for that target is the public constant 0, chained by the same
    [chain_result] as a real match bit; on a well-formed modifier chain the
    chaining returns a bit and raises nothing. *)
Theorem no_position_contributes_zero :
  forall (j : nat) (chain : list ShareWrapper) (previous : ShareWrapper),
    (forall search_keyword target_text : list ShareWrapper,
        size target_text < size search_keyword -> size search_keyword <= 2 ^ 31 ->
        normal_target j chain search_keyword target_text previous
        = chain_result j chain previous full_zero)
    /\ (forall (kw : query_input) (min_keyword_length : Z) (target_text : list ShareWrapper),
           size target_text < min_keyword_length -> min_keyword_length <= 2 ^ 31 ->
           hidden_target j chain kw min_keyword_length target_text previous
           = chain_result j chain previous full_zero)
    /\ (forall (kw : query_input) (min_keyword_length : Z) (target_text : list bucket_input),
           (forall b, In b target_text -> bucket_size kw <= bi_bucket_size b ->
                      forall w, In w (words b) -> size w < min_keyword_length) ->
           min_keyword_length <= 2 ^ 31 ->
           bucket_target j chain kw min_keyword_length target_text previous
           = chain_result j chain previous full_zero)
    /\ (forall (bits : list bool) (r : bool),
           (2 * j < length bits)%nat ->
           chain_result j (map bit bits) (bit r) full_zero
           = Ok (bit (match j with
                      | O => xorb false (nth 0 bits false)
                      | _ => CHAIN r false (nth (2 * j - 1) bits false)
                                   (nth (2 * j) bits false)
                      end))).
Proof.
  intros j chain previous. split; [|split; [|split]].
  - intros K T H1 H2. unfold normal_target.
    pose proof (positions_of_none (size T) (size K) (size_nonneg _) H1 H2) as HP.
    apply Z.ltb_lt in HP. cbv zeta. now rewrite HP.
  - intros kw min T H1 H2. unfold hidden_target.
    pose proof (positions_of_none (size T) min (size_nonneg _) H1 H2) as HP.
    apply Z.ltb_lt in HP. cbv zeta. now rewrite HP.
  - intros kw min mail H Hmin. unfold bucket_target, bucket_compare.
    rewrite bucket_first_pass_none by assumption. reflexivity.
  - intros bits r H. now apply chain_result_zero.
Qed.

Lemma no_position_contributes_zero_witness :
  normal_target 0 [bit true] (map ToInput [1; 2; 3]) (map ToInput [1]) []
  = chain_result 0 [bit true] [] full_zero.
Proof.
  apply (proj1 (no_position_contributes_zero 0 [bit true] [])).
  - cbn. lia.
  - cbn. lia.
Defined.

(** ** Bucket sizes outside the scheme *)

Lemma getMinKeywordLength_invalid b scheme :
  std_find scheme b = None ->
  getMinKeywordLength b scheme
  = Err (invalid_argument "Search keyword has invalid bucket size!").
Proof. intros H. unfold getMinKeywordLength. now rewrite H. Qed.

Lemma foldM_stops {A S} (f : S -> A -> result S) (bad : A -> Prop) :
  (forall s a, bad a -> exists e, f s a = Err e) ->
  forall l, Exists bad l -> forall s, exists e, foldM f l s = Err e.
Proof.
  intros Hbad l H. induction H as [a l Ha|a l _ IH]; intros s; cbn [foldM].
  - destruct (Hbad s a Ha) as [e ->]. cbn [bind]. eauto.
  - destruct (f s a) as [s'|e]; cbn [bind]; eauto.
Qed.

Lemma mapM_length {A B} (f : A -> result B) l l' :
  mapM f l = Ok l' -> length l' = length l.
Proof.
  revert l'. induction l as [|a l IH]; intros l' H; cbn [mapM] in H.
  - inversion H. reflexivity.
  - destruct (f a); [|discriminate]. cbn [bind] in H.
    destruct (mapM f l) eqn:E; [|discriminate]. cbn [bind] in H.
    inversion H. cbn. f_equal. now apply IH.
Qed.

Lemma getBucketedKeywordInput_sizes qs kws :
  getBucketedKeywordInput qs = Ok kws ->
  map bucket_size kws = map sq_bucket_size qs.
Proof.
  unfold getBucketedKeywordInput. revert kws.
  induction qs as [|q qs IH]; intros kws H; cbn [mapM] in H.
  - inversion H. reflexivity.
  - destruct (base64StringToInput (keyword_bucketed q)); [|discriminate]. cbn [bind] in H.
    destruct (base64StringToInput (keyword_length_mask q)); [|discriminate]. cbn [bind] in H.
    destruct (splitTo1bitShareWrappers _); [|discriminate]. cbn [bind] in H.
    destruct (assert _); [|discriminate]. cbn [bind] in H.
    destruct (mapM _ qs) eqn:E; [|discriminate]. cbn [bind] in H.
    inversion H. cbn [map bucket_size]. f_equal. now apply IH.
Qed.

Lemma for_each_keyword_stops (scheme : list Z)
      (round : nat -> query_input -> list ShareWrapper -> result (list ShareWrapper)) :
  (forall j kw results, std_find scheme (bucket_size kw) = None ->
                        exists e, round j kw results = Err e) ->
  forall kws results,
    Exists (fun kw => std_find scheme (bucket_size kw) = None) kws ->
    exists e, for_each_keyword round kws results = Err e.
Proof.
  intros Hround kws results H. unfold for_each_keyword.
  apply (foldM_stops _ (fun jk => std_find scheme (bucket_size (snd jk)) = None)).
  - intros s [j kw] Hbad. apply Hround. exact Hbad.
  - clear results. generalize 0%nat.
    induction H as [kw kws Hkw|kw kws _ IH]; intros n; cbn [length seq combine].
    + now left.
    + right. apply IH.
Qed.



(** What hidden mode computes for one keyword and one text.  For a
    bucketed keyword whose length mask has [L] leading 1-bits, hidden mode
    compares at [|T| - min_keyword_length + 1] positions
    ([min_keyword_length] one more than the previous size of the scheme, or
    1), and at a position a keyword character that lies beyond the end of
    the text passes like one that agrees with the text.  With
    [L = min_keyword_length] no compared character lies beyond the end. *)
Lemma hidden_mode_match :
  forall (K : list Z) (mask : list bool) (L : nat) (T : list Z)
         (bucket_scheme : list Z) (min_keyword_length : Z)
         (j : nat) (chain : list ShareWrapper) (previous : ShareWrapper),
    (1 <= length K)%nat -> (L <= length K)%nat -> (length K <= length mask)%nat ->
    (forall c, (c < length K)%nat -> nth c mask false = (c <? L)%nat) ->
    getMinKeywordLength (size K) bucket_scheme = Ok min_keyword_length ->
    1 <= min_keyword_length <= 2 ^ 31 -> size T < 2 ^ 31 ->
    hidden_target j chain (bucketed K mask) min_keyword_length (map ToInput T) previous
    = chain_result j chain previous (bit (hidden_match K L min_keyword_length T))
    /\ (min_keyword_length = Z.of_nat L ->
        hidden_match K L min_keyword_length T = normal_match (firstn L K) T)
    /\ match std_find bucket_scheme (size K) with
       | Some (S i) => min_keyword_length = u32 (nth i bucket_scheme 0 + 1)
       | Some O => min_keyword_length = 1
       | None => False
       end.
Proof.
  intros K mask L T scheme min j chain previous HK HL Hm Hmask Hmin Hrange HT.
  split; [|split].
  - rewrite hidden_target_match by assumption. f_equal. f_equal.
    rewrite (word_match_hidden K mask L) by assumption.
    unfold hidden_match. rewrite positions_of_exact; [reflexivity|].
    pose proof (size_nonneg T). lia.
  - intros ->. now apply hidden_match_normal.
  - unfold getMinKeywordLength in Hmin.
    destruct (std_find scheme (size K)) as [[|i]|]; inversion Hmin; reflexivity.
Qed.

(** Where the match of hidden mode leaves the match of the truncated
    keyword: at the positions where the keyword runs over the end of the
    text, that is when the text ends with a prefix of the keyword. *)
Lemma hidden_match_prefix_at_end K L min T :
  (L <= length K)%nat -> 1 <= min <= Z.of_nat L ->
  hidden_match K L min T = normal_match (firstn L K) T || prefix_at_end K L min T.
Proof.
  intros HL Hmin. apply eq_true_iff_eq.
  rewrite orb_true_iff. unfold hidden_match, normal_match, prefix_at_end, size.
  rewrite length_firstn, Nat.min_l by exact HL.
  rewrite !existsb_exists. split.
  - intros (t & Ht & H). apply in_seq in Ht. rewrite forallb_forall in H.
    destruct (Nat.le_gt_cases (t + L) (length T)) as [Hin|Hout].
    + left. exists t. split; [apply in_seq; lia|].
      apply forallb_forall. intros c Hc. pose proof Hc as Hc'. apply in_seq in Hc'.
      specialize (H c Hc). apply orb_true_iff in H. destruct H as [H|H].
      * apply Nat.leb_le in H. lia.
      * rewrite nth_firstn. destruct (Nat.ltb_spec c L); [exact H|lia].
    + right. exists (length T - t)%nat. split; [apply in_seq; lia|].
      unfold ends_with_prefix. apply andb_true_iff. split; [apply Nat.leb_le; lia|].
      apply forallb_forall. intros c Hc. apply in_seq in Hc.
      assert (Hc' : In c (seq 0 L)) by (apply in_seq; lia).
      specialize (H c Hc'). apply orb_true_iff in H. destruct H as [H|H].
      * apply Nat.leb_le in H. lia.
      * replace (length T - (length T - t) + c)%nat with (c + t)%nat by lia. exact H.
  - intros [(t & Ht & H)|(p & Hp & H)].
    + apply in_seq in Ht. rewrite forallb_forall in H.
      exists t. split; [apply in_seq; lia|].
      apply forallb_forall. intros c Hc. pose proof Hc as Hc'. apply in_seq in Hc'.
      specialize (H c Hc). rewrite nth_firstn in H.
      destruct (Nat.ltb_spec c L); [|lia]. rewrite H. apply orb_true_r.
    + apply in_seq in Hp. unfold ends_with_prefix in H.
      apply andb_true_iff in H. destruct H as [Hle H]. apply Nat.leb_le in Hle.
      rewrite forallb_forall in H.
      exists (length T - p)%nat. split; [apply in_seq; lia|].
      apply forallb_forall. intros c Hc. apply in_seq in Hc.
      destruct (Nat.leb_spec (length T) (c + (length T - p))) as [Hbad|Hok]; [reflexivity|].
      cbn [orb]. replace (c + (length T - p))%nat with (length T - p + c)%nat by lia.
      apply H. apply in_seq. lia.
Qed.

(** C2.  The keyword "systems" (bucket 8 of the scheme 4, 8, true length 7,
    length mask 11111110, minimum length 5) and the text "syste": the
    property claimed asks for the match of the keyword truncated to its 7
    characters, which is 0, and normal mode returns 0; hidden mode returns
    1.  At its one position the characters 5 and 6 of the keyword lie beyond
    the end of the text and get the constant 1 as their six comparison bits
    ("Instead of breaking here, append with 1s"), although their length-mask
    bits are 1.  The same on the longer text "the syste", at its last
    position. *)
Lemma hidden_mode_matches_prefix_at_end :
  PrivMailSearch [query_systems] chain_zero [example_mail "c3lzdGU=" []] no_index [4; 8] eHidden
  = Ok [bit true]
  /\ PrivMailSearch [query_systems] chain_zero [example_mail "c3lzdGU=" []] no_index [4; 8] eNormal
     = Ok [bit false]
  /\ normal_match (firstn 7 [115; 121; 115; 116; 101; 109; 115; 0])
                  [115; 121; 115; 116; 101] = false
  /\ PrivMailSearch [query_systems] chain_zero [example_mail "dGhlIHN5c3Rl" []] no_index
                    [4; 8] eHidden
     = Ok [bit true]
  /\ normal_match (firstn 7 [115; 121; 115; 116; 101; 109; 115; 0])
                  [116; 104; 101; 32; 115; 121; 115; 116; 101] = false.
Proof. repeat split; vm_compute; reflexivity. Qed.

(** X24.  Hidden mode against the match of the truncated keyword.  For a
    bucketed keyword whose length mask has [L] leading 1-bits, [L] at least
    the minimum length of its bucket, the hidden-mode match bit on a text is
    the OR of the match of the keyword truncated to [L] characters and of
    "the text ends with the first [p] characters of the keyword" for some
    [p] from the minimum length up to [L - 1].  So the two agree on every
    text that does not end with such a prefix, and on every text when [L] is
    the minimum length of the bucket. *)
Theorem hidden_mode_prefix_at_end :
  forall (K : list Z) (mask : list bool) (L : nat) (T : list Z)
         (bucket_scheme : list Z) (min_keyword_length : Z)
         (j : nat) (chain : list ShareWrapper) (previous : ShareWrapper),
    (1 <= length K)%nat -> (L <= length K)%nat -> (length K <= length mask)%nat ->
    (forall c, (c < length K)%nat -> nth c mask false = (c <? L)%nat) ->
    getMinKeywordLength (size K) bucket_scheme = Ok min_keyword_length ->
    1 <= min_keyword_length <= 2 ^ 31 -> min_keyword_length <= Z.of_nat L ->
    size T < 2 ^ 31 ->
    hidden_target j chain (bucketed K mask) min_keyword_length (map ToInput T) previous
    = chain_result j chain previous
        (bit (normal_match (firstn L K) T || prefix_at_end K L min_keyword_length T))
    /\ (prefix_at_end K L min_keyword_length T = false ->
        hidden_target j chain (bucketed K mask) min_keyword_length (map ToInput T) previous
        = chain_result j chain previous (bit (normal_match (firstn L K) T)))
    /\ (min_keyword_length = Z.of_nat L ->
        prefix_at_end K L min_keyword_length T = false).
Proof.
  intros K mask L T scheme min j chain previous HK HL Hm Hmask Hmin Hrange HminL HT.
  assert (E : hidden_target j chain (bucketed K mask) min (map ToInput T) previous
              = chain_result j chain previous
                  (bit (normal_match (firstn L K) T || prefix_at_end K L min T))).
  { rewrite hidden_target_match by assumption. f_equal. f_equal.
    rewrite (word_match_hidden K mask L) by assumption.
    rewrite positions_of_exact by (pose proof (size_nonneg T); lia).
    apply (hidden_match_prefix_at_end K L min T); [exact HL|lia]. }
  split; [exact E|split].
  - intros H. rewrite E, H, orb_false_r. reflexivity.
  - intros ->. unfold prefix_at_end. rewrite Nat2Z.id, Nat.sub_diag. reflexivity.
Qed.

Lemma hidden_mode_prefix_at_end_witness :
  hidden_target 0 [bit false]
    (bucketed [115; 121; 115; 116; 101; 109; 115; 0]
              [true; true; true; true; true; true; true; false])
    5 (map ToInput [115; 121; 115; 116; 101]) []
  = chain_result 0 [bit false] []
      (bit (normal_match (firstn 7 [115; 121; 115; 116; 101; 109; 115; 0])
                         [115; 121; 115; 116; 101]
            || prefix_at_end [115; 121; 115; 116; 101; 109; 115; 0] 7 5
                             [115; 121; 115; 116; 101])).
Proof.
  apply (hidden_mode_prefix_at_end [115; 121; 115; 116; 101; 109; 115; 0]
           [true; true; true; true; true; true; true; false] 7
           [115; 121; 115; 116; 101] [4; 8] 5 0 [bit false] []).
  - cbn; lia.
  - cbn; lia.
  - cbn; lia.
  - intros c Hc. do 8 (destruct c as [|c]; [reflexivity|]). cbn in Hc. lia.
  - reflexivity.
  - lia.
  - lia.
  - cbn; lia.
Defined.

Lemma Exists_sizes scheme : forall qs kws,
  map bucket_size kws = map sq_bucket_size qs ->
  Exists (fun q => std_find scheme (sq_bucket_size q) = None) qs ->
  Exists (fun kw => std_find scheme (bucket_size kw) = None) kws.
Proof.
  induction qs as [|q qs IH]; intros [|kw kws] E H; try discriminate E.
  - inversion H.
  - cbn [map] in E. inversion E as [[E1 E2]].
    apply Exists_cons in H. destruct H as [H|H].
    + left. now rewrite E1.
    + right. now apply IH.
Qed.

(** C5, as amended.  In hidden, bucket and index mode a query keyword whose
    bucket size is not in the bucket scheme stops circuit construction:
    [PrivMailSearch] returns no result, and [getMinKeywordLength] raises
    [invalid_argument] for that size.  (Normal mode never looks at the
    bucket size.) *)
Theorem invalid_bucket_size_stops :
  forall (search_queries : list search_query) (modifier_chain_share : share_string)
         (mails : list mail_structure) (idx : search_index) (bucket_scheme : list Z)
         (search_mode : search_mode_enum),
    search_mode = eHidden \/ search_mode = eBucket \/ search_mode = eIndex ->
    Exists (fun q => std_find bucket_scheme (sq_bucket_size q) = None) search_queries ->
    (exists e, PrivMailSearch search_queries modifier_chain_share mails idx
                              bucket_scheme search_mode = Err e)
    /\ Forall (fun q => std_find bucket_scheme (sq_bucket_size q) = None ->
                        getMinKeywordLength (sq_bucket_size q) bucket_scheme
                        = Err (invalid_argument "Search keyword has invalid bucket size!"))
              search_queries.
Proof.
  intros qs ch mails idx scheme mode Hmode Hbad. split.
  2:{ apply Forall_forall. intros q _ H. now apply getMinKeywordLength_invalid. }
  unfold PrivMailSearch.
  destruct (base64StringToInput ch) as [c|e]; cbn [bind]; [|eauto].
  destruct (splitTo1bitShareWrappers c) as [c'|e]; cbn [bind]; [|eauto].
  assert (Hround_hidden : forall targets j kw (results : list ShareWrapper),
             std_find scheme (bucket_size kw) = None ->
             exists e, (min_keyword_length <- getMinKeywordLength (bucket_size kw) scheme ;;
                        for_each_target (hidden_target j c' kw min_keyword_length)
                                        targets results) = Err e).
  { intros targets j kw results H. rewrite getMinKeywordLength_invalid by exact H.
    cbn [bind]. eauto. }
  assert (Hround_bucket : forall targets j kw (results : list ShareWrapper),
             std_find scheme (bucket_size kw) = None ->
             exists e, (min_keyword_length <- getMinKeywordLength (bucket_size kw) scheme ;;
                        for_each_target (bucket_target j c' kw min_keyword_length)
                                        targets results) = Err e).
  { intros targets j kw results H. rewrite getMinKeywordLength_invalid by exact H.
    cbn [bind]. eauto. }
  assert (Hround_index : forall targets j kw (results : list ShareWrapper),
             std_find scheme (bucket_size kw) = None ->
             exists e, index_keyword c' scheme targets j kw results = Err e).
  { intros targets j kw results H. unfold index_keyword.
    rewrite getMinKeywordLength_invalid by exact H. cbn [bind]. eauto. }
  destruct Hmode as [-> | [-> | ->]].
  - destruct (getBucketedKeywordInput qs) as [kws|e] eqn:Ek; cbn [bind]; [|eauto].
    destruct (assert _); cbn [bind]; [|eauto].
    destruct (mapM _ mails) as [targets|e]; cbn [bind]; [|eauto].
    apply (for_each_keyword_stops scheme); [apply Hround_hidden|].
    eapply Exists_sizes; eauto using getBucketedKeywordInput_sizes.
  - destruct (getBucketedKeywordInput qs) as [kws|e] eqn:Ek; cbn [bind]; [|eauto].
    destruct (assert _); cbn [bind]; [|eauto].
    destruct (mapM _ mails) as [targets|e]; cbn [bind]; [|eauto].
    apply (for_each_keyword_stops scheme); [apply Hround_bucket|].
    eapply Exists_sizes; eauto using getBucketedKeywordInput_sizes.
  - destruct (getBucketedKeywordInput qs) as [kws|e] eqn:Ek; cbn [bind]; [|eauto].
    destruct (assert _); cbn [bind]; [|eauto].
    destruct (decode_index idx) as [targets|e]; cbn [bind]; [|eauto].
    apply (for_each_keyword_stops scheme); [apply Hround_index|].
    eapply Exists_sizes; eauto using getBucketedKeywordInput_sizes.
Qed.

Lemma invalid_bucket_size_stops_witness :
  exists e, PrivMailSearch [query_world] chain_zero [example_mail "d29ybGQ=" []] no_index
                           [4; 8] eHidden = Err e.
Proof.
  apply (invalid_bucket_size_stops [query_world] chain_zero [example_mail "d29ybGQ=" []]
           no_index [4; 8] eHidden).
  - left. reflexivity.
  - left. reflexivity.
Defined.

(** C5 fails as stated: in normal mode a keyword whose bucket size 5 is not
    in the scheme [4; 8] is searched and found. *)
Lemma normal_mode_ignores_bucket_size :
  std_find [4; 8] (sq_bucket_size query_world) = None
  /\ PrivMailSearch [query_world] chain_zero [example_mail "d29ybGQ=" []] no_index
                    [4; 8] eNormal = Ok [bit true].
Proof. split; vm_compute; reflexivity. Qed.

Lemma hidden_mode_rejects_bucket_size :
  PrivMailSearch [query_world] chain_zero [example_mail "d29ybGQ=" []] no_index
                 [4; 8] eHidden
  = Err (invalid_argument "Search keyword has invalid bucket size!").
Proof. vm_compute. reflexivity. Qed.

(** C1.  Text "hello world", keyword "world", modifier chain 0: the AND
    reduction leaves one wire with a lane per position (the keyword matches
    at the last of the 7 positions); [Split] of that single wire is a single
    share, so the OR reduction returns the 7 lanes as they are, and the XOR
    with the one-lane modifier bit is not a well-formed gate.  The property
    claimed asks for the single bit 1. *)
Lemma normal_mode_keeps_positions_apart :
  (kw <- base64StringToInput (clear "d29ybGQ=") ;;
   text <- base64StringToInput (clear "aGVsbG8gd29ybGQ=") ;;
   normal_compare kw text 7)
  = Ok [[false; false; false; false; false; false; true]]
  /\ PrivMailSearch [query_world] chain_zero [example_mail "aGVsbG8gd29ybGQ=" []] no_index
                    [] eNormal
     = Err bad_gate
  /\ normal_match [119; 111; 114; 108; 100]
                  [104; 101; 108; 108; 111; 32; 119; 111; 114; 108; 100] = true.
Proof. repeat split; vm_compute; reflexivity. Qed.

(** C6.  An index whose buckets are all smaller than the keyword's leaves
    [all_xnors] empty and [all_xnors[0]] is read past the end (bucket mode
    guards this case).  With the buckets in the order 8, 4 the zero wires of
    the skipped bucket come first and the match of "systems", the first
    word of the index, lands on the last position.  With the order 4, 8 the
    result is in index order. *)
Lemma index_mode_misplaces_results :
  PrivMailSearch [query_systems] chain_zero []
                 (example_index [(4, [word_java; word_perl])]) [4; 8] eIndex
  = Err out_of_range
  /\ PrivMailSearch [query_systems] chain_zero []
                    (example_index [(8, [word_systems]); (4, [word_java; word_perl])])
                    [4; 8] eIndex
     = Ok [bit false; bit false; bit true]
  /\ PrivMailSearch [query_java] chain_zero []
                    (example_index [(4, [word_java; word_perl]); (8, [word_systems])])
                    [4; 8] eIndex
     = Ok [bit true; bit false; bit false].
Proof. repeat split; vm_compute; reflexivity. Qed.

(* ================================================================== *)
(** * The bit layout, the chaining and normal mode *)
(* ================================================================== *)

(** X2.  [splitTo1bitShareWrappers] turns 8-bit input shares into one-bit
    shares, the most significant bit of each byte first. *)
Theorem splitTo1bitShareWrappers_msb_first :
  forall bytes : list Z,
    splitTo1bitShareWrappers (map ToInput bytes) = Ok (map bit (flat_map msb_first bytes)).
Proof.
  intros bytes.
  unfold splitTo1bitShareWrappers.
  rewrite (mapM_ok _ (fun input_byte => rev (Split input_byte))).
  2:{ intros a Ha. apply in_map_iff in Ha. destruct Ha as [b [<- _]]. reflexivity. }
  cbn [bind]. f_equal.
  induction bytes as [|b bytes IH]; [reflexivity|].
  cbn [map concat flat_map]. rewrite map_app, IH. reflexivity.
Qed.

(** X3.  Keyword 0 is chained as its match bit XOR [M[0]]; keyword [j >= 1]
    as [CHAIN] of the previous result, its match bit, the OR bit [M[2j-1]]
    and the NOT bit [M[2j]]. *)
Theorem chain_result_spec :
  forall (j : nat) (bits : list bool) (r m : bool),
    (2 * j < length bits)%nat ->
    chain_result j (map bit bits) (bit r) (bit m)
    = Ok (bit (match j with
               | O => xorb m (nth 0 bits false)
               | _ => CHAIN r m (nth (2 * j - 1) bits false) (nth (2 * j) bits false)
               end)).
Proof.
  intros j bits r m H. unfold chain_result. destruct j as [|j'].
  - rewrite (at_map bit false bits 0) by lia. reflexivity.
  - rewrite (at_map bit false bits (2 * S j' - 1)) by lia.
    rewrite (at_map bit false bits (2 * S j')) by lia. reflexivity.
Qed.

Lemma chain_result_spec_witness :
  chain_result 1 (map bit [false; true; true]) (bit false) (bit false)
  = Ok (bit (CHAIN false false true true)).
Proof. apply (chain_result_spec 1 [false; true; true] false false). cbn. lia. Defined.

Lemma gate2_lanes1 f : forall x y,
  length y = length x -> gate2 f (lanes1 x) (lanes1 y) = Ok (lanes1 (zip_with f x y)).
Proof.
  intros x y H. unfold gate2.
  assert (E : same_shape (lanes1 x) (lanes1 y) = true).
  { unfold same_shape, lanes1. rewrite !map_map. cbn [length].
    revert y H. induction x as [|a x IH]; intros [|b y] H; try discriminate H; [reflexivity|].
    cbn [map same_lengths Nat.eqb andb]. apply IH. cbn in H. lia. }
  rewrite E. clear E. f_equal. unfold lanes1.
  revert y H. induction x as [|a x IH]; intros [|b y] H; try discriminate H; [reflexivity|].
  cbn [map zip_with]. f_equal. apply IH. cbn in H. lia.
Qed.

Lemma concat_bits l : concat (map bit l) = lanes1 l.
Proof. induction l as [|b l IH]; [reflexivity|]. cbn [map concat bit app]. now rewrite IH. Qed.

Lemma Concatenate_bits b l : Concatenate (map bit (b :: l)) = Ok (lanes1 (b :: l)).
Proof. unfold Concatenate. cbn [map]. f_equal. apply (concat_bits (b :: l)). Qed.

Lemma Split_lanes1 l : Split (lanes1 l) = map bit l.
Proof. unfold Split, lanes1. now rewrite map_map. Qed.

Lemma sw_not_lanes1 l : sw_not (lanes1 l) = lanes1 (map negb l).
Proof. unfold sw_not, lanes1. now rewrite !map_map. Qed.

Lemma zip_with_flat_map {X A B C} (f : A -> B -> C) (g : X -> list A) (h : X -> list B) l :
  (forall x, length (h x) = length (g x)) ->
  zip_with f (flat_map g l) (flat_map h l) = flat_map (fun x => zip_with f (g x) (h x)) l.
Proof.
  intros H. induction l as [|x l IH]; [reflexivity|].
  cbn [flat_map]. rewrite <- IH. specialize (H x).
  revert H. generalize (flat_map g l) (flat_map h l). generalize (h x).
  induction (g x) as [|a ga IHg]; intros [|b hb] G Hh E; try discriminate E; [reflexivity|].
  cbn [app zip_with]. f_equal. apply IHg. cbn in E. lia.
Qed.

Lemma flat_map_length_const {X A} (g : X -> list A) n l :
  (forall x, length (g x) = n) -> length (flat_map g l) = (length l * n)%nat.
Proof.
  intros H. induction l as [|x l IH]; [reflexivity|].
  cbn [flat_map length]. rewrite length_app, IH, H. lia.
Qed.

Lemma first_n_char a :
  first_n character_bitlen (Split (ToInput a)) = Ok (map bit (bits6 a)).
Proof. reflexivity. Qed.

Lemma normal_position_row K T k :
  (1 <= length K)%nat -> (length K + k <= length T)%nat ->
  normal_position (map ToInput K) (map ToInput T) k
  = Ok (map bit (flat_map (fun c => xnor6 (nth c K 0) (nth (c + k) T 0))
                          (seq 0 (length K)))).
Proof.
  intros HK HT. unfold normal_position. rewrite length_map.
  rewrite (mapM_ok _ (fun c => (map bit (bits6 (nth c K 0)),
                                map bit (bits6 (nth (c + k) T 0))))).
  2:{ intros c Hc. apply in_seq in Hc.
      rewrite (at_map ToInput 0 K c) by lia. cbn [bind]. rewrite first_n_char. cbn [bind].
      rewrite (at_map ToInput 0 T (c + k)) by lia. cbn [bind]. rewrite first_n_char.
      reflexivity. }
  cbn [bind].
  rewrite !flat_map_concat_map, !map_map. cbn [fst snd].
  rewrite <- !flat_map_concat_map.
  rewrite <- !map_flat_map.
  assert (Hlen : forall h : nat -> Z,
             length (flat_map (fun c => bits6 (h c)) (seq 0 (length K)))
             = (length K * 6)%nat).
  { intros h. rewrite (flat_map_length_const _ 6), length_seq; [reflexivity|].
    intros x. unfold bits6. now rewrite length_map, length_seq. }
  pose proof (Hlen (fun c => nth c K 0)) as La.
  pose proof (Hlen (fun c => nth (c + k) T 0)) as Lb. cbv beta in La, Lb. clear Hlen.
  destruct (flat_map (fun c => bits6 (nth c K 0)) (seq 0 (length K))) as [|a0 al] eqn:Ea.
  { cbn in La. lia. }
  destruct (flat_map (fun c => bits6 (nth (c + k) T 0)) (seq 0 (length K))) as [|b0 bl] eqn:Eb.
  { cbn in Lb. lia. }
  rewrite !Concatenate_bits. cbn [bind].
  unfold sw_xor. rewrite gate2_lanes1 by congruence.
  cbn [bind]. rewrite sw_not_lanes1, Split_lanes1. do 2 f_equal.
  rewrite <- Ea, <- Eb.
  rewrite zip_with_flat_map.
  2:{ intros x. unfold bits6. now rewrite !length_map. }
  rewrite map_flat_map. apply flat_map_ext. intros c.
  unfold bits6, xnor6. rewrite zip_with_map, map_map. reflexivity.
Qed.

Lemma forallb_flat_map {X A} (p : A -> bool) (g : X -> list A) l :
  forallb p (flat_map g l) = forallb (fun x => forallb p (g x)) l.
Proof.
  induction l as [|x l IH]; [reflexivity|].
  cbn [flat_map forallb]. now rewrite forallb_app, IH.
Qed.

Lemma normal_compare_lanes K T :
  (1 <= length K <= length T)%nat -> size T < 2 ^ 31 ->
  normal_compare (map ToInput K) (map ToInput T) (size T - size K + 1)
  = Ok [normal_lanes K T].
Proof.
  intros HK HT. unfold normal_compare.
  set (P := Z.to_nat (size T - size K + 1)).
  assert (HP : (P = length T - length K + 1)%nat) by (subst P; unfold size; lia).
  set (row := fun k => flat_map (fun c => xnor6 (nth c K 0) (nth (c + k) T 0))
                                (seq 0 (length K))).
  rewrite (mapM_ok _ (fun k => map bit (row k))).
  2:{ intros k Hk. apply in_seq in Hk. apply normal_position_row; lia. }
  cbn [bind].
  assert (Hrow : forall k, length (row k) = S (length K * 6 - 1)).
  { intros k. subst row. cbv beta.
    rewrite (flat_map_length_const _ 6), length_seq; [lia|].
    intros c. unfold xnor6. now rewrite length_map, length_seq. }
  destruct P as [|p] eqn:EP; [lia|].
  cbn [seq map].
  rewrite (zip_rows_columns (bit false) (S (length K * 6 - 1))).
  2:{ apply Forall_forall. intros r Hr.
      change (map bit (row 0%nat) :: map (fun k => map bit (row k)) (seq 1 p))
        with (map (fun k => map bit (row k)) (seq 0 (S p))) in Hr.
      apply in_map_iff in Hr. destruct Hr as [k [<- _]]. now rewrite length_map. }
  cbn [bind].
  assert (ER : map bit (row 0%nat) :: map (fun k => map bit (row k)) (seq 1 p)
               = map (map bit) (row 0%nat :: map row (seq 1 p)))
    by (cbn [map]; now rewrite map_map).
  rewrite ER, simdify_columns. cbn [bind].
  rewrite and_reduce_columns.
  2:{ apply Forall_forall. intros r Hr.
      change (row 0%nat :: map row (seq 1 p)) with (map row (seq 0 (S p))) in Hr.
      apply in_map_iff in Hr. destruct Hr as [k [<- _]]. apply Hrow. }
  cbn [bind Split map]. unfold LowDepthReduce. cbn [length low_depth bind].
  change (assert (GetBitLength [forallb id (row 0%nat) :: map (forallb id) (map row (seq 1 p))]
                  =? 1)) with (Ok tt).
  cbn [bind]. do 2 f_equal.
  unfold normal_lanes. fold P. rewrite EP.
  change (forallb id (row 0%nat) :: map (forallb id) (map row (seq 1 p)))
    with (map (forallb id) (map row (seq 0 (S p)))).
  rewrite map_map. apply map_ext. intros k. subst row. cbv beta.
  rewrite forallb_flat_map. apply forallb_ext_in. intros c _. apply xnor6_eq.
Qed.

(** X1.  In normal mode, for a non-empty keyword no longer than the text,
    [search_result_per_email] is one wire with [|T| - |K| + 1] SIMD lanes:
    lane [k] tells whether the keyword agrees with the text at offset [k] on
    the low six bits of every character.  The OR of the lanes, which is the
    match, is not taken; with a single position the chained value is the
    match bit. *)
Theorem normal_mode_lanes :
  forall (K T : list Z) (j : nat) (chain : list ShareWrapper) (previous : ShareWrapper),
    (1 <= length K <= length T)%nat -> size T < 2 ^ 31 ->
    normal_compare (map ToInput K) (map ToInput T) (size T - size K + 1)
    = Ok [normal_lanes K T]
    /\ length (normal_lanes K T) = Z.to_nat (size T - size K + 1)
    /\ existsb id (normal_lanes K T) = normal_match K T
    /\ (length T = length K ->
        normal_target j chain (map ToInput K) (map ToInput T) previous
        = chain_result j chain previous (bit (normal_match K T))).
Proof.
  intros K T j chain previous HK HT.
  split; [now apply normal_compare_lanes|].
  split; [unfold normal_lanes; now rewrite length_map, length_seq|].
  split; [unfold normal_lanes, normal_match; apply existsb_id_map|].
  intros E. unfold normal_target. rewrite !size_ToInput.
  rewrite positions_of_exact by (unfold size in *; lia).
  replace (size T - size K + 1 <? 1) with false
    by (symmetry; apply Z.ltb_ge; unfold size; lia).
  rewrite normal_compare_lanes by assumption. cbn [bind].
  f_equal. unfold normal_lanes, normal_match.
  replace (Z.to_nat (size T - size K + 1)) with 1%nat by (unfold size; lia).
  cbn [seq map existsb]. now rewrite orb_false_r.
Qed.

Lemma normal_mode_lanes_witness :
  normal_compare (map ToInput [119; 111]) (map ToInput [104; 119; 111])
                 (size [104; 119; 111] - size [119; 111] + 1)
  = Ok [normal_lanes [119; 111] [104; 119; 111]].
Proof.
  apply (proj1 (normal_mode_lanes [119; 111] [104; 119; 111] 0 [] []
                  ltac:(cbn; lia) ltac:(cbn; lia))).
Defined.


(* ================================================================== *)
(** * Index mode *)
(* ================================================================== *)

Lemma filter_all {A} (p : A -> bool) l :
  Forall (fun a => p a = true) l -> filter p l = l.
Proof.
  intros H. induction H as [|a l Ha _ IH]; [reflexivity|].
  cbn [filter]. now rewrite Ha, IH.
Qed.

Lemma filter_none {A} (p : A -> bool) l :
  Forall (fun a => p a = false) l -> filter p l = [].
Proof.
  intros H. induction H as [|a l Ha _ IH]; [reflexivity|].
  cbn [filter]. now rewrite Ha.
Qed.

Section IndexMode.
Variables (K : list Z) (mask : list bool) (min : Z).
Hypothesis K_nonempty : (1 <= length K)%nat.
Hypothesis mask_long : (length K <= length mask)%nat.

Lemma index_first_pass_skipped b : forall ws zs acc,
  (fst b <? size K) = true ->
  foldM (index_first_pass_word (bucketed K mask) min (bucket_of b)) ws (zs, acc)
  = Ok (zs ++ repeat full_zero (length ws), acc).
Proof.
  induction ws as [|w ws IH]; intros zs acc E.
  - cbn. now rewrite app_nil_r.
  - cbn [foldM]. unfold index_first_pass_word at 1. destruct acc as [xs ms].
    cbn [bucket_of bi_bucket_size bucketed bucket_size]. rewrite E. cbn [bind].
    rewrite IH by exact E. cbn [length repeat]. now rewrite <- app_assoc.
Qed.

Lemma index_first_pass_searched b : forall Ws zs G0,
  (fst b <? size K) = false ->
  foldM (index_first_pass_word (bucketed K mask) min (bucket_of b))
        (map (map ToInput) Ws) (zs, (grid_xnors G0, grid_masks G0))
  = Ok (zs, (grid_xnors (G0 ++ flat_map (fun W => word_grid K mask W (positions_of (size W) min)) Ws),
             grid_masks (G0 ++ flat_map (fun W => word_grid K mask W (positions_of (size W) min)) Ws))).
Proof.
  induction Ws as [|W Ws IH]; intros zs G0 E.
  - cbn. now rewrite app_nil_r.
  - cbn [map foldM]. unfold index_first_pass_word at 1.
    cbn [bucket_of bi_bucket_size bucketed bucket_size]. rewrite E.
    rewrite size_ToInput, compare_word_grid by exact mask_long.
    cbn [bind]. fold (grid_xnors (word_grid K mask W (positions_of (size W) min))).
    fold (grid_masks (word_grid K mask W (positions_of (size W) min))).
    rewrite grid_xnors_app, grid_masks_app, IH by exact E.
    cbn [flat_map]. now rewrite <- app_assoc.
Qed.

Lemma index_first_pass_from : forall idx zs G0,
  foldM (fun st target_bucket =>
           foldM (index_first_pass_word (bucketed K mask) min target_bucket)
                 (words target_bucket) st)
        (map bucket_of idx) (zs, (grid_xnors G0, grid_masks G0))
  = Ok (zs ++ repeat full_zero (length (flat_map snd (skipped (size K) idx))),
        (grid_xnors (G0 ++ mail_grid K mask min idx),
         grid_masks (G0 ++ mail_grid K mask min idx))).
Proof.
  induction idx as [|b idx IH]; intros zs G0.
  - cbn. now rewrite !app_nil_r.
  - cbn [map foldM]. unfold mail_grid, skipped, retained. cbn [filter].
    destruct (fst b <? size K) eqn:E; cbn [negb].
    + change (words (bucket_of b)) with (map (map ToInput) (snd b)).
      rewrite index_first_pass_skipped by exact E. cbn [bind].
      rewrite IH. cbn [flat_map]. rewrite length_app, repeat_app, length_map.
      unfold mail_grid, retained, skipped. now rewrite <- app_assoc.
    + change (words (bucket_of b)) with (map (map ToInput) (snd b)).
      rewrite index_first_pass_searched by exact E. cbn [bind].
      rewrite IH. cbn [flat_map].
      unfold mail_grid, retained, skipped. now rewrite <- app_assoc.
Qed.

Lemma index_first_pass_grid idx :
  index_first_pass (bucketed K mask) min (map bucket_of idx)
  = Ok (repeat full_zero (length (flat_map snd (skipped (size K) idx))),
        (grid_xnors (mail_grid K mask min idx), grid_masks (mail_grid K mask min idx))).
Proof. apply (index_first_pass_from idx [] []). Qed.

Lemma index_second_pass_from L : forall idx pre post acc,
  L = map bit (pre ++ flat_map (bucket_results K mask min) (retained (size K) idx) ++ post) ->
  (forall b, In b (retained (size K) idx) ->
             forall W, In W (snd b) -> 1 <= positions_of (size W) min) ->
  foldM (index_second_pass_bucket (bucketed K mask) min L) (map bucket_of idx)
        (acc, length pre)
  = Ok (acc ++ map (word_bit K mask min) (flat_map snd (retained (size K) idx)),
        (length pre
         + length (flat_map (bucket_results K mask min) (retained (size K) idx)))%nat).
Proof.
  induction idx as [|b idx IH]; intros pre post acc HL HP.
  - cbn. now rewrite app_nil_r, Nat.add_0_r.
  - cbn [map foldM]. unfold index_second_pass_bucket at 1.
    cbn [bucket_of bi_bucket_size words bucketed bucket_size].
    unfold retained in *. cbn [filter] in *.
    destruct (fst b <? size K) eqn:E; cbn [negb] in *.
    + cbn [bind]. apply (IH pre post acc HL HP).
    + cbn [flat_map] in HL.
      unfold second_pass_words.
      rewrite (second_pass_words_from K mask min L (snd b) pre
                 (flat_map (bucket_results K mask min)
                           (filter (fun b => negb (fst b <? size K)) idx) ++ post)
                 []).
      2:{ rewrite HL. unfold bucket_results at 1. now rewrite <- !app_assoc. }
      2:{ apply HP. now left. }
      cbn [bind app].
      fold (bucket_results K mask min b) in *.
      specialize (IH (pre ++ bucket_results K mask min b) post
                     (acc ++ map (word_bit K mask min) (snd b))).
      rewrite length_app in IH. rewrite IH.
      * cbn [flat_map]. rewrite map_app, <- app_assoc, length_app.
        f_equal. f_equal. lia.
      * rewrite HL. now rewrite <- !app_assoc.
      * intros b' Hb'. apply HP. now right.
Qed.

Lemma index_compare_built idx :
  index_searchable K min idx ->
  index_compare (bucketed K mask) min (map bucket_of idx)
  = Ok (index_results_built K mask min idx).
Proof.
  intros [HP Hne]. unfold index_compare.
  rewrite index_first_pass_grid. cbn [bind].
  pose proof (mail_grid_results K mask min idx) as ER.
  assert (Hrows : Forall (fun r => length r = length K) (mail_grid K mask min idx)).
  { unfold mail_grid. apply Forall_flat_map. intros b _.
    apply Forall_flat_map. intros W _. apply word_grid_rows. }
  assert (Hcells : Forall (Forall (fun c : cell => length (fst c) = character_bitlen))
                          (mail_grid K mask min idx)).
  { unfold mail_grid. apply Forall_flat_map. intros b _.
    apply Forall_flat_map. intros W _. apply word_grid_cells. }
  destruct (mail_grid K mask min idx) as [|row grid] eqn:EG.
  { exfalso. apply Hne.
    destruct (flat_map snd (retained (size K) idx)) as [|W Ws] eqn:EW; [reflexivity|].
    assert (HW : In W (flat_map snd (retained (size K) idx))) by (rewrite EW; now left).
    apply in_flat_map in HW. destruct HW as [b [Hb HW]].
    assert (Hin : forall r, In r (word_grid K mask W (positions_of (size W) min)) ->
                            In r (mail_grid K mask min idx)).
    { intros r Hr. unfold mail_grid. apply in_flat_map. exists b. split; [exact Hb|].
      apply in_flat_map. exists W. split; assumption. }
    specialize (HP b Hb W HW).
    destruct (word_grid K mask W (positions_of (size W) min)) as [|r rs] eqn:Eg.
    - unfold word_grid in Eg. apply map_eq_nil in Eg.
      assert (L : length (seq 0 (Z.to_nat (positions_of (size W) min))) = O)
        by (now rewrite Eg).
      rewrite length_seq in L. lia.
    - specialize (Hin r (or_introl eq_refl)). rewrite EG in Hin. destruct Hin. }
  unfold grid_xnors, grid_masks.
  assert (EK : exists k, length K = S k) by (exists (length K - 1)%nat; lia).
  destruct EK as [k EK]. rewrite EK in Hrows.
  rewrite (batch_compare_grid _ 5 k); auto.
  2:{ cbn [search_keyword bucketed]. now rewrite length_map. }
  cbn [bind].
  rewrite <- (map_map (forallb cell_ok) bit), ER.
  unfold index_second_pass.
  rewrite (index_second_pass_from _ idx [] []); auto.
  cbn [app]. now rewrite app_nil_r.
Qed.

Lemma index_results_ascending small big :
  Forall (fun b => fst b < size K) small ->
  Forall (fun b => size K <= fst b) big ->
  index_results_built K mask min (small ++ big)
  = index_results_in_order K mask min (small ++ big).
Proof.
  intros Hs Hb. unfold index_results_built, index_results_in_order, skipped, retained.
  rewrite !filter_app, !flat_map_app.
  rewrite (filter_all _ small), (filter_none _ small), (filter_none _ big), (filter_all _ big).
  - cbn [flat_map app]. rewrite app_nil_r. f_equal.
    + induction Hs as [|b l H _ IH]; [reflexivity|].
      cbn [flat_map]. rewrite length_app, repeat_app, IH. f_equal.
      apply Z.ltb_lt in H. rewrite H.
      generalize (snd b). intros ws. induction ws; cbn; congruence.
    + induction Hb as [|b l H _ IH]; [reflexivity|].
      cbn [flat_map]. rewrite map_app, IH. f_equal.
      apply Z.ltb_ge in H. now rewrite H.
  - apply Forall_forall. intros b Hin. rewrite Forall_forall in Hb.
    specialize (Hb b Hin). apply Z.ltb_ge in Hb. now rewrite Hb.
  - apply Forall_forall. intros b Hin. rewrite Forall_forall in Hb.
    specialize (Hb b Hin). now apply Z.ltb_ge in Hb.
  - apply Forall_forall. intros b Hin. rewrite Forall_forall in Hs.
    specialize (Hs b Hin). apply Z.ltb_lt in Hs. now rewrite Hs.
  - apply Forall_forall. intros b Hin. rewrite Forall_forall in Hs.
    specialize (Hs b Hin). now apply Z.ltb_lt in Hs.
Qed.
End IndexMode.



Lemma words_partition (B : Z) (idx : list plain_bucket) :
  (length (flat_map snd (skipped B idx)) + length (flat_map snd (retained B idx))
   = length (flat_map snd idx))%nat.
Proof.
  unfold skipped, retained. induction idx as [|b idx IH]; [reflexivity|].
  cbn [filter flat_map]. destruct (fst b <? B); cbn [negb flat_map];
    rewrite !length_app; lia.
Qed.

(** X4.  In index mode, when every searched word has a position and there is
    one, the vector of a keyword has one wire per indexed word: the zero
    wires of the words of the skipped buckets first, then the match bits of
    the words of the searched buckets.  This is the order of the index when
    the buckets smaller than the keyword's come first. *)
Theorem index_mode_results :
  forall (K : list Z) (mask : list bool) (min_keyword_length : Z) (idx : list plain_bucket),
    (1 <= length K)%nat -> (length K <= length mask)%nat ->
    index_searchable K min_keyword_length idx ->
    index_compare (bucketed K mask) min_keyword_length (map bucket_of idx)
    = Ok (index_results_built K mask min_keyword_length idx)
    /\ length (index_results_built K mask min_keyword_length idx)
       = length (flat_map snd idx)
    /\ (forall small big,
           idx = small ++ big ->
           Forall (fun b => fst b < size K) small ->
           Forall (fun b => size K <= fst b) big ->
           index_results_built K mask min_keyword_length idx
           = index_results_in_order K mask min_keyword_length idx).
Proof.
  intros K mask min idx HK Hm Hs. split; [|split].
  - now apply index_compare_built.
  - unfold index_results_built. rewrite length_app, repeat_length, length_map.
    apply words_partition.
  - intros small big -> H1 H2. now apply index_results_ascending.
Qed.

Lemma index_mode_results_witness :
  index_compare
    (bucketed [106; 97; 118; 97] [true; true; true; true; false; false; false; false]) 1
    (map bucket_of [(4, [[106; 97; 118; 97]; [112; 101; 114; 108]]);
                    (8, [[115; 121; 115; 116; 101; 109; 115; 0]])])
  = Ok (index_results_built
          [106; 97; 118; 97] [true; true; true; true; false; false; false; false] 1
          [(4, [[106; 97; 118; 97]; [112; 101; 114; 108]]);
           (8, [[115; 121; 115; 116; 101; 109; 115; 0]])]).
Proof.
  apply (proj1 (index_mode_results
                  [106; 97; 118; 97] [true; true; true; true; false; false; false; false] 1
                  [(4, [[106; 97; 118; 97]; [112; 101; 114; 108]]);
                   (8, [[115; 121; 115; 116; 101; 109; 115; 0]])]
                  ltac:(cbn; lia) ltac:(cbn; lia)
                  ltac:(split; [intros b [<- | [<- | []]] W;
                                [intros [<- | [<- | []]] | intros [<- | []]];
                                vm_compute; discriminate
                               | discriminate]))).
Defined.


(* ================================================================== *)
(** * Bits and bytes *)
(* ================================================================== *)

Lemma concatenate_bit_output out l : forall o tmp,
  foldM concatenate_bit l (out ++ o, tmp)
  = ('(o', tmp') <- foldM concatenate_bit l (o, tmp) ;; Ok (out ++ o', tmp')).
Proof.
  induction l as [|x l IH]; intros o tmp; [reflexivity|].
  cbn [foldM]. unfold concatenate_bit at 1 3.
  destruct (assert (GetBitLength x =? 1)) as [[]|e]; cbn [bind]; [|reflexivity].
  destruct (size (tmp ++ [x]) =? 8).
  - destruct (Concatenate (rev (tmp ++ [x]))) as [byte|e]; cbn [bind]; [|reflexivity].
    rewrite <- app_assoc. apply IH.
  - apply IH.
Qed.

Lemma concatenate_bit_push out tmp x :
  GetBitLength x = 1 -> (length tmp < 7)%nat ->
  concatenate_bit (out, tmp) x = Ok (out, tmp ++ [x]).
Proof.
  intros Hx Ht. unfold concatenate_bit. rewrite Hx. cbn [Z.eqb Pos.eqb assert bind].
  replace (size (tmp ++ [x]) =? 8) with false; [reflexivity|].
  symmetry. apply Z.eqb_neq. unfold size. rewrite length_app. cbn [length]. lia.
Qed.

Lemma concatenate_bit_full out tmp x :
  GetBitLength x = 1 -> length tmp = 7%nat ->
  concatenate_bit (out, tmp) x = Ok (out ++ [concat (rev (tmp ++ [x]))], []).
Proof.
  intros Hx Ht. unfold concatenate_bit. rewrite Hx. cbn [Z.eqb Pos.eqb assert bind].
  replace (size (tmp ++ [x]) =? 8) with true.
  - rewrite rev_app_distr. reflexivity.
  - symmetry. apply Z.eqb_eq. unfold size. rewrite length_app, Ht. reflexivity.
Qed.

Lemma concatenate_eight (s0 s1 s2 s3 s4 s5 s6 s7 : ShareWrapper) l out :
  Forall (fun s => GetBitLength s = 1) [s0; s1; s2; s3; s4; s5; s6; s7] ->
  foldM concatenate_bit (s0 :: s1 :: s2 :: s3 :: s4 :: s5 :: s6 :: s7 :: l) (out, [])
  = foldM concatenate_bit l
          (out ++ [s7 ++ s6 ++ s5 ++ s4 ++ s3 ++ s2 ++ s1 ++ s0], []).
Proof.
  intros H.
  repeat (apply Forall_cons_iff in H; destruct H as [?H H]).
  cbn [foldM].
  do 7 (rewrite concatenate_bit_push by (assumption || (cbn; lia)); cbn [bind app]).
  rewrite concatenate_bit_full by (assumption || reflexivity). cbn [bind].
  cbn [app rev concat]. rewrite !app_nil_r. reflexivity.
Qed.

(** Induction on a list in steps of eight. *)
Lemma list_ind_8 {A} (P : list A -> Prop) :
  (forall l, (length l < 8)%nat -> P l) ->
  (forall a0 a1 a2 a3 a4 a5 a6 a7 l,
      P l -> P (a0 :: a1 :: a2 :: a3 :: a4 :: a5 :: a6 :: a7 :: l)) ->
  forall l, P l.
Proof.
  intros Hshort Hstep l.
  remember (length l) as n eqn:Hn. revert l Hn.
  induction n as [n IH] using lt_wf_ind. intros l Hn.
  destruct (Nat.lt_ge_cases (length l) 8) as [Hlt|Hge]; [apply Hshort, Hlt|].
  do 8 (destruct l as [|? l]; [cbn in Hge; lia|]).
  apply Hstep. apply (IH (length l)); [cbn in Hn; lia|reflexivity].
Qed.

Lemma splitTo1bitShareWrappers_cons x l :
  splitTo1bitShareWrappers (x :: l)
  = (_ <- assert (GetBitLength x =? 8) ;;
     rest <- splitTo1bitShareWrappers l ;; Ok (rev (Split x) ++ rest)).
Proof.
  unfold splitTo1bitShareWrappers. cbn [mapM].
  destruct (assert (GetBitLength x =? 8)) as [[]|e]; cbn [bind]; [|reflexivity].
  destruct (mapM _ l) as [ps|e]; reflexivity.
Qed.

(** X5.  Splitting 8-bit shares into bits and concatenating the bits gives the
    shares back. *)
Theorem split_then_concatenate :
  forall (input : list ShareWrapper) (zero : ShareWrapper),
    Forall (fun input_byte => GetBitLength input_byte = 8) input ->
    (bits <- splitTo1bitShareWrappers input ;;
     concatenateTo8bitSecureUnsignedIntegers bits zero) = Ok input.
Proof.
  intros input zero H.
  assert (G : forall out,
             (bits <- splitTo1bitShareWrappers input ;;
              foldM concatenate_bit bits (out, [])) = Ok (out ++ input, [])).
  { induction H as [|x l Hx Hl IH]; intros out.
    - cbn. rewrite app_nil_r. reflexivity.
    - rewrite splitTo1bitShareWrappers_cons, Hx. cbn [Z.eqb Pos.eqb assert bind].
      specialize (IH (out ++ [x])).
      destruct (splitTo1bitShareWrappers l) as [rest|e]; cbn [bind] in *; [|discriminate].
      unfold GetBitLength, size in Hx.
      do 8 (destruct x as [|? x]; [cbn in Hx; lia|]).
      destruct x; [|cbn in Hx; lia].
      cbn [Split map rev app].
      rewrite concatenate_eight by (repeat constructor).
      cbn [app]. rewrite <- app_assoc in IH. exact IH. }
  specialize (G []).
  unfold concatenateTo8bitSecureUnsignedIntegers.
  destruct (splitTo1bitShareWrappers input) as [bits|e]; cbn [bind] in *; [|discriminate].
  rewrite G. reflexivity.
Qed.

Lemma split_then_concatenate_witness :
  (bits <- splitTo1bitShareWrappers [ToInput 65; ToInput 200] ;;
   concatenateTo8bitSecureUnsignedIntegers bits full_zero)
  = Ok [ToInput 65; ToInput 200].
Proof.
  apply split_then_concatenate. repeat constructor.
Defined.

Lemma concatenateTo8bit_eight (a0 a1 a2 a3 a4 a5 a6 a7 : bool) l zero :
  concatenateTo8bitSecureUnsignedIntegers
    (map bit (a0 :: a1 :: a2 :: a3 :: a4 :: a5 :: a6 :: a7 :: l)) zero
  = (rest <- concatenateTo8bitSecureUnsignedIntegers (map bit l) zero ;;
     Ok ([[a7]; [a6]; [a5]; [a4]; [a3]; [a2]; [a1]; [a0]] :: rest)).
Proof.
  unfold concatenateTo8bitSecureUnsignedIntegers. cbn [map].
  rewrite concatenate_eight by (repeat constructor).
  change ([] ++ [bit a7 ++ bit a6 ++ bit a5 ++ bit a4 ++ bit a3 ++ bit a2 ++ bit a1 ++ bit a0])
    with ([[[a7]; [a6]; [a5]; [a4]; [a3]; [a2]; [a1]; [a0]]] ++ @nil ShareWrapper).
  rewrite concatenate_bit_output.
  destruct (foldM concatenate_bit (map bit l) ([], [])) as [[o tmp]|e]; cbn [bind];
    [|reflexivity].
  destruct tmp as [|t tmp]; [reflexivity|].
  destruct (Concatenate _) as [byte|e]; reflexivity.
Qed.

(** X6.  Concatenating bits into bytes pads the last byte with zeros on the side
    of the low bits; splitting the bytes gives the padded bits back. *)
Theorem concatenate_then_split :
  forall bits : list bool,
    exists bytes : list ShareWrapper,
      concatenateTo8bitSecureUnsignedIntegers (map bit bits) full_zero = Ok bytes
      /\ length bytes = ((length bits + 7) / 8)%nat
      /\ splitTo1bitShareWrappers bytes
         = Ok (map bit (bits ++ repeat false ((8 - length bits mod 8) mod 8))).
Proof.
  induction bits as [bits Hshort|a0 a1 a2 a3 a4 a5 a6 a7 bits IH] using list_ind_8.
  - do 8 (destruct bits as [|? bits];
          [eexists; split; [reflexivity|split; reflexivity]|]).
    cbn in Hshort. lia.
  - destruct IH as (bytes & Hc & Hl & Hs).
    exists ([[a7]; [a6]; [a5]; [a4]; [a3]; [a2]; [a1]; [a0]] :: bytes).
    split; [|split].
    + rewrite concatenateTo8bit_eight, Hc. reflexivity.
    + cbn [length]. rewrite Hl.
      replace (S (S (S (S (S (S (S (S (length bits)))))))) + 7)%nat
        with (length bits + 7 + 1 * 8)%nat by lia.
      rewrite Nat.div_add by lia. lia.
    + rewrite splitTo1bitShareWrappers_cons, Hs.
      cbn [length].
      replace (S (S (S (S (S (S (S (S (length bits)))))))))
        with (length bits + 1 * 8)%nat by lia.
      rewrite Nat.Div0.mod_add. reflexivity.
Qed.

Lemma std_find_In l x : In x l -> exists i, std_find l x = Some i /\ nth i l 0 = x
                                           /\ (i < length l)%nat.
Proof.
  induction l as [|y l IH]; intros H; [destruct H|].
  cbn [std_find]. destruct (y =? x) eqn:E.
  - exists O. apply Z.eqb_eq in E. cbn. repeat split; [exact E|lia].
  - destruct H as [H|H]; [apply Z.eqb_neq in E; contradiction|].
    destruct (IH H) as (i & Hi & Hn & Hl). exists (S i). rewrite Hi.
    cbn. repeat split; [exact Hn|lia].
Qed.

Lemma ascending_scheme_nth : forall scheme i j,
  ascending_scheme scheme -> (i < j)%nat -> (j < length scheme)%nat ->
  nth i scheme 0 < nth j scheme 0.
Proof.
  induction scheme as [|b scheme IH]; intros i j H Hij Hj; [cbn in Hj; lia|].
  destruct H as (Hb & Hlt & Hs).
  destruct j as [|j]; [lia|]. cbn in Hj.
  destruct i as [|i].
  - cbn. rewrite Forall_forall in Hlt. apply Hlt, nth_In. lia.
  - cbn. apply IH; [exact Hs|lia|lia].
Qed.

Lemma ascending_scheme_range : forall scheme b,
  ascending_scheme scheme -> In b scheme -> 1 <= b < 2 ^ 32.
Proof.
  induction scheme as [|b' scheme IH]; intros b H Hin; [destruct Hin|].
  destruct H as (Hb & _ & Hs). destruct Hin as [<-|Hin]; [exact Hb|exact (IH _ Hs Hin)].
Qed.

(** X7.  On an ascending bucket scheme, the minimum keyword length of a bucket
    lies between 1 and the bucket size, no bucket size lies between it and
    the bucket size, and it is 1 or follows a bucket size. *)
Theorem getMinKeywordLength_ascending :
  forall (bucket_scheme : list Z) (bucket_size : Z),
    ascending_scheme bucket_scheme -> In bucket_size bucket_scheme ->
    exists min_keyword_length,
      getMinKeywordLength bucket_size bucket_scheme = Ok min_keyword_length
      /\ 1 <= min_keyword_length <= bucket_size
      /\ (forall b, In b bucket_scheme -> b < min_keyword_length \/ bucket_size <= b)
      /\ (min_keyword_length = 1 \/ In (min_keyword_length - 1) bucket_scheme).
Proof.
  intros scheme B Hasc Hin.
  destruct (std_find_In _ _ Hin) as (i & Hi & Hn & Hl).
  unfold getMinKeywordLength. rewrite Hi.
  assert (HB := ascending_scheme_range _ _ Hasc Hin).
  destruct i as [|i].
  - exists 1. split; [reflexivity|]. split; [lia|]. split; [|left; reflexivity].
    intros b Hb. right.
    destruct (In_nth _ _ 0 Hb) as (j & Hj & <-).
    destruct j as [|j]; [lia|].
    assert (nth 0 scheme 0 < nth (S j) scheme 0)
      by (apply ascending_scheme_nth; [assumption|lia|lia]).
    lia.
  - assert (Hprev : In (nth i scheme 0) scheme) by (apply nth_In; lia).
    assert (Hp := ascending_scheme_range _ _ Hasc Hprev).
    assert (Hlt : nth i scheme 0 < B).
    { rewrite <- Hn. apply ascending_scheme_nth; [assumption|lia|lia]. }
    assert (Hu : u32 (nth i scheme 0 + 1) = nth i scheme 0 + 1).
    { unfold u32. apply Z.mod_small. lia. }
    exists (nth i scheme 0 + 1). rewrite Hu. split; [reflexivity|].
    split; [lia|]. split.
    + intros b Hb. destruct (In_nth _ _ 0 Hb) as (j & Hj & <-).
      destruct (Nat.lt_trichotomy j i) as [Hji|[->|Hji]].
      * left. assert (nth j scheme 0 < nth i scheme 0)
          by (apply ascending_scheme_nth; [assumption|lia|lia]). lia.
      * left. lia.
      * right. destruct (Nat.eq_dec j (S i)) as [->|Hne]; [lia|].
        assert (nth (S i) scheme 0 < nth j scheme 0)
          by (apply ascending_scheme_nth; [assumption|lia|lia]). lia.
    + right. replace (nth i scheme 0 + 1 - 1) with (nth i scheme 0) by lia. exact Hprev.
Qed.

Lemma getMinKeywordLength_ascending_witness :
  exists min_keyword_length,
    getMinKeywordLength 8 [4; 8; 16] = Ok min_keyword_length
    /\ 1 <= min_keyword_length <= 8
    /\ (forall b, In b [4; 8; 16] -> b < min_keyword_length \/ 8 <= b)
    /\ (min_keyword_length = 1 \/ In (min_keyword_length - 1) [4; 8; 16]).
Proof.
  apply getMinKeywordLength_ascending.
  - cbn. repeat split; try lia; repeat constructor; lia.
  - cbn. auto.
Defined.

Lemma splitTo1bitShareWrappers_bits bytes :
  splitTo1bitShareWrappers (map ToInput bytes) = Ok (map bit (flat_map msb_first bytes)).
Proof.
  induction bytes as [|b bytes IH]; [reflexivity|].
  cbn [map]. rewrite splitTo1bitShareWrappers_cons, IH.
  cbn [flat_map]. rewrite map_app. reflexivity.
Qed.

Lemma getBucketedKeywordInput_plain :
  forall (search_queries : list search_query) (plain : list (list Z * list Z)),
    Forall2 (fun q p => query_plain q (fst p) (snd p)) search_queries plain ->
    getBucketedKeywordInput search_queries
    = if forallb (fun qp => sq_bucket_size (fst qp) =? size (fst (snd qp)))
                 (combine search_queries plain)
      then Ok (map (fun p => bucketed (fst p) (flat_map msb_first (snd p))) plain)
      else Err assert_failed.
Proof.
  intros qs plain H. unfold getBucketedKeywordInput.
  induction H as [|q [K Mb] qs plain [HK HM] Hrest IH]; [reflexivity|].
  cbn [fst snd] in HK, HM.
  cbn [mapM combine forallb fst snd map].
  rewrite (base64StringToInput_plaintext _ _ HK), (base64StringToInput_plaintext _ _ HM).
  cbn [bind]. rewrite splitTo1bitShareWrappers_bits. cbn [bind].
  unfold size at 1. rewrite length_map. fold (size K).
  destruct (sq_bucket_size q =? size K) eqn:E; [|reflexivity].
  cbn [assert bind andb]. rewrite IH.
  apply Z.eqb_eq in E.
  destruct (forallb _ (combine qs plain)); [|reflexivity].
  cbn [bind]. unfold bucketed. rewrite E. reflexivity.
Qed.

(* ================================================================== *)
(** * The search as a whole *)
(* ================================================================== *)

Lemma chain_first (bits : list bool) previous (m : bool) :
  (0 < length bits)%nat ->
  chain_result 0 (map bit bits) previous (bit m) = Ok (bit (xorb m (nth 0 bits false))).
Proof.
  intros H. unfold chain_result. rewrite (at_map bit false bits 0) by lia. reflexivity.
Qed.

Lemma chain_next j (bits : list bool) (r m : bool) :
  (2 * S j < length bits)%nat ->
  chain_result (S j) (map bit bits) (bit r) (bit m)
  = Ok (bit (CHAIN r m (nth (2 * S j - 1) bits false) (nth (2 * S j) bits false))).
Proof.
  intros H. unfold chain_result.
  rewrite (at_map bit false bits (2 * S j - 1)) by lia.
  rewrite (at_map bit false bits (2 * S j)) by lia. reflexivity.
Qed.

Lemma mapM_ext_in {A B} (f g : A -> result B) l :
  (forall a, In a l -> f a = g a) -> mapM f l = mapM g l.
Proof.
  induction l as [|a l IH]; intros H; [reflexivity|].
  cbn [mapM]. rewrite (H a (or_introl eq_refl)), IH; [reflexivity|].
  intros; apply H; now right.
Qed.

Lemma mapM_map {A B C} (f : B -> result C) (g : A -> B) l :
  mapM f (map g l) = mapM (fun a => f (g a)) l.
Proof.
  induction l as [|a l IH]; [reflexivity|]. cbn [map mapM]. now rewrite IH.
Qed.

Lemma combine_map_l {A B C} (f : A -> B) (l : list A) (l' : list C) :
  combine (map f l) l' = map (fun ac => (f (fst ac), snd ac)) (combine l l').
Proof.
  revert l'. induction l as [|a l IH]; intros [|c l']; try reflexivity.
  cbn [map combine fst snd]. now rewrite IH.
Qed.

Lemma combine_map_r {A B C} (f : B -> C) (l : list A) (l' : list B) :
  combine l (map f l') = map (fun ab => (fst ab, f (snd ab))) (combine l l').
Proof.
  revert l'. induction l as [|a l IH]; intros [|c l']; try reflexivity.
  cbn [map combine fst snd]. now rewrite IH.
Qed.

Lemma combine_diag {A} (l : list A) : combine l l = map (fun a => (a, a)) l.
Proof. induction l as [|a l IH]; [reflexivity|]. cbn. now rewrite IH. Qed.

Lemma foldM_ext {A S} (f g : S -> A -> result S) l :
  (forall s a, f s a = g s a) -> forall s, foldM f l s = foldM g l s.
Proof.
  intros H. induction l as [|a l IH]; intros s; [reflexivity|].
  cbn [foldM]. rewrite H. destruct (g s a); cbn [bind]; auto.
Qed.

Lemma chain_first_targets {T} (f : T -> bool) (bits : list bool) : forall ts rs,
  (0 < length bits)%nat -> length rs = length ts ->
  mapM (fun tp => chain_result 0 (map bit bits) (snd tp) (bit (f (fst tp))))
       (combine ts rs)
  = Ok (map (fun t => bit (xorb (f t) (nth 0 bits false))) ts).
Proof.
  induction ts as [|t ts IH]; intros [|r rs] Hb Hl; try discriminate; [reflexivity|].
  cbn [combine mapM fst snd map]. rewrite chain_first by exact Hb. cbn [bind].
  rewrite IH by (auto; cbn in Hl; lia). reflexivity.
Qed.

(** ** The rounds of the keywords *)

Section Rounds.
Context {K P T : Type}.
Variables (enc : P -> K) (m : P -> T -> bool) (targets : list T) (bits : list bool).
Variable round : nat -> K -> list ShareWrapper -> result (list ShareWrapper).

Lemma first_round p results :
  chained_round enc m targets bits round [p] -> (0 < length bits)%nat ->
  length results = length targets ->
  round 0 (enc p) results
  = Ok (map (fun t => bit (xorb (m p t) (nth 0 bits false))) targets).
Proof.
  intros H Hb Hl. rewrite H by (auto; now left).
  apply chain_first_targets; assumption.
Qed.

Lemma next_round j p (r : T -> bool) :
  chained_round enc m targets bits round [p] -> (2 * S j < length bits)%nat ->
  round (S j) (enc p) (map (fun t => bit (r t)) targets)
  = Ok (map (fun t => bit (CHAIN (r t) (m p t) (nth (2 * S j - 1) bits false)
                                 (nth (2 * S j) bits false))) targets).
Proof.
  intros H Hb. rewrite H by (try (now left); now rewrite length_map).
  rewrite combine_map_r, combine_diag, map_map, mapM_map. cbn [fst snd].
  apply mapM_ok. intros t _. apply chain_next, Hb.
Qed.

Lemma chained_round_incl plain plain' :
  (forall p, In p plain' -> In p plain) ->
  chained_round enc m targets bits round plain ->
  chained_round enc m targets bits round plain'.
Proof. intros Hi H j p results Hp. apply H, Hi, Hp. Qed.

Lemma rounds_from : forall plain j (r : T -> bool),
  chained_round enc m targets bits round plain ->
  (2 * (j + length plain) < length bits)%nat ->
  foldM (fun results jk => round (fst jk) (snd jk) results)
        (combine (seq (S j) (length plain)) (map enc plain))
        (map (fun t => bit (r t)) targets)
  = Ok (map (fun t => bit (chain_onto bits (S j) (r t) (map (fun p => m p t) plain)))
            targets).
Proof.
  induction plain as [|p plain IH]; intros j r H Hb; [reflexivity|].
  cbn [length seq map combine foldM fst snd].
  rewrite next_round.
  2:{ apply (chained_round_incl (p :: plain)); [|exact H].
      intros p' [->|[]]. now left. }
  2:{ cbn [length] in Hb. lia. }
  cbn [bind].
  rewrite (IH (S j)).
  - reflexivity.
  - apply (chained_round_incl (p :: plain)); [|exact H]. intros p' Hp. now right.
  - cbn [length] in Hb. lia.
Qed.

Lemma for_each_keyword_chained plain results :
  chained_round enc m targets bits round plain -> plain <> [] ->
  (2 * length plain - 1 <= length bits)%nat ->
  length results = length targets ->
  for_each_keyword round (map enc plain) results
  = Ok (map (fun t => bit (chained bits (map (fun p => m p t) plain))) targets).
Proof.
  intros H Hne Hb Hl. destruct plain as [|p plain]; [contradiction|].
  unfold for_each_keyword.
  rewrite (foldM_ext _ (fun results jk => round (fst jk) (snd jk) results)).
  2:{ intros s [j kw]. reflexivity. }
  rewrite length_map. cbn [length seq map combine foldM fst snd].
  rewrite first_round.
  2:{ apply (chained_round_incl (p :: plain)); [|exact H].
      intros p' [->|[]]. now left. }
  2:{ cbn [length] in Hb. lia. }
  2:{ exact Hl. }
  cbn [bind].
  rewrite <- (length_map enc plain), (length_map enc plain).
  rewrite (rounds_from plain 0).
  - reflexivity.
  - apply (chained_round_incl (p :: plain)); [|exact H]. intros p' Hp. now right.
  - cbn [length] in Hb. lia.
Qed.

End Rounds.

Lemma flat_map_msb_first_length bytes :
  length (flat_map msb_first bytes) = (8 * length bytes)%nat.
Proof.
  induction bytes as [|b bytes IH]; [reflexivity|].
  cbn [flat_map]. rewrite length_app, IH. unfold msb_first.
  rewrite length_map, length_rev, length_seq. cbn [length]. lia.
Qed.

Lemma word_match_masked K mask W min :
  1 <= min <= 2 ^ 31 -> size W < 2 ^ 31 ->
  word_match K mask W (positions_of (size W) min) = masked_match K mask min W.
Proof.
  intros Hmin HW.
  rewrite positions_of_exact by (unfold size in *; lia).
  unfold word_match, word_grid, masked_match.
  rewrite <- existsb_id_map, map_map, existsb_id_map.
  apply existsb_ext_in. intros t _. rewrite forallb_map.
  apply forallb_ext_in. intros c _. rewrite cell_ok_word_cell.
  destruct (nth c mask false), (length W <=? c + t)%nat, (char_eq _ _); reflexivity.
Qed.

Lemma min_length_range bucket_scheme bucket_size :
  Forall (fun b => 0 <= b < 2 ^ 31) bucket_scheme -> In bucket_size bucket_scheme ->
  getMinKeywordLength bucket_size bucket_scheme = Ok (min_length bucket_scheme bucket_size)
  /\ 1 <= min_length bucket_scheme bucket_size <= 2 ^ 31.
Proof.
  intros Hs Hin. unfold min_length, getMinKeywordLength.
  destruct (std_find_In _ _ Hin) as (i & Hi & Hn & Hl). rewrite Hi.
  destruct i as [|i]; [split; [reflexivity|lia]|].
  split; [reflexivity|].
  assert (Hp : 0 <= nth i bucket_scheme 0 < 2 ^ 31).
  { rewrite Forall_forall in Hs. apply Hs, nth_In. lia. }
  unfold u32. rewrite Z.mod_small; lia.
Qed.

Lemma chain_long_enough_bits {K} (bits : list bool) (kws : list K) :
  (2 * length kws - 1 <= length bits)%nat -> kws <> [] ->
  chain_long_enough (map bit bits) kws = true.
Proof.
  intros H Hne. unfold chain_long_enough. apply Z.leb_le.
  destruct kws as [|k kws]; [contradiction|].
  unfold u64, size in *. rewrite length_map. cbn [length] in *.
  transitivity (2 * Z.of_nat (S (length kws)) - 1); [apply Z.mod_le; lia|lia].
Qed.

Lemma decode_modifier_chain modifier_chain_share chain_bytes :
  plaintext modifier_chain_share = Some chain_bytes ->
  (modifier_chain_input <- base64StringToInput modifier_chain_share ;;
   splitTo1bitShareWrappers modifier_chain_input)
  = Ok (map bit (flat_map msb_first chain_bytes)).
Proof.
  intros H. rewrite (base64StringToInput_plaintext _ _ H). cbn [bind].
  apply splitTo1bitShareWrappers_bits.
Qed.

Lemma decode_texts mails texts :
  Forall2 mail_text mails texts ->
  mapM (fun mail => base64StringToInput (secret_share_truncated_block mail)) mails
  = Ok (map (map ToInput) texts).
Proof.
  induction 1 as [|mail T mails texts [HT _] _ IH]; [reflexivity|].
  cbn [mapM map]. rewrite (base64StringToInput_plaintext _ _ HT), IH. reflexivity.
Qed.

Lemma decode_queries bucket_scheme search_queries plain :
  Forall2 (bucketed_query bucket_scheme) search_queries plain ->
  getBucketedKeywordInput search_queries
  = Ok (map (fun p => bucketed (fst p) (mask_bits p)) plain).
Proof.
  intros H. rewrite (getBucketedKeywordInput_plain search_queries plain).
  - replace (forallb _ _) with true; [reflexivity|].
    symmetry. induction H as [|q p qs ps (_ & Hsize & _) _ IH]; [reflexivity|].
    cbn [combine forallb fst snd]. rewrite IH, andb_true_r. apply Z.eqb_eq, Hsize.
  - induction H as [|q p qs ps (Hq & _) _ IH]; constructor; assumption.
Qed.

Lemma in_combine_texts {A} (texts : list (list Z)) (results : list A) tp :
  Forall (fun T => size T < 2 ^ 31) texts -> In tp (combine texts results) ->
  size (fst tp) < 2 ^ 31.
Proof.
  intros H Hin. destruct tp as [T r]. apply in_combine_l in Hin.
  rewrite Forall_forall in H. apply H, Hin.
Qed.

Lemma mail_text_sizes mails texts :
  Forall2 mail_text mails texts -> Forall (fun T => size T < 2 ^ 31) texts.
Proof. induction 1 as [|mail T mails texts [_ HT] _ IH]; constructor; assumption. Qed.

Lemma hidden_mode_chained :
  forall (search_queries : list search_query) (plain : list (list Z * list Z))
         (modifier_chain_share : share_string) (chain_bytes : list Z)
         (mails : list mail_structure) (texts : list (list Z))
         (idx : search_index) (bucket_scheme : list Z),
    Forall2 (bucketed_query bucket_scheme) search_queries plain ->
    search_queries <> [] ->
    Forall (fun b => 0 <= b < 2 ^ 31) bucket_scheme ->
    plaintext modifier_chain_share = Some chain_bytes ->
    (2 * length search_queries - 1 <= 8 * length chain_bytes)%nat ->
    Forall2 mail_text mails texts ->
    PrivMailSearch search_queries modifier_chain_share mails idx bucket_scheme eHidden
    = Ok (map (fun T =>
                 bit (chained (flat_map msb_first chain_bytes)
                              (map (fun p => masked_match (fst p) (mask_bits p)
                                               (min_length bucket_scheme (size (fst p))) T)
                                   plain)))
              texts).
Proof.
  intros qs plain chain Mc mails texts idx scheme Hq Hne Hs Hc Hlen Hm.
  unfold PrivMailSearch.
  pose proof (decode_modifier_chain _ _ Hc) as Hchain.
  destruct (base64StringToInput chain) as [ci|e]; cbn [bind] in Hchain |- *;
    [|discriminate].
  rewrite Hchain. cbn [bind].
  rewrite (decode_queries _ _ _ Hq). cbn [bind].
  assert (Hl : length plain = length qs)
    by (symmetry; eapply Forall2_length; exact Hq).
  assert (Hpne : plain <> []) by (destruct plain, qs; try discriminate; congruence).
  rewrite chain_long_enough_bits.
  2:{ rewrite length_map, flat_map_msb_first_length, Hl. exact Hlen. }
  2:{ destruct plain; [contradiction|discriminate]. }
  cbn [assert bind]. rewrite (decode_texts _ _ Hm). cbn [bind].
  apply for_each_keyword_chained.
  - intros j p results Hp Hres.
    assert (Hwf : exists q, bucketed_query scheme q p).
    { clear - Hq Hp. induction Hq as [|q p' qs ps H _ IH]; [destruct Hp|].
      destruct Hp as [->|Hp]; [now exists q|auto]. }
    destruct Hwf as (q & _ & _ & Hin & HK).
    destruct (min_length_range _ _ Hs Hin) as [Hmin Hrange].
    cbn [bucket_size bucketed]. rewrite Hmin. cbn [bind].
    unfold for_each_target. rewrite combine_map_l, mapM_map.
    apply mapM_ext_in. intros tp Htp. cbn [fst snd].
    rewrite hidden_target_match.
    2:{ lia. }
    2:{ unfold mask_bits. rewrite flat_map_msb_first_length. lia. }
    rewrite word_match_masked; [reflexivity|exact Hrange|].
    apply (in_combine_texts texts results); [|exact Htp].
    apply (mail_text_sizes mails), Hm.
  - exact Hpne.
  - rewrite flat_map_msb_first_length, Hl. exact Hlen.
  - unfold resize. rewrite repeat_length, length_map. reflexivity.
Qed.

(** X8.  In hidden mode, a query of well-formed bucketed keywords over mails
    returns, for every mail, the bit that the modifier chain makes of the
    masked matches of the keywords on the text of the mail. *)
Theorem hidden_mode_search :
  forall (search_queries : list search_query) (plain : list (list Z * list Z))
         (modifier_chain_share : share_string) (chain_bytes : list Z)
         (mails : list mail_structure) (texts : list (list Z))
         (idx : search_index) (bucket_scheme : list Z),
    Forall2 (bucketed_query bucket_scheme) search_queries plain ->
    search_queries <> [] ->
    Forall (fun b => 0 <= b < 2 ^ 31) bucket_scheme ->
    plaintext modifier_chain_share = Some chain_bytes ->
    (2 * length search_queries - 1 <= 8 * length chain_bytes)%nat ->
    Forall2 mail_text mails texts ->
    PrivMailSearch search_queries modifier_chain_share mails idx bucket_scheme eHidden
    = Ok (map (fun T =>
                 bit (chained (flat_map msb_first chain_bytes)
                              (map (fun p => masked_match (fst p) (mask_bits p)
                                               (min_length bucket_scheme (size (fst p))) T)
                                   plain)))
              texts).
Proof. exact hidden_mode_chained. Qed.

Lemma hidden_mode_search_witness :
  PrivMailSearch [example_query 8 "d29ybGQAAAA=" "+A==" "d29ybGQ="; query_java]
    (clear "YA==") [example_mail "aGVsbG93b3JsZA==" []] no_index [4; 8] eHidden
  = Ok [bit true].
Proof.
  apply (hidden_mode_search
           [example_query 8 "d29ybGQAAAA=" "+A==" "d29ybGQ="; query_java]
           [([119; 111; 114; 108; 100; 0; 0; 0], [248]); ([106; 97; 118; 97], [240])]
           (clear "YA==") [96]
           [example_mail "aGVsbG93b3JsZA==" []]
           [[104; 101; 108; 108; 111; 119; 111; 114; 108; 100]]
           no_index [4; 8]).
  - repeat constructor; cbn; auto; lia.
  - discriminate.
  - repeat constructor; lia.
  - reflexivity.
  - cbn. lia.
  - repeat constructor.
Defined.

Lemma decode_words (ws : list share_string) (Ws : list (list Z)) :
  Forall2 (fun w W => plaintext w = Some W) ws Ws ->
  mapM base64StringToInput ws = Ok (map (map ToInput) Ws).
Proof.
  induction 1 as [|w W ws Ws H _ IH]; [reflexivity|].
  cbn [mapM map]. rewrite (base64StringToInput_plaintext _ _ H), IH. reflexivity.
Qed.

Lemma decode_buckets_plain mail pm :
  mail_buckets mail pm -> decode_buckets (buckets mail) = Ok (map bucket_of pm).
Proof.
  unfold mail_buckets, decode_buckets.
  induction 1 as [|b pb bs pbs [Hsize Hwords] _ IH]; [reflexivity|].
  cbn [mapM map]. rewrite (decode_words _ _ Hwords), IH. cbn [bind].
  unfold bucket_of. rewrite Hsize. reflexivity.
Qed.

Lemma decode_mails mails (plain_mails : list (list plain_bucket)) :
  Forall2 mail_buckets mails plain_mails ->
  mapM (fun mail => decode_buckets (buckets mail)) mails
  = Ok (map (map bucket_of) plain_mails).
Proof.
  induction 1 as [|mail pm mails pms H _ IH]; [reflexivity|].
  cbn [mapM map]. rewrite (decode_buckets_plain _ _ H), IH. reflexivity.
Qed.

Lemma bucket_target_match K mask min mail j chain previous :
  (1 <= length K)%nat -> (length K <= length mask)%nat -> 1 <= min ->
  searchable K min mail ->
  bucket_target j chain (bucketed K mask) min (map bucket_of mail) previous
  = chain_result j chain previous (bit (bucket_match K mask min mail)).
Proof.
  intros HK Hm Hmin Hs. unfold bucket_target.
  rewrite bucket_compare_match by (auto using searchable_positions).
  cbn [bind]. rewrite bucket_match_positions by assumption.
  unfold bucket_match.
  destruct (retained (size K) mail); reflexivity.
Qed.

Lemma Forall2_In_r {A B} (R : A -> B -> Prop) l l' b :
  Forall2 R l l' -> In b l' -> exists a, R a b.
Proof.
  induction 1 as [|a b' l l' H _ IH]; intros Hin; [destruct Hin|].
  destruct Hin as [->|Hin]; [now exists a|auto].
Qed.

(** X9.  In bucket mode, a query of well-formed bucketed keywords over mails
    returns, for every mail, the bit that the modifier chain makes of the
    matches of the keywords in the buckets of the mail that are at least as
    large as the keyword's. *)
Theorem bucket_mode_search :
  forall (search_queries : list search_query) (plain : list (list Z * list Z))
         (modifier_chain_share : share_string) (chain_bytes : list Z)
         (mails : list mail_structure) (plain_mails : list (list plain_bucket))
         (idx : search_index) (bucket_scheme : list Z),
    Forall2 (bucketed_query bucket_scheme) search_queries plain ->
    search_queries <> [] ->
    Forall (fun b => 0 <= b < 2 ^ 31) bucket_scheme ->
    plaintext modifier_chain_share = Some chain_bytes ->
    (2 * length search_queries - 1 <= 8 * length chain_bytes)%nat ->
    Forall2 mail_buckets mails plain_mails ->
    (forall p pm, In p plain -> In pm plain_mails ->
                  searchable (fst p) (min_length bucket_scheme (size (fst p))) pm) ->
    PrivMailSearch search_queries modifier_chain_share mails idx bucket_scheme eBucket
    = Ok (map (fun pm =>
                 bit (chained (flat_map msb_first chain_bytes)
                              (map (fun p => bucket_match (fst p) (mask_bits p)
                                               (min_length bucket_scheme (size (fst p))) pm)
                                   plain)))
              plain_mails).
Proof.
  intros qs plain chain Mc mails pms idx scheme Hq Hne Hs Hc Hlen Hm Hsearch.
  unfold PrivMailSearch.
  pose proof (decode_modifier_chain _ _ Hc) as Hchain.
  destruct (base64StringToInput chain) as [ci|e]; cbn [bind] in Hchain |- *;
    [|discriminate].
  rewrite Hchain. cbn [bind].
  rewrite (decode_queries _ _ _ Hq). cbn [bind].
  assert (Hl : length plain = length qs)
    by (symmetry; eapply Forall2_length; exact Hq).
  assert (Hpne : plain <> []) by (destruct plain, qs; try discriminate; congruence).
  rewrite chain_long_enough_bits.
  2:{ rewrite length_map, flat_map_msb_first_length, Hl. exact Hlen. }
  2:{ destruct plain; [contradiction|discriminate]. }
  cbn [assert bind]. rewrite (decode_mails _ _ Hm). cbn [bind].
  apply for_each_keyword_chained.
  - intros j p results Hp Hres.
    destruct (Forall2_In_r _ _ _ _ Hq Hp) as (q & _ & _ & Hin & HK).
    destruct (min_length_range _ _ Hs Hin) as [Hmin Hrange].
    cbn [bucket_size bucketed]. rewrite Hmin. cbn [bind].
    unfold for_each_target. rewrite combine_map_l, mapM_map.
    apply mapM_ext_in. intros tp Htp. cbn [fst snd].
    apply bucket_target_match.
    + lia.
    + unfold mask_bits. rewrite flat_map_msb_first_length. lia.
    + lia.
    + apply Hsearch; [exact Hp|]. destruct tp as [pm r]. apply in_combine_l in Htp.
      exact Htp.
  - exact Hpne.
  - rewrite flat_map_msb_first_length, Hl. exact Hlen.
  - unfold resize. rewrite repeat_length, length_map. reflexivity.
Qed.

Lemma bucket_mode_search_witness :
  PrivMailSearch [query_java; query_systems] chain_zero
    [example_mail EmptyString
       [{| bb_bucket_size := 4; bb_words := [clear word_java] |};
        {| bb_bucket_size := 8; bb_words := [clear word_systems] |}]]
    no_index [4; 8] eBucket
  = Ok [bit true].
Proof.
  apply (bucket_mode_search
           [query_java; query_systems]
           [([106; 97; 118; 97], [240]); ([115; 121; 115; 116; 101; 109; 115; 0], [254])]
           chain_zero [0]
           [example_mail EmptyString
              [{| bb_bucket_size := 4; bb_words := [clear word_java] |};
               {| bb_bucket_size := 8; bb_words := [clear word_systems] |}]]
           [[(4, [[106; 97; 118; 97]]); (8, [[115; 121; 115; 116; 101; 109; 115; 0]])]]
           no_index [4; 8]).
  - repeat constructor; cbn; auto; lia.
  - discriminate.
  - repeat constructor; lia.
  - reflexivity.
  - cbn. lia.
  - repeat constructor.
  - intros p pm [<-|[<-|[]]] [<-|[]] b Hb; cbn in Hb;
      repeat (destruct Hb as [<-|Hb]; [split; [discriminate|];
                                       intros W [<-|[]]; cbn; lia|]);
      destruct Hb.
Defined.

Lemma decode_index_plain idx pidx :
  index_words idx pidx -> decode_index idx = Ok (map bucket_of pidx).
Proof.
  unfold index_words, decode_index.
  induction 1 as [|b pb bs pbs [Hsize Hwords] _ IH]; [reflexivity|].
  cbn [mapM map].
  assert (E : mapM (fun w : share_string * string => base64StringToInput (fst w))
                   (word_and_occurrence_strings b)
              = Ok (map (map ToInput) (snd pb))).
  { clear - Hwords. induction Hwords as [|w W ws Ws H _ IH]; [reflexivity|].
    cbn [mapM map]. rewrite (base64StringToInput_plaintext _ _ H), IH. reflexivity. }
  rewrite E, IH. cbn [bind]. unfold bucket_of. rewrite Hsize. reflexivity.
Qed.

Lemma indexed_words_length pidx :
  length (indexed_words pidx) = length (flat_map snd pidx).
Proof.
  unfold indexed_words. induction pidx as [|b pidx IH]; [reflexivity|].
  cbn [flat_map]. rewrite !length_app, length_map, IH. reflexivity.
Qed.

Lemma total_number_words_plain idx pidx :
  index_words idx pidx -> size (indexed_words pidx) < 2 ^ 32 ->
  total_number_words idx = size (indexed_words pidx).
Proof.
  unfold index_words, total_number_words. intros H.
  assert (G : forall total, 0 <= total ->
                total + size (indexed_words pidx) < 2 ^ 32 ->
                fold_left (fun total bucket =>
                             u32 (total + size (word_and_occurrence_strings bucket)))
                          (index_buckets idx) total
                = total + size (indexed_words pidx)).
  { induction H as [|b pb bs pbs [_ Hwords] _ IH]; intros total H0 Hlt.
    - cbn. unfold size. cbn. lia.
    - cbn [fold_left]. unfold indexed_words, size in *. cbn [flat_map] in *.
      rewrite length_app, length_map in *.
      rewrite (Forall2_length Hwords).
      assert (Hu : u32 (total + Z.of_nat (length (snd pb)))
                   = total + Z.of_nat (length (snd pb)))
        by (unfold u32; apply Z.mod_small; lia).
      rewrite Hu, IH by lia. lia. }
  intros Hlt. rewrite G; [lia|lia|unfold size in *; lia].
Qed.

Lemma ascending_index_split B : forall pidx,
  ascending_index pidx ->
  exists small big, pidx = small ++ big
                    /\ Forall (fun b => fst b < B) small
                    /\ Forall (fun b => B <= fst b) big.
Proof.
  induction pidx as [|b pidx IH]; intros H.
  - exists [], []. repeat split; constructor.
  - destruct H as [Hle Hrest].
    destruct (Z.lt_ge_cases (fst b) B) as [Hlt|Hge].
    + destruct (IH Hrest) as (small & big & -> & Hs & Hb).
      exists (b :: small), big. repeat split; [constructor; assumption|assumption].
    + exists [], (b :: pidx). repeat split; [constructor|].
      constructor; [exact Hge|].
      eapply Forall_impl; [|exact Hle]. cbn. intros; lia.
Qed.

Lemma index_results_matches K mask min pidx :
  1 <= min <= 2 ^ 31 ->
  (forall b, In b (retained (size K) pidx) ->
             forall W, In W (snd b) -> min <= size W < 2 ^ 31) ->
  index_results_in_order K mask min pidx
  = map (fun w => bit (index_match K mask min w)) (indexed_words pidx).
Proof.
  intros Hmin H. unfold index_results_in_order, indexed_words.
  induction pidx as [|b pidx IH]; [reflexivity|].
  cbn [flat_map]. rewrite map_app, map_map, IH.
  2:{ intros b' Hb'. apply H. unfold retained in *. cbn [filter].
      destruct (negb (fst b <? size K)); [now right|exact Hb']. }
  f_equal. apply map_ext_in. intros W HW. unfold index_match. cbn [fst snd].
  destruct (fst b <? size K) eqn:E; [reflexivity|].
  cbn [negb andb]. unfold word_bit. rewrite word_match_masked; [reflexivity|exact Hmin|].
  apply (H b); [|exact HW]. unfold retained. cbn [filter]. rewrite E. now left.
Qed.

Lemma mapM_seq_shift {B} (g : nat -> result B) n :
  mapM g (seq 1 n) = mapM (fun i => g (S i)) (seq 0 n).
Proof. rewrite <- seq_shift, mapM_map. reflexivity. Qed.

Lemma chain_by_index {T} (f : T -> bool) j chain : forall ts rs,
  length rs = length ts ->
  mapM (fun i =>
          previous <- at_ rs i ;;
          m <- at_ (map (fun t => bit (f t)) ts) i ;;
          chain_result j chain previous m)
       (seq 0 (length rs))
  = mapM (fun tp => chain_result j chain (snd tp) (bit (f (fst tp)))) (combine ts rs).
Proof.
  induction ts as [|t ts IH]; intros [|r rs] Hl; try discriminate; [reflexivity|].
  cbn [length seq]. cbn [mapM]. rewrite mapM_seq_shift.
  cbn [combine mapM fst snd]. unfold at_ at 1 2. cbn [map nth_error bind].
  rewrite <- IH by (cbn in Hl; lia). reflexivity.
Qed.

(** X10.  In index mode, over an index whose buckets come in ascending order of
    size, a query of well-formed bucketed keywords returns one bit per
    indexed word, in the order of the index: what the modifier chain makes
    of the matches of the keywords on the word. *)
Theorem index_mode_search :
  forall (search_queries : list search_query) (plain : list (list Z * list Z))
         (modifier_chain_share : share_string) (chain_bytes : list Z)
         (mails : list mail_structure)
         (idx : search_index) (pidx : list plain_bucket) (bucket_scheme : list Z),
    Forall2 (bucketed_query bucket_scheme) search_queries plain ->
    search_queries <> [] ->
    Forall (fun b => 0 <= b < 2 ^ 31) bucket_scheme ->
    plaintext modifier_chain_share = Some chain_bytes ->
    (2 * length search_queries - 1 <= 8 * length chain_bytes)%nat ->
    index_words idx pidx -> ascending_index pidx ->
    size (indexed_words pidx) < 2 ^ 32 ->
    (forall p, In p plain ->
               index_words_searchable (fst p) (min_length bucket_scheme (size (fst p)))
                                      pidx) ->
    PrivMailSearch search_queries modifier_chain_share mails idx bucket_scheme eIndex
    = Ok (map (fun w =>
                 bit (chained (flat_map msb_first chain_bytes)
                              (map (fun p => index_match (fst p) (mask_bits p)
                                               (min_length bucket_scheme (size (fst p))) w)
                                   plain)))
              (indexed_words pidx)).
Proof.
  intros qs plain chain Mc mails idx pidx scheme Hq Hne Hs Hc Hlen Hi Hasc Hwords Hsearch.
  unfold PrivMailSearch.
  pose proof (decode_modifier_chain _ _ Hc) as Hchain.
  destruct (base64StringToInput chain) as [ci|e]; cbn [bind] in Hchain |- *;
    [|discriminate].
  rewrite Hchain. cbn [bind].
  rewrite (decode_queries _ _ _ Hq). cbn [bind].
  assert (Hl : length plain = length qs)
    by (symmetry; eapply Forall2_length; exact Hq).
  assert (Hpne : plain <> []) by (destruct plain, qs; try discriminate; congruence).
  rewrite chain_long_enough_bits.
  2:{ rewrite length_map, flat_map_msb_first_length, Hl. exact Hlen. }
  2:{ destruct plain; [contradiction|discriminate]. }
  cbn [assert bind]. rewrite (decode_index_plain _ _ Hi). cbn [bind].
  apply for_each_keyword_chained.
  - intros j p results Hp Hres.
    destruct (Forall2_In_r _ _ _ _ Hq Hp) as (q & _ & _ & Hin & HK).
    destruct (min_length_range _ _ Hs Hin) as [Hmin Hrange].
    destruct (Hsearch p Hp) as [Hlong Hsome].
    unfold index_keyword. cbn [bucket_size bucketed]. rewrite Hmin. cbn [bind].
    rewrite index_compare_built.
    2:{ lia. }
    2:{ unfold mask_bits. rewrite flat_map_msb_first_length. lia. }
    2:{ split; [|exact Hsome]. intros b Hb W HW. specialize (Hlong b Hb W HW).
        rewrite positions_of_exact; lia. }
    cbn [bind].
    destruct (ascending_index_split (size (fst p)) pidx Hasc)
      as (small & big & E & Hsmall & Hbig).
    assert (Hord : index_results_built (fst p) (mask_bits p)
                     (min_length scheme (size (fst p))) pidx
                   = map (fun w => bit (index_match (fst p) (mask_bits p)
                                          (min_length scheme (size (fst p))) w))
                         (indexed_words pidx)).
    { rewrite <- index_results_matches by assumption.
      rewrite E. apply index_results_ascending; assumption. }
    rewrite Hord.
    replace (size (map _ (indexed_words pidx)) =? size results) with true.
    2:{ symmetry. apply Z.eqb_eq. unfold size. now rewrite length_map, Hres. }
    cbn [assert bind]. apply chain_by_index. exact Hres.
  - exact Hpne.
  - rewrite flat_map_msb_first_length, Hl. exact Hlen.
  - unfold resize. rewrite repeat_length.
    rewrite (total_number_words_plain _ _ Hi Hwords). unfold size. apply Nat2Z.id.
Qed.

Lemma index_mode_search_witness :
  PrivMailSearch [query_java; query_systems] (clear "QA==") []
    (example_index [(4, [word_java; word_perl]); (8, [word_systems])])
    [4; 8] eIndex
  = Ok [bit true; bit false; bit true].
Proof.
  apply (index_mode_search
           [query_java; query_systems]
           [([106; 97; 118; 97], [240]); ([115; 121; 115; 116; 101; 109; 115; 0], [254])]
           (clear "QA==") [64] []
           (example_index [(4, [word_java; word_perl]); (8, [word_systems])])
           [(4, [[106; 97; 118; 97]; [112; 101; 114; 108]]);
            (8, [[115; 121; 115; 116; 101; 109; 115; 0]])]
           [4; 8]).
  - repeat constructor; cbn; auto; lia.
  - discriminate.
  - repeat constructor; lia.
  - reflexivity.
  - cbn. lia.
  - repeat constructor.
  - cbn. split; [repeat constructor; cbn; lia|split; constructor].
  - reflexivity.
  - intros p [<-|[<-|[]]]; (split; [|discriminate]);
      intros b Hb; cbn in Hb;
      repeat (destruct Hb as [<-|Hb];
              [intros W HW; cbn in HW;
               repeat (destruct HW as [<-|HW]; [cbn; lia|]); destruct HW|]);
      destruct Hb.
Defined.

(** ** An index without a word to search *)

Lemma index_first_pass_nothing kw min : forall target_buckets zeros,
  (forall b, In b target_buckets ->
             (bi_bucket_size b <? bucket_size kw) = true \/ words b = []) ->
  exists zeros',
    foldM (fun st target_bucket =>
             foldM (index_first_pass_word kw min target_bucket)
                   (words target_bucket) st)
          target_buckets (zeros, ([], []))
    = Ok (zeros', ([], [])).
Proof.
  induction target_buckets as [|b target_buckets IH]; intros zeros H.
  - exists zeros. reflexivity.
  - cbn [foldM].
    assert (Hb : exists zeros1,
               foldM (index_first_pass_word kw min b) (words b) (zeros, ([], []))
               = Ok (zeros1, ([], []))).
    { destruct (H b (or_introl eq_refl)) as [Hsmall|Hnone].
      - generalize zeros. induction (words b) as [|w ws IHw]; intros z.
        + exists z. reflexivity.
        + cbn [foldM]. unfold index_first_pass_word at 1. rewrite Hsmall.
          cbn [bind]. apply IHw.
      - rewrite Hnone. exists zeros. reflexivity. }
    destruct Hb as (zeros1 & ->). cbn [bind].
    apply IH. intros b' Hb'. apply H. now right.
Qed.

(** X23.  Index mode has no guard for an empty comparison: when every
    bucket of the index is smaller than the keyword's or has no word (an
    empty index in particular), the keyword makes it read the first element
    of the empty vector [all_xnors]. *)
Theorem index_mode_without_searchable_word :
  forall (kw : query_input) (min_keyword_length : Z) (target_buckets : list bucket_input)
         (chain : list ShareWrapper) (bucket_scheme : list Z) (j : nat)
         (search_results : list ShareWrapper),
    (forall b, In b target_buckets ->
               (bi_bucket_size b <? bucket_size kw) = true \/ words b = []) ->
    getMinKeywordLength (bucket_size kw) bucket_scheme = Ok min_keyword_length ->
    index_compare kw min_keyword_length target_buckets = Err out_of_range
    /\ index_keyword chain bucket_scheme target_buckets j kw search_results = Err out_of_range.
Proof.
  intros kw min buckets chain scheme j results H Hmin.
  assert (E : index_compare kw min buckets = Err out_of_range).
  { unfold index_compare, index_first_pass.
    destruct (index_first_pass_nothing kw min buckets [] H) as (zeros & ->).
    reflexivity. }
  split; [exact E|].
  unfold index_keyword. rewrite Hmin. cbn [bind]. rewrite E. reflexivity.
Qed.

Lemma index_mode_without_searchable_word_witness :
  index_compare (bucketed [115; 121; 115; 116; 101; 109; 115; 0]
                          [true; true; true; true; true; true; true; false])
                5 (map bucket_of [(4, [[106; 97; 118; 97]])])
  = Err out_of_range
  /\ index_keyword [bit false] [4; 8] (map bucket_of [(4, [[106; 97; 118; 97]])]) 0
       (bucketed [115; 121; 115; 116; 101; 109; 115; 0]
                 [true; true; true; true; true; true; true; false])
       [[]]
     = Err out_of_range.
Proof.
  apply index_mode_without_searchable_word.
  - intros b [<-|[]]. left. reflexivity.
  - reflexivity.
Defined.

(** ** The shape of the result *)

Lemma same_lengths_length : forall l l', same_lengths l l' = true -> length l = length l'.
Proof.
  induction l as [|a l IH]; intros [|b l'] H; try discriminate; [reflexivity|].
  cbn in H. apply andb_true_iff in H. destruct H as [_ H]. cbn. now rewrite (IH _ H).
Qed.

Lemma gate2_length f a b r : gate2 f a b = Ok r -> length r = length b.
Proof.
  unfold gate2. destruct (same_shape a b) eqn:E; [|discriminate].
  intros [= <-]. unfold same_shape in E. apply same_lengths_length in E.
  rewrite !length_map in E. rewrite zip_with_length; auto.
Qed.

Lemma bind_Ok {A B} (m : result A) (f : A -> result B) b :
  (x <- m ;; f x) = Ok b -> exists a, m = Ok a /\ f a = Ok b.
Proof. destruct m as [a|e]; [|discriminate]. intros H. now exists a. Qed.

Lemma at_In {A} (v : list A) i a : at_ v i = Ok a -> In a v.
Proof.
  unfold at_. destruct (nth_error v i) eqn:E; [|discriminate].
  intros [= <-]. eapply nth_error_In, E.
Qed.

Lemma chain_result_bit j chain previous m r :
  Forall (fun b => GetBitLength b = 1) chain ->
  chain_result j chain previous m = Ok r -> GetBitLength r = 1.
Proof.
  intros Hc H. unfold chain_result in H. destruct j as [|j].
  - apply bind_Ok in H. destruct H as (m0 & H0 & H).
    apply gate2_length in H. unfold GetBitLength, size. rewrite H.
    rewrite Forall_forall in Hc. apply (Hc m0), (at_In _ _ _ H0).
  - apply bind_Ok in H. destruct H as (o & Ho & H).
    apply bind_Ok in H. destruct H as (n & Hn & H).
    unfold CreateChainingCircuit in H.
    do 4 (apply bind_Ok in H; destruct H as ([] & _ & H)).
    do 4 (apply bind_Ok in H; destruct H as (? & _ & H)).
    apply gate2_length in H. unfold GetBitLength, size. rewrite H.
    rewrite Forall_forall in Hc. apply (Hc o), (at_In _ _ _ Ho).
Qed.

Lemma splitTo1bitShareWrappers_bit input chain :
  splitTo1bitShareWrappers input = Ok chain ->
  Forall (fun b => GetBitLength b = 1) chain.
Proof.
  revert chain. induction input as [|x input IH]; intros chain H.
  - injection H as <-. constructor.
  - rewrite splitTo1bitShareWrappers_cons in H.
    apply bind_Ok in H. destruct H as ([] & _ & H).
    apply bind_Ok in H. destruct H as (rest & Hrest & H). injection H as <-.
    apply Forall_app. split; [|exact (IH _ Hrest)].
    apply Forall_rev. unfold Split. apply Forall_map, Forall_forall. reflexivity.
Qed.

Lemma mapM_Forall {A B} (f : A -> result B) (Q : B -> Prop) l l' :
  (forall a b, In a l -> f a = Ok b -> Q b) -> mapM f l = Ok l' -> Forall Q l'.
Proof.
  revert l'. induction l as [|a l IH]; intros l' Hf H.
  - injection H as <-. constructor.
  - cbn [mapM] in H. apply bind_Ok in H. destruct H as (b & Hb & H).
    apply bind_Ok in H. destruct H as (bs & Hbs & H). injection H as <-.
    constructor; [apply (Hf a); [now left|exact Hb]|].
    apply IH; [|exact Hbs]. intros a' b' Ha'. apply Hf. now right.
Qed.

Lemma for_each_target_shape {T} (step : T -> ShareWrapper -> result ShareWrapper)
      targets results results' :
  (forall t previous r, step t previous = Ok r -> GetBitLength r = 1) ->
  length results = length targets ->
  for_each_target step targets results = Ok results' ->
  length results' = length targets /\ Forall (fun r => GetBitLength r = 1) results'.
Proof.
  intros Hstep Hl H. unfold for_each_target in H. split.
  - rewrite (mapM_length _ _ _ H), length_combine. lia.
  - eapply mapM_Forall; [|exact H]. intros [t p] r _. apply Hstep.
Qed.

Lemma for_each_keyword_shape {K}
      (round : nat -> K -> list ShareWrapper -> result (list ShareWrapper))
      (n : nat) kws :
  (forall j kw rs rs', length rs = n -> round j kw rs = Ok rs' ->
                       length rs' = n /\ Forall (fun r => GetBitLength r = 1) rs') ->
  forall rs rs', length rs = n -> for_each_keyword round kws rs = Ok rs' ->
                 length rs' = n /\ (kws <> [] -> Forall (fun r => GetBitLength r = 1) rs').
Proof.
  intros Hround. unfold for_each_keyword.
  generalize 0%nat as j.
  induction kws as [|kw kws IH]; intros j rs rs' Hl H.
  - cbn in H. injection H as <-. split; [exact Hl|intros []; reflexivity].
  - cbn [length seq combine foldM] in H.
    apply bind_Ok in H. destruct H as (rs1 & H1 & H).
    destruct (Hround _ _ _ _ Hl H1) as [Hl1 Hb1].
    destruct kws as [|kw' kws].
    + cbn in H. injection H as <-. split; [exact Hl1|intros _; exact Hb1].
    + destruct (IH (S j) rs1 rs' Hl1 H) as [Hl' Hb']. split; [exact Hl'|].
      intros _. apply Hb'. discriminate.
Qed.

Lemma mapM_nonempty {A B} (f : A -> result B) l l' :
  mapM f l = Ok l' -> l <> [] -> l' <> [].
Proof.
  intros H Hne E. apply mapM_length in H. subst l'. destruct l; [contradiction|discriminate].
Qed.

(** X11.  A search that returns has one result per mail (normal, hidden and
    bucket mode) or one per indexed word as counted by [total_number_words]
    (index mode), and with at least one keyword every result has bit length
    1. *)
Theorem PrivMailSearch_output_shape :
  forall (search_queries : list search_query) (modifier_chain_share : share_string)
         (mails : list mail_structure) (idx : search_index) (bucket_scheme : list Z)
         (search_mode : search_mode_enum) (search_results : list ShareWrapper),
    PrivMailSearch search_queries modifier_chain_share mails idx bucket_scheme search_mode
    = Ok search_results ->
    length search_results
    = match search_mode with
      | eIndex => Z.to_nat (total_number_words idx)
      | _ => length mails
      end
    /\ (search_queries <> [] ->
        Forall (fun r => GetBitLength r = 1) search_results).
Proof.
  intros qs chain mails idx scheme mode results H.
  unfold PrivMailSearch in H.
  apply bind_Ok in H. destruct H as (ci & _ & H).
  apply bind_Ok in H. destruct H as (bits & Hbits & H).
  apply splitTo1bitShareWrappers_bit in Hbits.
  destruct mode; try discriminate.
  - apply bind_Ok in H. destruct H as (kws & Hk & H).
    apply bind_Ok in H. destruct H as ([] & _ & H).
    apply bind_Ok in H. destruct H as (targets & Ht & H).
    apply mapM_length in Ht. rewrite <- Ht.
    eapply for_each_keyword_shape in H.
    + destruct H as [Hl Hb]. split; [exact Hl|].
      intros Hne. apply Hb. exact (mapM_nonempty _ _ _ Hk Hne).
    + intros j kw rs rs' Hl Hr. eapply for_each_target_shape; [|exact Hl|exact Hr].
      intros t previous r Hs. unfold normal_target in Hs.
      destruct (_ <? 1).
      * exact (chain_result_bit _ _ _ _ _ Hbits Hs).
      * apply bind_Ok in Hs. destruct Hs as (x & _ & Hs).
        exact (chain_result_bit _ _ _ _ _ Hbits Hs).
    + apply repeat_length.
  - apply bind_Ok in H. destruct H as (kws & Hk & H).
    apply bind_Ok in H. destruct H as ([] & _ & H).
    apply bind_Ok in H. destruct H as (targets & Ht & H).
    apply mapM_length in Ht. rewrite <- Ht.
    eapply for_each_keyword_shape in H.
    + destruct H as [Hl Hb]. split; [exact Hl|].
      intros Hne. apply Hb. exact (mapM_nonempty _ _ _ Hk Hne).
    + intros j kw rs rs' Hl Hr. cbv beta in Hr.
      apply bind_Ok in Hr. destruct Hr as (min & _ & Hr).
      eapply for_each_target_shape; [|exact Hl|exact Hr].
      intros t previous r Hs. unfold hidden_target in Hs.
      destruct (_ <? 1).
      * exact (chain_result_bit _ _ _ _ _ Hbits Hs).
      * apply bind_Ok in Hs. destruct Hs as (x & _ & Hs).
        exact (chain_result_bit _ _ _ _ _ Hbits Hs).
    + apply repeat_length.
  - apply bind_Ok in H. destruct H as (kws & Hk & H).
    apply bind_Ok in H. destruct H as ([] & _ & H).
    apply bind_Ok in H. destruct H as (targets & Ht & H).
    apply mapM_length in Ht. rewrite <- Ht.
    eapply for_each_keyword_shape in H.
    + destruct H as [Hl Hb]. split; [exact Hl|].
      intros Hne. apply Hb. exact (mapM_nonempty _ _ _ Hk Hne).
    + intros j kw rs rs' Hl Hr. cbv beta in Hr.
      apply bind_Ok in Hr. destruct Hr as (min & _ & Hr).
      eapply for_each_target_shape; [|exact Hl|exact Hr].
      intros t previous r Hs. unfold bucket_target in Hs.
      apply bind_Ok in Hs. destruct Hs as ([x|] & _ & Hs);
        exact (chain_result_bit _ _ _ _ _ Hbits Hs).
    + apply repeat_length.
  - apply bind_Ok in H. destruct H as (kws & Hk & H).
    apply bind_Ok in H. destruct H as ([] & _ & H).
    apply bind_Ok in H. destruct H as (targets & Ht & H).
    eapply for_each_keyword_shape in H.
    + destruct H as [Hl Hb]. split; [exact Hl|].
      intros Hne. apply Hb. exact (mapM_nonempty _ _ _ Hk Hne).
    + intros j kw rs rs' Hl Hr. unfold index_keyword in Hr.
      apply bind_Ok in Hr. destruct Hr as (min & _ & Hr).
      apply bind_Ok in Hr. destruct Hr as (per & _ & Hr).
      apply bind_Ok in Hr. destruct Hr as ([] & _ & Hr).
      split.
      * rewrite (mapM_length _ _ _ Hr), length_seq. exact Hl.
      * eapply mapM_Forall; [|exact Hr]. intros i r _ Hi.
        apply bind_Ok in Hi. destruct Hi as (p & _ & Hi).
        apply bind_Ok in Hi. destruct Hi as (m & _ & Hi).
        exact (chain_result_bit _ _ _ _ _ Hbits Hi).
    + apply repeat_length.
Qed.

Lemma PrivMailSearch_output_shape_witness :
  length [bit true; bit false; bit true] = Z.to_nat
    (total_number_words (example_index [(4, [word_java; word_perl]); (8, [word_systems])]))
  /\ ([query_java; query_systems] <> [] ->
      Forall (fun r => GetBitLength r = 1) [bit true; bit false; bit true]).
Proof.
  apply (PrivMailSearch_output_shape
           [query_java; query_systems] (clear "QA==") []
           (example_index [(4, [word_java; word_perl]); (8, [word_systems])])
           [4; 8] eIndex).
  vm_compute. reflexivity.
Defined.

(* ================================================================== *)
(** * The driver *)
(* ================================================================== *)

Lemma for_each_app {A S} (f : S -> A -> outcome S) l l' s :
  for_each f (l ++ l') s = (s' <~ for_each f l s ;; for_each f l' s').
Proof.
  revert s. induction l as [|a l IH]; intros s; [reflexivity|].
  cbn [app for_each]. destruct (f s a); cbn [and_then]; auto.
Qed.

Lemma and_then_Done {A B} (m : outcome A) (f : A -> outcome B) b :
  (x <~ m ;; f x) = Done b -> exists a, m = Done a /\ f a = Done b.
Proof. destruct m as [a|e]; [|discriminate]. intros H. now exists a. Qed.

(** ** The query loader *)

(** X13.  [SearchQueriesFromFile] returns if and only if every entry that does
    not have exactly one key has the five keys of a keyword; it then
    returns the queries of these entries, in their order. *)
Theorem SearchQueriesFromFile_spec :
  forall (keywords : list query_from_file) (search_queries : list party.search_query),
    SearchQueriesFromFile keywords = Done search_queries
    <-> Forall2 complete_entry
                (filter (fun e => negb (qf_size e =? 1)) keywords) search_queries.
Proof.
  intros keywords qs. unfold SearchQueriesFromFile.
  set (step := fun (search_queries : list party.search_query) query_from_file => _).
  assert (G : forall acc qs',
             for_each step keywords acc = Done qs'
             <-> exists new, qs' = acc ++ new
                             /\ Forall2 complete_entry
                                        (filter (fun e => negb (qf_size e =? 1)) keywords) new).
  { induction keywords as [|e keywords IH]; intros acc qs'.
    - cbn. split.
      + intros [= <-]. exists []. split; [now rewrite app_nil_r|constructor].
      + intros (new & -> & H). inversion H. now rewrite app_nil_r.
    - cbn [for_each filter]. unfold step at 1.
      destruct (qf_size e =? 1); cbn [negb and_then]; [apply IH|].
      split.
      + intros H.
        apply and_then_Done in H. destruct H as (acc' & H & Hrest).
        apply and_then_Done in H. destruct H as (k & Hk & H).
        apply and_then_Done in H. destruct H as (b & Hb & H).
        apply and_then_Done in H. destruct H as (kb & Hkb & H).
        apply and_then_Done in H. destruct H as (m & Hm & H).
        apply and_then_Done in H. destruct H as (t & Ht & H).
        injection H as <-.
        apply IH in Hrest. destruct Hrest as (new & -> & Hnew).
        eexists (_ :: new). split; [now rewrite <- app_assoc|].
        constructor; [|exact Hnew]. repeat split; assumption.
      + intros (new & -> & H). inversion H as [|e' q l l' Hq Hl]; subst.
        destruct Hq as (Hk & Hb & Hkb & Hm & Ht).
        rewrite Hk, Hb, Hkb, Hm, Ht. cbn [and_then].
        apply IH. exists l'. split; [|exact Hl].
        rewrite <- app_assoc. destruct q; reflexivity. }
  rewrite G. split.
  - intros (new & -> & H). exact H.
  - intros H. now exists qs.
Qed.

(** ** The mail loader *)

Lemma greatest_sequence_number_nonneg files : 0 <= greatest_sequence_number files.
Proof.
  unfold greatest_sequence_number. induction files as [|f files IH]; cbn; lia.
Qed.

Lemma greatest_sequence_number_bound files f :
  In f files -> sequence_number f <= greatest_sequence_number files.
Proof.
  unfold greatest_sequence_number. induction files as [|f' files IH]; intros H; [destruct H|].
  cbn. destruct H as [->|H]; [lia|]. specialize (IH H). lia.
Qed.

Lemma max_sequence_number_greatest files :
  max_sequence_number (map yaml_of files) = Done (greatest_sequence_number files).
Proof.
  unfold max_sequence_number.
  assert (G : forall m, 0 <= m ->
             for_each (fun max_seq_number mail_yaml_file =>
                         sequence_number <~ yaml_sequence_number mail_yaml_file ;;
                         if sequence_number >? max_seq_number
                         then yaml_sequence_number mail_yaml_file
                         else Done max_seq_number)
                      (map yaml_of files) m
             = Done (Z.max m (greatest_sequence_number files))).
  { induction files as [|f files IH]; intros m Hm.
    - cbn. pose proof (greatest_sequence_number_nonneg []). f_equal. cbn. lia.
    - cbn [map for_each yaml_of yaml_sequence_number and_then].
      pose proof (greatest_sequence_number_nonneg files) as Hg.
      unfold greatest_sequence_number in *. cbn [map fold_right].
      destruct (Z.gtb_spec (sequence_number f) m); cbn [and_then];
        rewrite IH by lia; f_equal; lia. }
  rewrite G by lia. f_equal. pose proof (greatest_sequence_number_nonneg files). lia.
Qed.

Lemma read_buckets_of bucket_scheme f :
  read_buckets bucket_scheme (yaml_of f) = Done (party.buckets (mail_of bucket_scheme f)).
Proof.
  unfold read_buckets, mail_of. cbn [party.buckets].
  assert (G : forall acc,
             for_each (fun buckets bucket_size =>
                         match yaml_secret_share_bucket_blocks (yaml_of f) bucket_size with
                         | Some block =>
                             words <~ block ;;
                             Done (buckets ++ [{| party.bb_bucket_size := bucket_size;
                                                  party.words := words |}])
                         | None => Done buckets
                         end) bucket_scheme acc
             = Done (acc ++ flat_map (fun bucket_size =>
                                        match mf_secret_share_bucket_blocks f bucket_size with
                                        | Some words =>
                                            [{| party.bb_bucket_size := bucket_size;
                                                party.words := words |}]
                                        | None => []
                                        end) bucket_scheme)).
  { induction bucket_scheme as [|b scheme IH]; intros acc.
    - cbn. now rewrite app_nil_r.
    - cbn [for_each flat_map yaml_of yaml_secret_share_bucket_blocks].
      destruct (mf_secret_share_bucket_blocks f b) as [ws|]; cbn [option_map and_then].
      + rewrite IH, <- app_assoc. reflexivity.
      + apply IH. }
  apply (G []).
Qed.

Lemma store_map {A} (g : nat -> A) (n : nat) (s : Z) (a : A) :
  0 <= s < Z.of_nat n ->
  store (map g (seq 0 n)) s a
  = Done (map (fun i => if s =? Z.of_nat i then a else g i) (seq 0 n)).
Proof.
  intros Hs. unfold store, size. rewrite length_map, length_seq.
  destruct (Z.leb_spec 0 s); [|lia]. destruct (Z.ltb_spec s (Z.of_nat n)); [|lia].
  cbn [andb]. f_equal.
  set (k := Z.to_nat s).
  assert (E : seq 0 n = seq 0 k ++ k :: seq (S k) (n - S k)).
  { replace n with (k + S (n - S k))%nat at 1 by lia.
    rewrite seq_app. reflexivity. }
  rewrite E at 3. rewrite map_app. cbn [map].
  replace (s =? Z.of_nat k) with true by (symmetry; apply Z.eqb_eq; lia).
  f_equal; [|f_equal].
  - rewrite firstn_map. rewrite E, firstn_app, length_seq, Nat.sub_diag.
    rewrite firstn_all2 by (rewrite length_seq; lia).
    cbn [firstn]. rewrite app_nil_r.
    apply map_ext_in. intros i Hi. apply in_seq in Hi.
    destruct (Z.eqb_spec s (Z.of_nat i)); [lia|reflexivity].
  - rewrite skipn_map. rewrite E.
    rewrite skipn_app, length_seq.
    rewrite skipn_all2 by (rewrite length_seq; lia).
    replace (S k - k)%nat with 1%nat by lia. cbn [skipn app].
    apply map_ext_in. intros i Hi. apply in_seq in Hi.
    destruct (Z.eqb_spec s (Z.of_nat i)); [lia|reflexivity].
Qed.

Lemma mail_at_last bucket_scheme done f i :
  mail_at bucket_scheme (done ++ [f]) i
  = if sequence_number f =? Z.of_nat i then mail_of bucket_scheme f
    else mail_at bucket_scheme done i.
Proof.
  unfold mail_at. rewrite rev_app_distr. cbn [rev app List.find].
  destruct (sequence_number f =? Z.of_nat i); reflexivity.
Qed.

Lemma fill_mails bucket_scheme n : forall files done,
  Forall (fun f => 0 <= sequence_number f < Z.of_nat n) files ->
  for_each (fun mails mail_yaml_file =>
              sequence_number <~ yaml_sequence_number mail_yaml_file ;;
              subject <~ yaml_subject mail_yaml_file ;;
              secret_share_block <~ yaml_secret_share_block mail_yaml_file ;;
              secret_share_truncated_block <~
                yaml_secret_share_truncated_block mail_yaml_file ;;
              buckets <~ read_buckets bucket_scheme mail_yaml_file ;;
              store mails sequence_number
                    {| party.subject := subject;
                       party.secret_share_block := secret_share_block;
                       party.secret_share_truncated_block := secret_share_truncated_block;
                       party.buckets := buckets |})
           (map yaml_of files) (map (mail_at bucket_scheme done) (seq 0 n))
  = Done (map (mail_at bucket_scheme (done ++ files)) (seq 0 n)).
Proof.
  induction files as [|f files IH]; intros done H.
  - cbn. now rewrite app_nil_r.
  - apply Forall_cons_iff in H. destruct H as [Hf H].
    cbn [map for_each]. cbn [yaml_of yaml_sequence_number yaml_subject
                               yaml_secret_share_block yaml_secret_share_truncated_block
                               and_then].
    change {| yaml_sequence_number := Done (sequence_number f);
              yaml_subject := Done (mf_subject f);
              yaml_secret_share_block := Done (mf_secret_share_block f);
              yaml_secret_share_truncated_block := Done (mf_secret_share_truncated_block f);
              yaml_secret_share_bucket_blocks :=
                fun bucket_size =>
                  option_map Done (mf_secret_share_bucket_blocks f bucket_size) |}
      with (yaml_of f).
    rewrite read_buckets_of. cbn [and_then].
    rewrite store_map by exact Hf. cbn [and_then].
    replace (done ++ f :: files) with ((done ++ [f]) ++ files)
      by (now rewrite <- app_assoc).
    rewrite <- IH by exact H.
    f_equal. apply map_ext. intros i. rewrite mail_at_last.
    reflexivity.
Qed.

(** X14.  When every key of every file converts and no sequence number is
    [2^32 - 1], [MailsFromDirectory] returns as many mails as the greatest
    sequence number plus one (a single empty mail for an empty directory);
    the mail at an index is that of the last file with this sequence number,
    and an empty mail when no file has it.  A sequence number [2^32 - 1]
    makes the size of the vector wrap to 0 and the loader write past its
    end. *)
Theorem MailsFromDirectory_spec :
  forall (files : list mail_file) (bucket_scheme : list Z),
    Forall (fun f => 0 <= sequence_number f < 2 ^ 32) files ->
    MailsFromDirectory (map yaml_of files) bucket_scheme
    = if greatest_sequence_number files =? 2 ^ 32 - 1
      then Thrown past_the_end
      else Done (map (mail_at bucket_scheme files)
                     (seq 0 (Z.to_nat (greatest_sequence_number files + 1)))).
Proof.
  intros files scheme H. unfold MailsFromDirectory.
  rewrite max_sequence_number_greatest. cbn [and_then].
  pose proof (greatest_sequence_number_nonneg files) as H0.
  assert (Hmax : greatest_sequence_number files < 2 ^ 32).
  { clear H0. unfold greatest_sequence_number.
    induction H as [|f files Hf _ IH]; cbn; lia. }
  destruct (Z.eqb_spec (greatest_sequence_number files) (2 ^ 32 - 1)) as [E|E].
  - rewrite E. change (u32 (2 ^ 32 - 1 + 1)) with 0. cbn [Z.to_nat repeat].
    destruct files as [|f files]; [cbn in E; lia|].
    apply Forall_cons_iff in H. destruct H as [Hf _].
    cbn [map for_each yaml_of yaml_sequence_number yaml_subject
             yaml_secret_share_block yaml_secret_share_truncated_block and_then].
    change {| yaml_sequence_number := Done (sequence_number f);
              yaml_subject := Done (mf_subject f);
              yaml_secret_share_block := Done (mf_secret_share_block f);
              yaml_secret_share_truncated_block := Done (mf_secret_share_truncated_block f);
              yaml_secret_share_bucket_blocks :=
                fun bucket_size =>
                  option_map Done (mf_secret_share_bucket_blocks f bucket_size) |}
      with (yaml_of f).
    rewrite read_buckets_of. cbn [and_then]. unfold store, size. cbn [length].
    destruct (0 <=? sequence_number f); cbn [andb].
    + destruct (Z.ltb_spec (sequence_number f) (Z.of_nat 0)); [lia|reflexivity].
    + reflexivity.
  - assert (Hu : u32 (greatest_sequence_number files + 1)
                 = greatest_sequence_number files + 1)
      by (unfold u32; apply Z.mod_small; lia).
    rewrite Hu.
    set (n := Z.to_nat (greatest_sequence_number files + 1)).
    assert (Hempty : repeat empty_mail n = map (mail_at scheme []) (seq 0 n)).
    { clear. generalize 0%nat. induction n as [|n IH]; intros k; [reflexivity|].
      cbn [repeat seq map]. rewrite (IH (S k)). reflexivity. }
    rewrite Hempty, fill_mails; [reflexivity|].
    apply Forall_forall. intros f Hf.
    pose proof (greatest_sequence_number_bound _ _ Hf).
    rewrite Forall_forall in H. specialize (H f Hf). lia.
Qed.

Lemma MailsFromDirectory_spec_witness :
  MailsFromDirectory
    (map yaml_of [{| sequence_number := 2; mf_subject := "b";
                     mf_secret_share_block := "AA==";
                     mf_secret_share_truncated_block := "AA==";
                     mf_secret_share_bucket_blocks :=
                       fun b => if b =? 8 then Some ["c3lzdGVtcwA="%string] else None |}])
    [4; 8]
  = Done [empty_mail; empty_mail;
          {| party.subject := "b"; party.secret_share_block := "AA==";
             party.secret_share_truncated_block := "AA==";
             party.buckets := [{| party.bb_bucket_size := 8;
                                  party.words := ["c3lzdGVtcwA="%string] |}] |}].
Proof.
  apply (MailsFromDirectory_spec
           [{| sequence_number := 2; mf_subject := "b";
               mf_secret_share_block := "AA==";
               mf_secret_share_truncated_block := "AA==";
               mf_secret_share_bucket_blocks :=
                 fun b => if b =? 8 then Some ["c3lzdGVtcwA="%string] else None |}]
           [4; 8]).
  repeat constructor; cbn; lia.
Defined.

(** ** The index loader *)

Lemma read_items_plain (items : list (string * string)) : forall words,
  read_items (map (fun item => (Done (fst item), Done (snd item))) items) words
  = Done (words ++ items).
Proof.
  unfold read_items. induction items as [|[w o] items IH]; intros words.
  - cbn. now rewrite app_nil_r.
  - cbn [map for_each fst snd and_then]. rewrite IH, <- app_assoc. reflexivity.
Qed.

Lemma read_dicts_plain (dicts : list (list (string * string))) : forall words,
  for_each (fun words bucket_item_dict => read_items bucket_item_dict words)
           (map (map (fun item => (Done (fst item), Done (snd item)))) dicts) words
  = Done (words ++ concat dicts).
Proof.
  induction dicts as [|d dicts IH]; intros words.
  - cbn. now rewrite app_nil_r.
  - cbn [map for_each concat]. rewrite read_items_plain. cbn [and_then].
    rewrite IH, <- app_assoc. reflexivity.
Qed.

(** X22.  When every key and value of an index file converts,
    [IndexFromFile] returns the buckets in the order of the file; the words
    of a bucket are the items of all the dictionaries of its list, in order,
    so that a dictionary of several words gives several indexed words and an
    empty dictionary none.  Without [num_of_emails] the loader raises before
    it reads a bucket. *)
Theorem IndexFromFile_spec :
  (forall f : index_file,
      IndexFromFile (yaml_of_index f)
      = Done {| party.num_of_emails := fst f;
                party.index_buckets :=
                  map (fun bucket =>
                         {| party.ib_bucket_size := fst bucket;
                            party.word_and_occurrence_strings := concat (snd bucket) |})
                      (snd f) |})
  /\ (forall (e : loader_exn) buckets,
         IndexFromFile {| yaml_num_of_emails := Thrown e; yaml_INDEX_BUCKETS := buckets |}
         = Thrown e).
Proof.
  split; [|reflexivity].
  intros [num buckets]. unfold IndexFromFile, yaml_of_index.
  cbn [yaml_num_of_emails yaml_INDEX_BUCKETS fst snd and_then].
  assert (G : forall acc,
             for_each (fun index_buckets bucket =>
                         bucket_size <~ fst bucket ;;
                         words <~ for_each (fun words bucket_item_dict =>
                                              read_items bucket_item_dict words)
                                           (snd bucket) [] ;;
                         Done (index_buckets
                                 ++ [{| party.ib_bucket_size := bucket_size;
                                        party.word_and_occurrence_strings := words |}]))
                      (map (fun bucket : Z * list (list (string * string)) =>
                              (Done (fst bucket),
                               map (map (fun item => (Done (fst item), Done (snd item))))
                                   (snd bucket)))
                           buckets) acc
             = Done (acc ++ map (fun bucket =>
                                   {| party.ib_bucket_size := fst bucket;
                                      party.word_and_occurrence_strings :=
                                        concat (snd bucket) |})
                                buckets)).
  { induction buckets as [|b buckets IH]; intros acc.
    - cbn. now rewrite app_nil_r.
    - cbn [map for_each fst snd and_then]. rewrite read_dicts_plain.
      cbn [and_then app]. rewrite IH, <- app_assoc. reflexivity. }
  rewrite G. reflexivity.
Qed.

(** ** The counters of the statistics *)

Lemma GetCharacterLengthFromBase64_decoded s :
  well_encoded s ->
  GetCharacterLengthFromBase64 s = size (simple_base64_decoder s).
Proof.
  intros [Hcan Hfit].
  rewrite GetCharacterLengthFromBase64_formula.
  unfold simple_base64_decoder.
  pose proof (decoder_loop_length (length (list_ascii_of_string s))
                (list_ascii_of_string s) [] 0 0 (le_n _) Hcan eq_refl) as H.
  unfold size at 3 in H. rewrite length_list_ascii_of_string in H.
  change (size (@nil Z)) with 0 in H.
  rewrite H. apply Z.mod_small.
  assert (0 <= size (decoder_loop (list_ascii_of_string s) [] 0 0))
    by (unfold size; lia).
  assert (0 <= count (list_ascii_of_string s) pad_char) by (unfold count, size; lia).
  lia.
Qed.

Lemma u32_sum {A} (g : A -> Z) l : forall acc,
  fold_left (fun total a => u32 (total + g a)) l (u32 acc)
  = u32 (acc + total (map g l)).
Proof.
  induction l as [|a l IH]; intros acc.
  - cbn. now rewrite Z.add_0_r.
  - cbn [fold_left map total fold_right].
    replace (u32 (u32 acc + g a)) with (u32 (acc + g a)).
    + rewrite IH. f_equal. fold (total (map g l)). lia.
    + unfold u32. rewrite Zplus_mod_idemp_l. reflexivity.
Qed.

Lemma u32_sum_from_0 {A} (g : A -> Z) l :
  fold_left (fun total a => u32 (total + g a)) l 0 = u32 (total (map g l)).
Proof. change 0 with (u32 0) at 1. rewrite u32_sum. reflexivity. Qed.

(** X15.  The counters of the statistics: over well-encoded fields,
    [keyword_characters] and [email_characters] are the numbers of bytes that
    the decoder gives for the truncated keywords and for the truncated
    blocks of the mails, [keyword_buckets] is the sum of the bucket sizes,
    each modulo 2^32. *)
Theorem statistics_counters :
  forall (search_queries : list party.search_query) (mails : list party.mail_structure),
    Forall (fun q => well_encoded (party.keyword_truncated q)) search_queries ->
    Forall (fun m => well_encoded (party.secret_share_truncated_block m)) mails ->
    keyword_characters search_queries
    = u32 (total (map (fun q => size (simple_base64_decoder (party.keyword_truncated q)))
                      search_queries))
    /\ keyword_buckets search_queries = u32 (total (map party.bucket_size search_queries))
    /\ email_characters mails
       = u32 (total (map (fun m => size (simple_base64_decoder
                                           (party.secret_share_truncated_block m)))
                         mails)).
Proof.
  intros qs mails Hq Hm. unfold keyword_characters, keyword_buckets, email_characters.
  rewrite !u32_sum_from_0.
  repeat split.
  - f_equal. f_equal. apply map_ext_in. intros q Hin.
    rewrite Forall_forall in Hq. apply GetCharacterLengthFromBase64_decoded, Hq, Hin.
  - f_equal. f_equal. apply map_ext_in. intros m Hin.
    rewrite Forall_forall in Hm. apply GetCharacterLengthFromBase64_decoded, Hm, Hin.
Qed.

Lemma statistics_counters_witness :
  keyword_characters
    [{| party.keyword := "world"; party.bucket_size := 8;
        party.keyword_bucketed := "d29ybGQAAAA="; party.keyword_length_mask := "+A==";
        party.keyword_truncated := "d29ybGQ=" |}] = 5
  /\ keyword_buckets
       [{| party.keyword := "world"; party.bucket_size := 8;
           party.keyword_bucketed := "d29ybGQAAAA="; party.keyword_length_mask := "+A==";
           party.keyword_truncated := "d29ybGQ=" |}] = 8
  /\ email_characters
       [empty_mail;
        {| party.subject := "s"; party.secret_share_block := "aGVsbG8gd29ybGQ=";
           party.secret_share_truncated_block := "aGVsbG8gd29ybGQ=";
           party.buckets := [] |}] = 11.
Proof.
  apply (statistics_counters
           [{| party.keyword := "world"; party.bucket_size := 8;
               party.keyword_bucketed := "d29ybGQAAAA="; party.keyword_length_mask := "+A==";
               party.keyword_truncated := "d29ybGQ=" |}]
           [empty_mail;
            {| party.subject := "s"; party.secret_share_block := "aGVsbG8gd29ybGQ=";
               party.secret_share_truncated_block := "aGVsbG8gd29ybGQ=";
               party.buckets := [] |}]).
  - repeat constructor; cbn; lia.
  - repeat constructor; cbn; lia.
Defined.

(* ================================================================== *)
(** * The exceptions of the search *)
(* ================================================================== *)

Lemma raises_bind {A B} P (m : result A) (f : A -> result B) :
  raises_only P m -> (forall a, m = Ok a -> raises_only P (f a)) ->
  raises_only P (x <- m ;; f x).
Proof.
  intros Hm Hf w H. destruct m as [a|e]; cbn [bind] in H.
  - exact (Hf a eq_refl w H).
  - apply (Hm w). injection H as ->. reflexivity.
Qed.

Lemma raises_mapM {A B} P (f : A -> result B) l :
  (forall a, In a l -> raises_only P (f a)) -> raises_only P (mapM f l).
Proof.
  induction l as [|a l IH]; intros H; [intros w E; discriminate E|].
  cbn [mapM]. apply raises_bind; [apply H; now left|]. intros b _.
  apply raises_bind; [apply IH; intros; apply H; now right|].
  intros bs _ w E. discriminate E.
Qed.

Lemma raises_foldM {A S} P (f : S -> A -> result S) l :
  (forall s a, In a l -> raises_only P (f s a)) -> forall s, raises_only P (foldM f l s).
Proof.
  induction l as [|a l IH]; intros H s; [intros w E; discriminate E|].
  cbn [foldM]. apply raises_bind; [apply H; now left|]. intros s' _.
  apply IH. intros; apply H; now right.
Qed.

Lemma raises_low_depth {A} P (op : A -> A -> result A) :
  (forall a b, raises_only P (op a b)) ->
  forall fuel v, raises_only P (low_depth fuel op v).
Proof.
  intros Hop. induction fuel as [|fuel IH]; intros v.
  - destruct v as [|a [|b v]]; intros w E; discriminate E.
  - destruct v as [|a [|b v]]; try (intros w E; discriminate E).
    cbn [low_depth]. apply raises_bind; [apply IH|]. intros l _.
    apply raises_bind; [apply IH|]. intros r _. apply Hop.
Qed.

Ltac leaf := solve [intros ? ?E; discriminate E].

Ltac quiet :=
  repeat first
    [ leaf
    | assumption
    | match goal with
      | |- raises_only _ (bind _ _) => apply raises_bind; [|intros ? _; cbv beta]
      | |- raises_only _ (mapM _ _) => apply raises_mapM; intros ? _; cbv beta
      | |- raises_only _ (foldM _ _ _) => apply raises_foldM; intros ? ? _; cbv beta
      | |- raises_only _ (LowDepthReduce _ _) => apply raises_low_depth; intros
      | |- raises_only _ (LowDepthReduceSIMD _ _) => apply raises_low_depth; intros
      | |- raises_only _ (if ?b then _ else _) => destruct b
      | |- raises_only _ (match ?x with _ => _ end) => destruct x
      end ].

Lemma quiet_assert P b : raises_only P (assert b).
Proof. unfold assert. quiet. Qed.

Lemma quiet_at {A} P (v : list A) i : raises_only P (at_ v i).
Proof. unfold at_. quiet. Qed.

Lemma quiet_first_n {A} P n (v : list A) : raises_only P (first_n n v).
Proof. unfold first_n. quiet. Qed.

Lemma quiet_gate2 P f a b : raises_only P (gate2 f a b).
Proof. unfold gate2. quiet. Qed.

Lemma quiet_Concatenate P l : raises_only P (Concatenate l).
Proof. unfold Concatenate. quiet. Qed.

Lemma quiet_Simdify P l : raises_only P (Simdify l).
Proof. unfold Simdify. quiet. Qed.

Create HintDb quiet.
#[local] Hint Resolve quiet_assert quiet_at quiet_first_n quiet_gate2 quiet_Concatenate
  quiet_Simdify : quiet.

Ltac quieter :=
  repeat first
    [ leaf
    | assumption
    | solve [auto with quiet]
    | solve [unfold sw_xor, sw_and, sw_or; auto with quiet]
    | match goal with
      | |- raises_only _ (bind _ _) => apply raises_bind; [|intros ? _; cbv beta]
      | |- raises_only _ (mapM _ _) => apply raises_mapM; intros ? _; cbv beta
      | |- raises_only _ (foldM _ _ _) => apply raises_foldM; intros ? ? _; cbv beta
      | |- raises_only _ (LowDepthReduce _ _) => apply raises_low_depth; intros
      | |- raises_only _ (LowDepthReduceSIMD _ _) => apply raises_low_depth; intros
      | |- raises_only _ (if ?b then _ else _) => destruct b
      | |- raises_only _ (match ?x with _ => _ end) => destruct x
      | |- raises_only _ ?r =>
          match r with
          | context [match ?x with _ => _ end] => is_var x; destruct x; cbv beta iota
          end
      end ].

Lemma quiet_xor_into P : forall share value, raises_only P (xor_into value share).
Proof.
  induction share as [|s share IH]; intros [|v value]; cbn [xor_into]; quieter; try apply IH.
Qed.
#[local] Hint Resolve quiet_xor_into : quiet.

Lemma quiet_base64StringToInput P input_string :
  raises_only P (base64StringToInput input_string).
Proof. unfold base64StringToInput, FromSharesToValue. quieter. Qed.
#[local] Hint Resolve quiet_base64StringToInput : quiet.

Lemma quiet_splitTo1bitShareWrappers P input :
  raises_only P (splitTo1bitShareWrappers input).
Proof. unfold splitTo1bitShareWrappers. quieter. Qed.
#[local] Hint Resolve quiet_splitTo1bitShareWrappers : quiet.

Lemma quiet_getBucketedKeywordInput P search_queries :
  raises_only P (getBucketedKeywordInput search_queries).
Proof. unfold getBucketedKeywordInput. quieter. Qed.
#[local] Hint Resolve quiet_getBucketedKeywordInput : quiet.

Lemma quiet_chain_result P j chain previous m :
  raises_only P (chain_result j chain previous m).
Proof. unfold chain_result, CreateChainingCircuit. quieter. Qed.
#[local] Hint Resolve quiet_chain_result : quiet.

Lemma quiet_push_row {A} P : forall (row : list A) cols, raises_only P (push_row cols row).
Proof.
  induction row as [|x row IH]; intros [|c cols]; cbn [push_row]; quieter; try apply IH.
Qed.
#[local] Hint Resolve quiet_push_row : quiet.

Lemma quiet_zip_rows {A} P (rows : list (list A)) : raises_only P (zip_rows rows).
Proof. unfold zip_rows. quieter. Qed.
#[local] Hint Resolve quiet_zip_rows : quiet.

Lemma quiet_push_at {A} P (x : A) : forall cols i, raises_only P (push_at cols i x).
Proof.
  induction cols as [|c cols IH]; intros [|i]; cbn [push_at]; quieter; try apply IH.
Qed.
#[local] Hint Resolve quiet_push_at : quiet.

Lemma quiet_unzip_results {A} P n (v : list A) : raises_only P (unzip_results n v).
Proof. unfold unzip_results. quieter. Qed.
#[local] Hint Resolve quiet_unzip_results : quiet.

Lemma quiet_normal_compare P kw text n : raises_only P (normal_compare kw text n).
Proof. unfold normal_compare, normal_position. quieter. Qed.

Lemma quiet_compare_word P kw word n : raises_only P (compare_word kw word n).
Proof. unfold compare_word, compare_character. quieter. Qed.
#[local] Hint Resolve quiet_normal_compare quiet_compare_word : quiet.

Lemma quiet_batch_compare P kw xs ms : raises_only P (batch_compare kw xs ms).
Proof. unfold batch_compare. quieter. Qed.
#[local] Hint Resolve quiet_batch_compare : quiet.

Lemma quiet_normal_target P j chain kw text previous :
  raises_only P (normal_target j chain kw text previous).
Proof. unfold normal_target. quieter. Qed.

Lemma quiet_hidden_target P j chain kw min text previous :
  raises_only P (hidden_target j chain kw min text previous).
Proof. unfold hidden_target, hidden_compare. quieter. Qed.

Lemma quiet_second_pass_words P min split ws counter :
  raises_only P (second_pass_words min split ws counter).
Proof. unfold second_pass_words, second_pass_word. quieter. Qed.
#[local] Hint Resolve quiet_normal_target quiet_hidden_target quiet_second_pass_words : quiet.

Lemma quiet_bucket_target P j chain kw min target previous :
  raises_only P (bucket_target j chain kw min target previous).
Proof.
  unfold bucket_target, bucket_compare, bucket_first_pass, first_pass_words,
    bucket_second_pass, second_pass_bucket.
  quieter.
Qed.

Lemma quiet_index_compare P kw min buckets : raises_only P (index_compare kw min buckets).
Proof.
  unfold index_compare, index_first_pass, index_first_pass_word, index_second_pass,
    index_second_pass_bucket.
  quieter.
Qed.

Lemma quiet_decode_buckets P bs : raises_only P (decode_buckets bs).
Proof. unfold decode_buckets. quieter. Qed.

Lemma quiet_decode_index P idx : raises_only P (decode_index idx).
Proof. unfold decode_index. quieter. Qed.
#[local] Hint Resolve quiet_bucket_target quiet_index_compare quiet_decode_buckets
  quiet_decode_index : quiet.

Lemma quiet_for_each_target {T} P (step : T -> ShareWrapper -> result ShareWrapper)
      targets results :
  (forall t previous, raises_only P (step t previous)) ->
  raises_only P (for_each_target step targets results).
Proof. intros H. unfold for_each_target. quieter; try apply H. Qed.

Lemma getMinKeywordLength_raises bucket_size bucket_scheme what :
  getMinKeywordLength bucket_size bucket_scheme = Err (invalid_argument what) ->
  what = "Search keyword has invalid bucket size!"%string
  /\ std_find bucket_scheme bucket_size = None.
Proof.
  unfold getMinKeywordLength.
  destruct (std_find bucket_scheme bucket_size) as [[|i]|]; try discriminate.
  intros [= <-]. split; reflexivity.
Qed.

Lemma for_each_keyword_raises {K} P
      (round : nat -> K -> list ShareWrapper -> result (list ShareWrapper)) kws results :
  (forall j kw rs, In kw kws -> raises_only P (round j kw rs)) ->
  raises_only P (for_each_keyword round kws results).
Proof.
  intros H. unfold for_each_keyword. apply raises_foldM.
  intros s [j kw] Hin. apply H. eapply in_combine_r, Hin.
Qed.

Lemma invalid_bucket_size_of search_queries kws kw bucket_scheme :
  getBucketedKeywordInput search_queries = Ok kws -> In kw kws ->
  std_find bucket_scheme (bucket_size kw) = None ->
  exists q, In q search_queries /\ std_find bucket_scheme (sq_bucket_size q) = None.
Proof.
  intros Hk Hin Hnone. apply getBucketedKeywordInput_sizes in Hk.
  assert (Hb : In (bucket_size kw) (map sq_bucket_size search_queries))
    by (rewrite <- Hk; apply in_map, Hin).
  apply in_map_iff in Hb. destruct Hb as (q & E & Hq).
  exists q. split; [exact Hq|]. now rewrite E.
Qed.

Lemma PrivMailSearch_raises :
  forall (search_queries : list search_query) (modifier_chain_share : share_string)
         (mails : list mail_structure) (idx : search_index) (bucket_scheme : list Z)
         (search_mode : search_mode_enum) (what : string),
    PrivMailSearch search_queries modifier_chain_share mails idx bucket_scheme search_mode
    = Err (invalid_argument what) ->
    (search_mode = eError /\ what = "Invalid Search Mode"%string)
    \/ ((search_mode = eHidden \/ search_mode = eBucket \/ search_mode = eIndex)
        /\ what = "Search keyword has invalid bucket size!"%string
        /\ exists q, In q search_queries
                     /\ std_find bucket_scheme (sq_bucket_size q) = None).
Proof.
  intros qs chain mails idx scheme mode what.
  set (P := fun w : string =>
              (mode = eError /\ w = "Invalid Search Mode"%string)
              \/ ((mode = eHidden \/ mode = eBucket \/ mode = eIndex)
                  /\ w = "Search keyword has invalid bucket size!"%string
                  /\ exists q, In q qs /\ std_find scheme (sq_bucket_size q) = None)).
  revert what.
  change (raises_only P (PrivMailSearch qs chain mails idx scheme mode)).
  unfold PrivMailSearch.
  apply raises_bind; [auto with quiet|]. intros ci _.
  apply raises_bind; [auto with quiet|]. intros bits _.
  destruct mode.
  - apply raises_bind; [quieter|]. intros kws _.
    apply raises_bind; [quieter|]. intros [] _.
    apply raises_bind; [quieter|]. intros targets _.
    apply for_each_keyword_raises. intros j kw rs _.
    apply quiet_for_each_target. intros. apply quiet_normal_target.
  - apply raises_bind; [quieter|]. intros kws Hk.
    apply raises_bind; [quieter|]. intros [] _.
    apply raises_bind; [quieter|]. intros targets _.
    apply for_each_keyword_raises. intros j kw rs Hin.
    apply raises_bind.
    + intros w E. apply getMinKeywordLength_raises in E. destruct E as [-> Hnone].
      right. split; [auto|]. split; [reflexivity|].
      exact (invalid_bucket_size_of _ _ _ _ Hk Hin Hnone).
    + intros min _. apply quiet_for_each_target. intros. apply quiet_hidden_target.
  - apply raises_bind; [quieter|]. intros kws Hk.
    apply raises_bind; [quieter|]. intros [] _.
    apply raises_bind; [quieter|]. intros targets _.
    apply for_each_keyword_raises. intros j kw rs Hin.
    apply raises_bind.
    + intros w E. apply getMinKeywordLength_raises in E. destruct E as [-> Hnone].
      right. split; [auto|]. split; [reflexivity|].
      exact (invalid_bucket_size_of _ _ _ _ Hk Hin Hnone).
    + intros min _. apply quiet_for_each_target. intros. apply quiet_bucket_target.
  - apply raises_bind; [quieter|]. intros kws Hk.
    apply raises_bind; [quieter|]. intros [] _.
    apply raises_bind; [quieter|]. intros targets _.
    apply for_each_keyword_raises. intros j kw rs Hin.
    unfold index_keyword. apply raises_bind.
    + intros w E. apply getMinKeywordLength_raises in E. destruct E as [-> Hnone].
      right. split; [auto|]. split; [reflexivity|].
      exact (invalid_bucket_size_of _ _ _ _ Hk Hin Hnone).
    + intros min _. quieter.
  - intros w [= <-]. left. split; reflexivity.
Qed.

(** X16.  The search raises [std::invalid_argument] in two cases only: for a
    search mode that is none of the four, and, in hidden, bucket and index
    mode, for a keyword whose bucket size is not in the bucket scheme. *)
Theorem PrivMailSearch_invalid_argument :
  forall (search_queries : list search_query) (modifier_chain_share : share_string)
         (mails : list mail_structure) (idx : search_index) (bucket_scheme : list Z)
         (search_mode : search_mode_enum) (what : string),
    PrivMailSearch search_queries modifier_chain_share mails idx bucket_scheme search_mode
    = Err (invalid_argument what) ->
    (search_mode = eError /\ what = "Invalid Search Mode"%string)
    \/ ((search_mode = eHidden \/ search_mode = eBucket \/ search_mode = eIndex)
        /\ what = "Search keyword has invalid bucket size!"%string
        /\ exists q, In q search_queries
                     /\ std_find bucket_scheme (sq_bucket_size q) = None).
Proof. exact PrivMailSearch_raises. Qed.

Lemma PrivMailSearch_invalid_argument_witness :
  (eHidden = eError /\ "Search keyword has invalid bucket size!"%string
                       = "Invalid Search Mode"%string)
  \/ ((eHidden = eHidden \/ eHidden = eBucket \/ eHidden = eIndex)
      /\ "Search keyword has invalid bucket size!"%string
         = "Search keyword has invalid bucket size!"%string
      /\ exists q, In q [query_world]
                   /\ std_find [4; 8] (sq_bucket_size q) = None).
Proof.
  apply (PrivMailSearch_invalid_argument
           [query_world] chain_zero [example_mail "aGVsbG8gd29ybGQ=" []] no_index [4; 8]
           eHidden).
  reflexivity.
Defined.

(** X17.  A search mode string other than normal, hidden, bucket and index is
    mapped to [eError] and stops the search with "Invalid Search Mode",
    once the modifier chain is decoded; the four names never do. *)
Theorem GetSearchMode_unknown :
  forall (in_string : string) (search_queries : list search_query)
         (modifier_chain_share : share_string) (chain_bytes : list Z)
         (mails : list mail_structure) (idx : search_index) (bucket_scheme : list Z),
    plaintext modifier_chain_share = Some chain_bytes ->
    (PrivMailSearch search_queries modifier_chain_share mails idx bucket_scheme
                    (GetSearchMode in_string)
     = Err (invalid_argument "Invalid Search Mode")
     <-> ~ In in_string ["normal"; "hidden"; "bucket"; "index"]%string).
Proof.
  intros s qs chain Mc mails idx scheme Hc. split.
  - intros H Hin. apply PrivMailSearch_raises in H.
    destruct H as [[Hmode _]|(_ & Hwhat & _)]; [|discriminate Hwhat].
    cbn in Hin. destruct Hin as [<-|[<-|[<-|[<-|[]]]]]; discriminate Hmode.
  - intros Hin. unfold GetSearchMode.
    destruct (String.eqb_spec s "normal") as [->|_]; [exfalso; apply Hin; cbn; auto|].
    destruct (String.eqb_spec s "hidden") as [->|_]; [exfalso; apply Hin; cbn; auto|].
    destruct (String.eqb_spec s "bucket") as [->|_]; [exfalso; apply Hin; cbn; auto|].
    destruct (String.eqb_spec s "index") as [->|_]; [exfalso; apply Hin; cbn; auto|].
    unfold PrivMailSearch.
    pose proof (decode_modifier_chain _ _ Hc) as Hchain.
    destruct (base64StringToInput chain) as [ci|e]; cbn [bind] in Hchain |- *;
      [|discriminate].
    rewrite Hchain. reflexivity.
Qed.

Lemma GetSearchMode_unknown_witness :
  PrivMailSearch [query_world] chain_zero [] no_index [4; 8] (GetSearchMode "Normal")
  = Err (invalid_argument "Invalid Search Mode")
  <-> ~ In "Normal"%string ["normal"; "hidden"; "bucket"; "index"]%string.
Proof.
  apply (GetSearchMode_unknown "Normal" [query_world] chain_zero [0]).
  reflexivity.
Defined.

(* ================================================================== *)
(** * The decoder and the padding *)
(* ================================================================== *)

Lemma decoder_loop_pads n : forall dec bs cnt,
  decoder_loop (repeat pad_char n) dec bs cnt = dec.
Proof.
  induction n as [|n IH]; intros dec bs cnt; [reflexivity|].
  cbn [repeat]. rewrite decoder_loop_pad. apply IH.
Qed.

Lemma decoder_loop_trailing_pads n : forall data dec bs cnt,
  decoder_loop (data ++ repeat pad_char n) dec bs cnt = decoder_loop data dec bs cnt.
Proof.
  induction data as [|c data IH]; intros dec bs cnt.
  - apply decoder_loop_pads.
  - cbn [app]. destruct (find base64_chars c) as [v|] eqn:Hc.
    + rewrite !(decoder_loop_valid _ _ _ _ _ _ Hc).
      destruct (cnt mod 4) as [|[p|p|]|]; cbv zeta; try apply IH.
      all: destruct p; apply IH.
    + destruct (Ascii.eqb c pad_char) eqn:Hp.
      * apply Ascii.eqb_eq in Hp. subst c. rewrite !decoder_loop_pad. apply IH.
      * rewrite !decoder_loop_invalid by assumption. reflexivity.
Qed.

Lemma list_ascii_of_string_append s t :
  list_ascii_of_string (s ++ t) = list_ascii_of_string s ++ list_ascii_of_string t.
Proof. induction s as [|c s IH]; [reflexivity|]. cbn. now rewrite IH. Qed.

Lemma land_255_byte x : is_byte (Z.land x 255).
Proof.
  unfold is_byte. change 255 with (Z.ones 8). rewrite Z.land_ones by lia.
  apply Z.mod_pos_bound. lia.
Qed.

Lemma decoder_loop_bytes : forall data dec bs cnt,
  Forall is_byte dec -> Forall is_byte (decoder_loop data dec bs cnt).
Proof.
  induction data as [|c data IH]; intros dec bs cnt Hdec; [exact Hdec|].
  assert (Hpush : forall x, Forall is_byte (dec ++ [Z.land x 255])).
  { intros x. apply Forall_app. split; [exact Hdec|].
    constructor; [apply land_255_byte|constructor]. }
  destruct (find base64_chars c) as [v|] eqn:Hc.
  - rewrite (decoder_loop_valid _ _ _ _ _ _ Hc).
    destruct (cnt mod 4) as [|[p|p|]|]; cbv zeta; try (apply IH; auto).
    all: destruct p; apply IH; auto.
  - destruct (Ascii.eqb c pad_char) eqn:Hp.
    + apply Ascii.eqb_eq in Hp. subst c. rewrite decoder_loop_pad. apply IH, Hdec.
    + rewrite decoder_loop_invalid by assumption. constructor.
Qed.

(** X18.  The decoder neither requires nor checks the padding: '=' characters at
    the end of a string do not change what it decodes to.  Every value it
    returns is a byte. *)
Theorem simple_base64_decoder_padding :
  forall (data : string) (n : nat),
    simple_base64_decoder (data ++ string_of_list_ascii (repeat pad_char n))
    = simple_base64_decoder data
    /\ Forall is_byte (simple_base64_decoder data).
Proof.
  intros data n. unfold simple_base64_decoder. split.
  - rewrite list_ascii_of_string_append, list_ascii_of_string_of_list_ascii.
    apply decoder_loop_trailing_pads.
  - apply decoder_loop_bytes. constructor.
Qed.

(** ** Conjunctions and disjunctions of keywords *)

Lemma nth_flat_map_msb_first (b : Z) n k :
  (k < 8 * n)%nat ->
  nth k (flat_map msb_first (repeat b n)) false = nth (k mod 8) (msb_first b) false.
Proof.
  revert k. induction n as [|n IH]; intros k Hk; [lia|].
  cbn [repeat flat_map].
  assert (Hl : length (msb_first b) = 8%nat)
    by (unfold msb_first; now rewrite length_map, length_rev, length_seq).
  destruct (Nat.lt_ge_cases k 8) as [Hlt|Hge].
  - rewrite app_nth1 by lia. now rewrite Nat.mod_small.
  - rewrite app_nth2 by lia. rewrite Hl, IH by lia.
    replace k with ((k - 8) + 1 * 8)%nat at 2 by lia.
    now rewrite Nat.Div0.mod_add.
Qed.

Lemma chain_of_zeros n : forall k, nth k (flat_map msb_first (repeat 0 n)) false = false.
Proof.
  intros k. destruct (Nat.lt_ge_cases k (8 * n)) as [Hlt|Hge].
  - rewrite nth_flat_map_msb_first by exact Hlt.
    assert (Hm : (k mod 8 < 8)%nat) by (apply Nat.mod_upper_bound; lia).
    remember (k mod 8)%nat as r eqn:Er. clear Er.
    do 8 (destruct r as [|r]; [reflexivity|]). lia.
  - apply nth_overflow. rewrite flat_map_msb_first_length, repeat_length. exact Hge.
Qed.

Lemma chain_of_ors n k :
  (k < 8 * n)%nat -> nth k (flat_map msb_first (repeat 85 n)) false = Nat.odd k.
Proof.
  intros Hk. rewrite nth_flat_map_msb_first by exact Hk.
  assert (Hm : (k mod 8 < 8)%nat) by (apply Nat.mod_upper_bound; lia).
  assert (Ho : Nat.odd k = Nat.odd (k mod 8)).
  { rewrite (Nat.div_mod_eq k 8) at 1.
    rewrite Nat.odd_add, Nat.odd_mul. cbn [Nat.odd Nat.even]. reflexivity. }
  rewrite Ho. remember (k mod 8)%nat as r eqn:Er. clear Er Ho.
  do 8 (destruct r as [|r]; [reflexivity|]). lia.
Qed.

Lemma chain_onto_and M : (forall k, nth k M false = false) ->
  forall ms j r, chain_onto M j r ms = r && forallb id ms.
Proof.
  intros HM. induction ms as [|m ms IH]; intros j r.
  - cbn. now rewrite andb_true_r.
  - cbn [chain_onto forallb]. rewrite IH, !HM. unfold CHAIN, id.
    destruct r, m; reflexivity.
Qed.

Lemma chain_onto_or M : forall ms j r,
  (1 <= j)%nat ->
  (forall k, (k < 2 * (j + length ms))%nat -> nth k M false = Nat.odd k) ->
  chain_onto M j r ms = r || existsb id ms.
Proof.
  induction ms as [|m ms IH]; intros j r Hj HM.
  - cbn. now rewrite orb_false_r.
  - cbn [chain_onto existsb]. cbn [length] in HM.
    rewrite IH by (try lia; intros k Hk; apply HM; lia).
    rewrite !HM by lia.
    replace (Nat.odd (2 * j - 1)) with true.
    2:{ replace (2 * j - 1)%nat with (1 + 2 * (j - 1))%nat by lia.
        rewrite Nat.odd_add, Nat.odd_mul. reflexivity. }
    replace (Nat.odd (2 * j)) with false.
    2:{ rewrite Nat.odd_mul. reflexivity. }
    unfold CHAIN, id. destruct r, m; reflexivity.
Qed.

Lemma forallb_id_map {A} (p : A -> bool) l : forallb id (map p l) = forallb p l.
Proof. induction l as [|a l IH]; cbn; [reflexivity|now rewrite IH]. Qed.

(** X19.  In hidden mode a modifier chain of zero bytes makes the result of a
    mail the conjunction of the matches of the keywords, and a modifier
    chain of bytes 01010101 their disjunction. *)
Theorem modifier_chain_and_or :
  forall (search_queries : list search_query) (plain : list (list Z * list Z))
         (zeros ors : share_string) (n : nat)
         (mails : list mail_structure) (texts : list (list Z))
         (idx : search_index) (bucket_scheme : list Z),
    Forall2 (bucketed_query bucket_scheme) search_queries plain ->
    search_queries <> [] ->
    Forall (fun b => 0 <= b < 2 ^ 31) bucket_scheme ->
    (2 * length search_queries - 1 <= 8 * n)%nat ->
    Forall2 mail_text mails texts ->
    plaintext zeros = Some (repeat 0 n) ->
    plaintext ors = Some (repeat 85 n) ->
    PrivMailSearch search_queries zeros mails idx bucket_scheme eHidden
    = Ok (map (fun T =>
                 bit (forallb (fun p => masked_match (fst p) (mask_bits p)
                                          (min_length bucket_scheme (size (fst p))) T)
                              plain))
              texts)
    /\ PrivMailSearch search_queries ors mails idx bucket_scheme eHidden
       = Ok (map (fun T =>
                    bit (existsb (fun p => masked_match (fst p) (mask_bits p)
                                             (min_length bucket_scheme (size (fst p))) T)
                                 plain))
                 texts).
Proof.
  intros qs plain zeros ors n mails texts idx scheme Hq Hne Hs Hlen Hm Hz Ho.
  assert (Hl : length plain = length qs)
    by (symmetry; eapply Forall2_length; exact Hq).
  split.
  - rewrite (hidden_mode_chained qs plain zeros (repeat 0 n) mails texts idx scheme);
      auto; [|now rewrite repeat_length].
    f_equal. apply map_ext. intros T. f_equal.
    destruct plain as [|p plain]; [destruct qs; [contradiction|discriminate]|].
    cbn [map chained forallb]. rewrite chain_onto_and by apply chain_of_zeros.
    rewrite chain_of_zeros, xorb_false_r, forallb_id_map. reflexivity.
  - rewrite (hidden_mode_chained qs plain ors (repeat 85 n) mails texts idx scheme);
      auto; [|now rewrite repeat_length].
    f_equal. apply map_ext. intros T. f_equal.
    destruct plain as [|p plain]; [destruct qs; [contradiction|discriminate]|].
    cbn [map chained existsb].
    rewrite chain_onto_or.
    + rewrite chain_of_ors by (cbn [length] in Hl; lia).
      cbn [Nat.odd Nat.even]. rewrite xorb_false_r, existsb_id_map. reflexivity.
    + lia.
    + intros k Hk. apply chain_of_ors. rewrite length_map in Hk.
      cbn [length] in Hl. lia.
Qed.

Lemma modifier_chain_and_or_witness :
  PrivMailSearch [example_query 8 "d29ybGQAAAA=" "+A==" "d29ybGQ="; query_java]
    (clear "AA==") [example_mail "aGVsbG93b3JsZA==" []] no_index [4; 8] eHidden
  = Ok [bit false]
  /\ PrivMailSearch [example_query 8 "d29ybGQAAAA=" "+A==" "d29ybGQ="; query_java]
       (clear "VQ==") [example_mail "aGVsbG93b3JsZA==" []] no_index [4; 8] eHidden
     = Ok [bit true].
Proof.
  apply (modifier_chain_and_or
           [example_query 8 "d29ybGQAAAA=" "+A==" "d29ybGQ="; query_java]
           [([119; 111; 114; 108; 100; 0; 0; 0], [248]); ([106; 97; 118; 97], [240])]
           (clear "AA==") (clear "VQ==") 1
           [example_mail "aGVsbG93b3JsZA==" []]
           [[104; 101; 108; 108; 111; 119; 111; 114; 108; 100]]
           no_index [4; 8]).
  - repeat constructor; cbn; auto; lia.
  - discriminate.
  - repeat constructor; lia.
  - cbn. lia.
  - repeat constructor.
  - reflexivity.
  - reflexivity.
Defined.

(* ================================================================== *)
(** * The batched comparison and the length mask *)
(* ================================================================== *)

(** X20.  The batched comparison of a keyword of [b + 1] characters with
    [n + 1]-bit characters: from the XNOR bits and the negated mask bits of
    all the cells of a grid of positions, it returns for each position
    whether every character of the keyword matches or is masked out. *)
Theorem batch_compare_spec :
  forall (kw : query_input) (n b : nat) (row : list cell) (grid : list (list cell)),
    length (search_keyword kw) = S b ->
    Forall (fun r => length r = S b) (row :: grid) ->
    Forall (Forall (fun c : cell => length (fst c) = S n)) (row :: grid) ->
    batch_compare kw (grid_xnors (row :: grid)) (grid_masks (row :: grid))
    = Ok (map (fun r => bit (forallb cell_ok r)) (row :: grid)).
Proof. exact batch_compare_grid. Qed.

Lemma batch_compare_spec_witness :
  batch_compare (bucketed [97; 98] [true; false])
    (grid_xnors [[([true; true], false); ([false; true], true)];
                 [([true; false], false); ([true; true], true)]])
    (grid_masks [[([true; true], false); ([false; true], true)];
                 [([true; false], false); ([true; true], true)]])
  = Ok [bit true; bit false].
Proof.
  apply (batch_compare_spec (bucketed [97; 98] [true; false]) 1 1
           [([true; true], false); ([false; true], true)]
           [[([true; false], false); ([true; true], true)]]).
  - reflexivity.
  - repeat constructor.
  - repeat constructor.
Defined.

Lemma seq_split_at (k n : nat) :
  (k < n)%nat -> seq 0 n = seq 0 k ++ k :: seq (S k) (n - S k).
Proof.
  intros H. replace n with (k + S (n - S k))%nat at 1 by lia.
  rewrite seq_app. reflexivity.
Qed.

Lemma mapM_stops_at {A B} (f : A -> result B) (g : A -> B) e l a l' :
  (forall x, In x l -> f x = Ok (g x)) -> f a = Err e ->
  mapM f (l ++ a :: l') = Err e.
Proof.
  intros Hl Ha. induction l as [|x l IH]; cbn [app mapM].
  - rewrite Ha. reflexivity.
  - rewrite (Hl x (or_introl eq_refl)). cbn [bind].
    rewrite IH by (intros; apply Hl; now right). reflexivity.
Qed.

Lemma compare_character_no_mask K mask W t :
  (length mask < length K)%nat ->
  compare_character (bucketed K mask) (map ToInput W) t (length mask) = Err out_of_range.
Proof.
  intros H. unfold compare_character, bucketed.
  cbn [search_keyword length_mask]. rewrite length_map.
  assert (Hm : at_ (map bit mask) (length mask) = Err out_of_range).
  { unfold at_. replace (nth_error (map bit mask) (length mask)) with (@None ShareWrapper);
      [reflexivity|].
    symmetry. apply nth_error_None. now rewrite length_map. }
  destruct (length W <=? length mask + t)%nat eqn:E.
  - rewrite Hm. reflexivity.
  - apply Nat.leb_gt in E.
    rewrite (at_map ToInput 0 K (length mask) H), (at_map ToInput 0 W _ E).
    cbn [bind]. rewrite Hm. reflexivity.
Qed.

(** X21.  The length of the mask is never compared with the bucket size: with a
    mask of fewer bits than the keyword has characters, hidden mode reads
    past the end of the mask as soon as a text has a position to compare. *)
Theorem short_length_mask_overruns :
  forall (K : list Z) (mask : list bool) (W : list Z) (min_keyword_length : Z)
         (j : nat) (chain : list ShareWrapper) (previous : ShareWrapper),
    (length mask < length K)%nat ->
    1 <= positions_of (size W) min_keyword_length ->
    hidden_target j chain (bucketed K mask) min_keyword_length (map ToInput W) previous
    = Err out_of_range.
Proof.
  intros K mask W min j chain previous Hshort Hpos.
  unfold hidden_target.
  replace (size (map ToInput W)) with (size W) by (unfold size; now rewrite length_map).
  destruct (Z.ltb_spec (positions_of (size W) min) 1) as [Hlt|_]; [lia|].
  unfold hidden_compare, compare_word.
  cbn [search_keyword bucketed]. rewrite length_map.
  destruct (Z.to_nat (positions_of (size W) min)) as [|P] eqn:EP; [lia|].
  cbn [seq mapM].
  rewrite (seq_split_at (length mask) (length K) Hshort).
  rewrite (mapM_stops_at _ (fun c => (map bit (fst (word_cell K mask W 0 c)),
                                      bit (snd (word_cell K mask W 0 c))))
                         out_of_range).
  - reflexivity.
  - intros c Hc. apply in_seq in Hc. apply compare_character_cell; lia.
  - apply compare_character_no_mask, Hshort.
Qed.

Lemma short_length_mask_overruns_witness :
  hidden_target 0 [bit false] (bucketed [119; 111; 114; 108; 100; 0; 0; 0; 0]
                                        [true; true; true; true; true; false; false; false])
                1 (map ToInput [104; 101; 108; 108; 111; 119; 111; 114; 108; 100]) []
  = Err out_of_range.
Proof.
  apply short_length_mask_overruns.
  - cbn. lia.
  - vm_compute. discriminate.
Defined.

